(** * lowballm: the negotiation engine of [server/benchmark.js] and the reply
      parser of [agents.js], embedded and verified.

    Numbers are JavaScript numbers, that is IEEE 754 binary64 values: they are
    modelled by Rocq's primitive floats, whose operations are the same
    binary64 operations.  A text is the sequence of the bytes of its UTF-8
    form.  A reply of an agent is whatever [JSON.parse] made of the model's
    answer: its fields are arbitrary JSON values and may be missing. *)

From Stdlib Require Import ZArith Floats Lia Ascii String.
From stdpp Require Import gmap strings list pretty.

Local Open Scope string_scope.

(** ** JavaScript numbers *)

Module Js.

(** [ToBoolean] of a number: [0], [-0] and [NaN] are falsy. *)
Definition truthy (x : float) : bool :=
  negb (PrimFloat.eqb x 0%float || PrimFloat.is_nan x).

(** The float of an integer that binary64 represents exactly; [neg] is the
    sign given to a zero. *)
Definition of_Z (neg : bool) (n : Z) : float :=
  SF2Prim (binary_normalize prec emax n 0 neg).

(** [Math.floor]. *)
Definition Math_floor (x : float) : float :=
  match Prim2SF x with
  | S754_finite s m e =>
      if (0 <=? e)%Z then x
      else
        let k := (- e)%Z in
        let q := Z.shiftr (Z.pos m) k in
        let r := Z.land (Z.pos m) (Z.ones k) in
        if s then of_Z true (- (q + (if (r =? 0)%Z then 0 else 1)))
        else of_Z false q
  | _ => x
  end.

(** [Math.round]: the nearest integer, ties towards +infinity. *)
Definition Math_round (x : float) : float :=
  match Prim2SF x with
  | S754_finite s m e =>
      if (0 <=? e)%Z then x
      else
        let k := (- e)%Z in
        let q := Z.shiftr (Z.pos m) k in
        let r := Z.land (Z.pos m) (Z.ones k) in
        let half := Z.shiftl 1 (k - 1) in
        if s then of_Z true (- (q + (if (half <? r)%Z then 1 else 0)))
        else of_Z false (q + (if (half <=? r)%Z then 1 else 0))
  | _ => x
  end.

(** The array index that a number denotes, if any ([xs[i]] is [undefined]
    for every other number). *)
Definition array_index (x : float) : option nat :=
  match Prim2SF x with
  | S754_zero _ => Some 0
  | S754_finite false m e =>
      if (0 <=? e)%Z then Some (Z.to_nat (Z.shiftl (Z.pos m) e))
      else if (Z.land (Z.pos m) (Z.ones (- e)) =? 0)%Z
           then Some (Z.to_nat (Z.shiftr (Z.pos m) (- e)))
           else None
  | _ => None
  end.

End Js.

(** How a call ends; errors are identified by their [message]. *)
Inductive completion (A : Type) :=
| Returned (a : A)
| Thrown (err : string)
| Diverged.
Arguments Returned {A} a.
Arguments Thrown {A} err.
Arguments Diverged {A}.

(** ** [JSON.parse] *)

Local Close Scope list_scope.
Local Open Scope string_scope.
Local Open Scope list_scope.

#[local] Unset Elimination Schemes.
Inductive json :=
| JNull
| JBool (b : bool)
| JNumber (x : float)
| JString (s : string)
| JArray (items : list json)
| JObject (members : list (string * json)).
#[local] Set Elimination Schemes.

Module Json.

(** [o[k] = v] on the own properties of an object under construction. *)
Fixpoint put (o : list (string * json)) (k : string) (v : json) : list (string * json) :=
  match o with
  | [] => [(k, v)]
  | (k', v') :: o' =>
      if String.eqb k' k then (k', v) :: o' else (k', v') :: put o' k v
  end.

Inductive token :=
| TLBrace | TRBrace | TLBracket | TRBracket | TColon | TComma
| TString (s : string) | TNumber (x : float) | TTrue | TFalse | TNull.

Definition code (c : ascii) : N := N_of_ascii c.

Definition is_ws (c : ascii) : bool :=
  let n := code c in ((n =? 32) || (n =? 9) || (n =? 10) || (n =? 13))%N.

Definition is_digit (c : ascii) : bool :=
  let n := code c in ((48 <=? n) && (n <=? 57))%N.

(** The double quote and the backslash. *)
Definition is_quote (c : ascii) : bool := (code c =? 34)%N.
Definition is_backslash (c : ascii) : bool := (code c =? 92)%N.

Definition is_lower (c : ascii) : bool :=
  let n := code c in ((97 <=? n) && (n <=? 122))%N.

(** The characters a number literal is made of. *)
Definition is_num_char (c : ascii) : bool :=
  is_digit c
  || Ascii.eqb c "-" || Ascii.eqb c "+" || Ascii.eqb c "."
  || Ascii.eqb c "e" || Ascii.eqb c "E".

Definition hex_value (c : ascii) : option N :=
  let n := code c in
  if ((48 <=? n) && (n <=? 57))%N then Some (n - 48)%N
  else if ((97 <=? n) && (n <=? 102))%N then Some (n - 87)%N
  else if ((65 <=? n) && (n <=? 70))%N then Some (n - 55)%N
  else None.

(** The text of the character [n]: in the model a text is the sequence of
    the bytes of its UTF-8 form. *)
Definition utf8 (n : N) : list ascii :=
  if (n <? 128)%N then [ascii_of_N n]
  else if (n <? 2048)%N then [ascii_of_N (192 + n / 64); ascii_of_N (128 + n mod 64)]
  else if (n <? 65536)%N then
    [ascii_of_N (224 + n / 4096); ascii_of_N (128 + (n / 64) mod 64);
     ascii_of_N (128 + n mod 64)]
  else [ascii_of_N (240 + n / 262144); ascii_of_N (128 + (n / 4096) mod 64);
        ascii_of_N (128 + (n / 64) mod 64); ascii_of_N (128 + n mod 64)].

(** The code unit [n] of a [\u] escape is added to the text read so far,
    which is kept in reverse.  A low surrogate ([DC00] to [DFFF]) that
    follows a high surrogate ([D800] to [DBFF], the bytes [ED], [A0] to
    [AF] and one more: in the UTF-8 form of a text they can only come from
    an escape) makes one character with it; every other code unit is a
    character of its own. *)
Definition push_unit (n : N) (acc : list ascii) : list ascii :=
  match acc with
  | b3 :: b2 :: b1 :: acc' =>
      if ((56320 <=? n) && (n <=? 57343) && (code b1 =? 237)
          && (160 <=? code b2) && (code b2 <=? 175))%N
      then
        let high := (53248 + (code b2 - 128) * 64 + (code b3 - 128))%N in
        rev (utf8 (65536 + (high - 55296) * 1024 + (n - 56320))%N) ++ acc'
      else rev (utf8 n) ++ acc
  | _ => rev (utf8 n) ++ acc
  end.

Fixpoint span_digits (s : list ascii) : list N * list ascii :=
  match s with
  | c :: s' =>
      if is_digit c then
        let '(ds, rest) := span_digits s' in ((code c - 48)%N :: ds, rest)
      else ([], s)
  | [] => ([], [])
  end.

Definition digits_Z (ds : list N) : Z :=
  foldl (fun acc d => (acc * 10 + Z.of_N d)%Z) 0%Z ds.

(** The binary64 value nearest to [m * 10 ^ e10] for [0 <= m], ties to
    even, with the sign [neg]: the quotient is taken with at least 64
    significant bits and a sticky bit before it is rounded. *)
Definition dec_to_float (neg : bool) (m e10 : Z) : float :=
  let x :=
    if (m =? 0)%Z then 0%float
    else if (0 <=? e10)%Z then Js.of_Z false (m * 10 ^ e10)
    else
      let d := (10 ^ (- e10))%Z in
      let s := Z.max 0 (Z.log2 d - Z.log2 m + 66) in
      let q := (Z.shiftl m s / d)%Z in
      let r := (Z.shiftl m s mod d)%Z in
      SF2Prim (binary_normalize prec emax
                 (2 * q + (if (r =? 0)%Z then 0 else 1)) (- s - 1) false) in
  if neg then (- x)%float else x.

(** The grammar of a number: an optional minus sign, an integer part
    without a leading zero (or the single digit 0), an optional fraction (a
    point and at least one digit), an optional exponent ([e] or [E], an
    optional sign, at least one digit). *)
Definition number_of_literal (s : list ascii) : option float :=
  let '(neg, s) := match s with
                   | c :: s' => if Ascii.eqb c "-" then (true, s') else (false, s)
                   | [] => (false, s)
                   end in
  let '(ip, s) := span_digits s in
  match ip with
  | [] => None
  | d :: ds =>
      if (d =? 0)%N && negb (Nat.eqb (length ds) 0) then None
      else
        let '(fp, s, okf) :=
          match s with
          | c :: s' =>
              if Ascii.eqb c "." then
                let '(f, s'') := span_digits s' in (f, s'', negb (Nat.eqb (length f) 0))
              else ([], s, true)
          | [] => ([], s, true)
          end in
        let '(ex, s, oke) :=
          match s with
          | c :: s' =>
              if Ascii.eqb c "e" || Ascii.eqb c "E" then
                let '(sg, s'') :=
                  match s' with
                  | c' :: t => if Ascii.eqb c' "-" then (true, t)
                               else if Ascii.eqb c' "+" then (false, t) else (false, s')
                  | [] => (false, s')
                  end in
                let '(xs, s''') := span_digits s'' in
                ((if sg then - digits_Z xs else digits_Z xs)%Z, s''',
                 negb (Nat.eqb (length xs) 0))
              else (0%Z, s, true)
          | [] => (0%Z, s, true)
          end in
        if okf && oke && Nat.eqb (length s) 0 then
          Some (dec_to_float neg (digits_Z (ip ++ fp)) (ex - Z.of_nat (length fp)))
        else None
  end.

(** The lexer reads one character at a time. *)
Inductive lex_state :=
| LStart
| LStr (acc : list ascii)
| LEsc (acc : list ascii)
| LHex (acc : list ascii) (hex : list N)
| LNum (acc : list ascii)
| LWord (acc : list ascii).

Definition start_char (c : ascii) : option (lex_state * list token) :=
  if is_ws c then Some (LStart, [])
  else if Ascii.eqb c "{" then Some (LStart, [TLBrace])
  else if Ascii.eqb c "}" then Some (LStart, [TRBrace])
  else if Ascii.eqb c "[" then Some (LStart, [TLBracket])
  else if Ascii.eqb c "]" then Some (LStart, [TRBracket])
  else if Ascii.eqb c ":" then Some (LStart, [TColon])
  else if Ascii.eqb c "," then Some (LStart, [TComma])
  else if is_quote c then Some (LStr [], [])
  else if Ascii.eqb c "-" || is_digit c then Some (LNum [c], [])
  else if is_lower c then Some (LWord [c], [])
  else None.

Definition flush_num (acc : list ascii) : option token :=
  option_map TNumber (number_of_literal (rev acc)).

Definition flush_word (acc : list ascii) : option token :=
  let w := string_of_list_ascii (rev acc) in
  if String.eqb w "true" then Some TTrue
  else if String.eqb w "false" then Some TFalse
  else if String.eqb w "null" then Some TNull
  else None.

Definition after_token (t : option token) (c : ascii) : option (lex_state * list token) :=
  match t, start_char c with
  | Some tok, Some (st, toks) => Some (st, tok :: toks)
  | _, _ => None
  end.

Definition lex_step (st : lex_state) (c : ascii) : option (lex_state * list token) :=
  match st with
  | LStart => start_char c
  | LStr acc =>
      if is_quote c then Some (LStart, [TString (string_of_list_ascii (rev acc))])
      else if is_backslash c then Some (LEsc acc, [])
      else if (code c <? 32)%N then None
      else Some (LStr (c :: acc), [])
  | LEsc acc =>
      if is_quote c || is_backslash c || Ascii.eqb c "/" then Some (LStr (c :: acc), [])
      else if Ascii.eqb c "b" then Some (LStr (ascii_of_N 8 :: acc), [])
      else if Ascii.eqb c "f" then Some (LStr (ascii_of_N 12 :: acc), [])
      else if Ascii.eqb c "n" then Some (LStr (ascii_of_N 10 :: acc), [])
      else if Ascii.eqb c "r" then Some (LStr (ascii_of_N 13 :: acc), [])
      else if Ascii.eqb c "t" then Some (LStr (ascii_of_N 9 :: acc), [])
      else if Ascii.eqb c "u" then Some (LHex acc [], [])
      else None
  | LHex acc hex =>
      match hex_value c with
      | Some h =>
          let hex' := hex ++ [h] in
          if Nat.eqb (length hex') 4 then
            Some (LStr (push_unit (foldl (fun a d => (a * 16 + d)%N) 0%N hex') acc), [])
          else Some (LHex acc hex', [])
      | None => None
      end
  | LNum acc =>
      if is_num_char c then Some (LNum (c :: acc), [])
      else after_token (flush_num acc) c
  | LWord acc =>
      if is_lower c then Some (LWord (c :: acc), [])
      else after_token (flush_word acc) c
  end.

Fixpoint lex (st : lex_state) (s : list ascii) : option (list token) :=
  match s with
  | [] =>
      match st with
      | LStart => Some []
      | LNum acc => option_map (fun t => [t]) (flush_num acc)
      | LWord acc => option_map (fun t => [t]) (flush_word acc)
      | _ => None
      end
  | c :: s' =>
      match lex_step st c with
      | Some (st', toks) => option_map (app toks) (lex st' s')
      | None => None
      end
  end.

(** The parser reads one token at a time and keeps the containers that are
    still open on a stack. *)
Inductive frame :=
| FArr (items : list json)
| FObj (members : list (string * json)) (key : option string).

Inductive expect :=
| EValue | EValueOrEnd | EKeyOrEnd | EKey | EColon | ECommaOrEnd
| EDone (v : json).

Definition complete (v : json) (stack : list frame) : option (expect * list frame) :=
  match stack with
  | [] => Some (EDone v, [])
  | FArr items :: st => Some (ECommaOrEnd, FArr (v :: items) :: st)
  | FObj ms (Some k) :: st => Some (ECommaOrEnd, FObj (put ms k v) None :: st)
  | FObj _ None :: _ => None
  end.

Definition wants_value (e : expect) : bool :=
  match e with EValue | EValueOrEnd => true | _ => false end.

Definition parse_step (e : expect) (stack : list frame) (t : token)
  : option (expect * list frame) :=
  match t with
  | TString s =>
      match e, stack with
      | (EValue | EValueOrEnd), _ => complete (JString s) stack
      | (EKeyOrEnd | EKey), FObj ms None :: st => Some (EColon, FObj ms (Some s) :: st)
      | _, _ => None
      end
  | TNumber x => if wants_value e then complete (JNumber x) stack else None
  | TTrue => if wants_value e then complete (JBool true) stack else None
  | TFalse => if wants_value e then complete (JBool false) stack else None
  | TNull => if wants_value e then complete JNull stack else None
  | TLBracket => if wants_value e then Some (EValueOrEnd, FArr [] :: stack) else None
  | TLBrace => if wants_value e then Some (EKeyOrEnd, FObj [] None :: stack) else None
  | TRBracket =>
      match e, stack with
      | (EValueOrEnd | ECommaOrEnd), FArr items :: st => complete (JArray (rev items)) st
      | _, _ => None
      end
  | TRBrace =>
      match e, stack with
      | (EKeyOrEnd | ECommaOrEnd), FObj ms None :: st => complete (JObject ms) st
      | _, _ => None
      end
  | TColon =>
      match e with
      | EColon => Some (EValue, stack)
      | _ => None
      end
  | TComma =>
      match e, stack with
      | ECommaOrEnd, FArr _ :: _ => Some (EValue, stack)
      | ECommaOrEnd, FObj _ _ :: _ => Some (EKey, stack)
      | _, _ => None
      end
  end.

Fixpoint run (e : expect) (stack : list frame) (ts : list token) : option json :=
  match ts with
  | [] => match e, stack with
          | EDone v, [] => Some v
          | _, _ => None
          end
  | t :: ts' =>
      match parse_step e stack t with
      | Some (e', stack') => run e' stack' ts'
      | None => None
      end
  end.

End Json.

(** [JSON.parse(text)]: the value, or a [SyntaxError]. *)
Definition JSON_parse (text : string) : completion json :=
  match Json.lex Json.LStart (list_ascii_of_string text) with
  | Some ts =>
      match Json.run Json.EValue [] ts with
      | Some v => Returned v
      | None => Thrown "SyntaxError"
      end
  | None => Thrown "SyntaxError"
  end.

Fixpoint get_field (o : list (string * json)) (k : string) : option json :=
  match o with
  | [] => None
  | (k', v) :: o' => if String.eqb k' k then Some v else get_field o' k
  end.

(** ** JavaScript values *)

(** The values that the engine handles are those that [JSON.parse] gives,
    and [undefined] ([None]): what reading a property gives when an object
    does not have it. *)
Definition value := option json.

Module Value.

Definition undefined : value := None.
Definition null : value := Some JNull.
Definition number (x : float) : value := Some (JNumber x).
Definition text (s : string) : value := Some (JString s).
Definition boolean (b : bool) : value := Some (JBool b).

(** [ToBoolean] *)
Definition truthy (v : value) : bool :=
  match v with
  | None | Some JNull => false
  | Some (JBool b) => b
  | Some (JNumber x) => Js.truthy x
  | Some (JString s) => negb (String.eqb s EmptyString)
  | Some (JArray _) | Some (JObject _) => true
  end.

(** [v === null] *)
Definition is_null (v : value) : bool :=
  match v with
  | Some JNull => true
  | _ => false
  end.

(** [a === b], for values that do not come from the same reply: two arrays
    or objects are then different objects, and [===] compares objects by
    identity. *)
Definition strict_eq (a b : value) : bool :=
  match a, b with
  | None, None => true
  | Some JNull, Some JNull => true
  | Some (JBool x), Some (JBool y) => Bool.eqb x y
  | Some (JNumber x), Some (JNumber y) => PrimFloat.eqb x y
  | Some (JString x), Some (JString y) => String.eqb x y
  | _, _ => false
  end.

(** The white space that [StringToNumber] and [parseInt] skip, in the bytes
    of a text: the ASCII white space and line terminators, U+00A0, U+1680,
    U+2000 to U+200A, U+2028, U+2029, U+202F, U+205F, U+3000 and U+FEFF. *)
Definition is_ws1 (a : N) : bool :=
  ((9 <=? a) && (a <=? 13) || (a =? 32))%N.

Definition is_ws2 (a b : N) : bool := ((a =? 194) && (b =? 160))%N.

Definition is_ws3 (a b c : N) : bool :=
  ((a =? 225) && (b =? 154) && (c =? 128)
   || (a =? 226) && (b =? 128)
      && ((128 <=? c) && (c <=? 138) || (c =? 168) || (c =? 169) || (c =? 175))
   || (a =? 226) && (b =? 129) && (c =? 159)
   || (a =? 227) && (b =? 128) && (c =? 128)
   || (a =? 239) && (b =? 187) && (c =? 191))%N.

Fixpoint trim_start (s : string) : string :=
  match s with
  | String a s1 =>
      if is_ws1 (N_of_ascii a) then trim_start s1
      else
        match s1 with
        | String b s2 =>
            if is_ws2 (N_of_ascii a) (N_of_ascii b) then trim_start s2
            else
              match s2 with
              | String c s3 =>
                  if is_ws3 (N_of_ascii a) (N_of_ascii b) (N_of_ascii c)
                  then trim_start s3 else s
              | EmptyString => s
              end
        | EmptyString => s
        end
  | EmptyString => s
  end.

(** The same from the end, on the reversed bytes. *)
Fixpoint trim_reversed (s : list ascii) : list ascii :=
  match s with
  | c :: s1 =>
      if is_ws1 (N_of_ascii c) then trim_reversed s1
      else
        match s1 with
        | b :: s2 =>
            if is_ws2 (N_of_ascii b) (N_of_ascii c) then trim_reversed s2
            else
              match s2 with
              | a :: s3 =>
                  if is_ws3 (N_of_ascii a) (N_of_ascii b) (N_of_ascii c)
                  then trim_reversed s3 else s
              | [] => s
              end
        | [] => s
        end
  | [] => s
  end.

(** [s.trim()] as a list of bytes. *)
Definition trim (s : string) : list ascii :=
  rev (trim_reversed (rev (list_ascii_of_string (trim_start s)))).

(** The value of a digit in the given radix. *)
Definition digit_in (radix : N) (c : ascii) : option N :=
  let n := N_of_ascii c in
  let v := if ((48 <=? n) && (n <=? 57))%N then Some (n - 48)%N
           else if ((97 <=? n) && (n <=? 122))%N then Some (n - 87)%N
           else if ((65 <=? n) && (n <=? 90))%N then Some (n - 55)%N
           else None in
  match v with
  | Some d => if (d <? radix)%N then Some d else None
  | None => None
  end.

(** The integer that a text of digits denotes; [None] if a character is
    not a digit of the radix. *)
Fixpoint all_digits (radix : N) (acc : Z) (s : list ascii) : option Z :=
  match s with
  | [] => Some acc
  | c :: s' =>
      match digit_in radix c with
      | Some d => all_digits radix (acc * Z.of_N radix + Z.of_N d)%Z s'
      | None => None
      end
  end.

(** A literal with a prefix ([0x], [0o], [0b]): at least one digit. *)
Definition prefixed (radix : N) (s : list ascii) : float :=
  match s with
  | [] => PrimFloat.nan
  | _ => match all_digits radix 0 s with
         | Some n => Js.of_Z false n
         | None => PrimFloat.nan
         end
  end.

(** [StrUnsignedDecimalLiteral] other than [Infinity]: digits with an
    optional point (a digit before or after it) and an optional
    exponent. *)
Definition unsigned_decimal (neg : bool) (s : list ascii) : float :=
  let '(ip, s) := Json.span_digits s in
  let '(fp, s) :=
    match s with
    | c :: s' => if Ascii.eqb c "." then Json.span_digits s' else ([], s)
    | [] => ([], s)
    end in
  if Nat.eqb (length ip + length fp) 0 then PrimFloat.nan
  else
    let '(ex, s, ok) :=
      match s with
      | c :: s' =>
          if Ascii.eqb c "e" || Ascii.eqb c "E" then
            let '(sg, s'') :=
              match s' with
              | c' :: t => if Ascii.eqb c' "-" then (true, t)
                           else if Ascii.eqb c' "+" then (false, t) else (false, s')
              | [] => (false, s')
              end in
            let '(xs, s''') := Json.span_digits s'' in
            ((if sg then - Json.digits_Z xs else Json.digits_Z xs)%Z, s''',
             negb (Nat.eqb (length xs) 0))
          else (0%Z, s, true)
      | [] => (0%Z, s, true)
      end in
    if ok && Nat.eqb (length s) 0 then
      Json.dec_to_float neg (Json.digits_Z (ip ++ fp)) (ex - Z.of_nat (length fp))
    else PrimFloat.nan.

Definition Infinity_text : list ascii := list_ascii_of_string "Infinity".

Definition same_text (a b : list ascii) : bool :=
  String.eqb (string_of_list_ascii a) (string_of_list_ascii b).

(** [StringToNumber]: the text without the white space around it is empty
    (the number is [+0]), a literal with a prefix and without a sign, or a
    decimal literal with an optional sign; everything else is [NaN]. *)
Definition string_to_number (s : string) : float :=
  match trim s with
  | [] => 0%float
  | [c] => unsigned_decimal false [c]
  | c1 :: c2 :: rest =>
      if Ascii.eqb c1 "0" && (Ascii.eqb c2 "x" || Ascii.eqb c2 "X") then prefixed 16 rest
      else if Ascii.eqb c1 "0" && (Ascii.eqb c2 "o" || Ascii.eqb c2 "O") then prefixed 8 rest
      else if Ascii.eqb c1 "0" && (Ascii.eqb c2 "b" || Ascii.eqb c2 "B") then prefixed 2 rest
      else
        let '(neg, u) :=
          if Ascii.eqb c1 "-" then (true, c2 :: rest)
          else if Ascii.eqb c1 "+" then (false, c2 :: rest)
          else (false, c1 :: c2 :: rest) in
        if same_text u Infinity_text
        then (if neg then PrimFloat.neg_infinity else PrimFloat.infinity)
        else unsigned_decimal neg u
  end.

(** [Number::toString] for a positive finite number [x = m * 2 ^ e]: the
    decimal digits [s] (there are [k] of them, as few as possible) and the
    exponent [n] for which [s * 10 ^ (n - k)] is a number that rounds to
    [x], the nearest to [x] if there are several. *)
Definition rounds_to (x : float) (s e10 : Z) : bool :=
  PrimFloat.eqb (Json.dec_to_float false s e10) x.

(** [num / den < 10 ^ n] *)
Definition below_pow10 (num den n : Z) : bool :=
  if (0 <=? n)%Z then (num <? 10 ^ n * den)%Z else (num * 10 ^ (- n) <? den)%Z.

Fixpoint first_pow10 (fuel : nat) (num den n : Z) : Z :=
  match fuel with
  | 0 => n
  | S fuel' => if below_pow10 num den n then n else first_pow10 fuel' num den (n + 1)%Z
  end.

(** The exponent [n] with [10 ^ (n - 1) <= num / den < 10 ^ n]. *)
Definition decimal_exponent (num den : Z) : Z :=
  first_pow10 8 num den (((Z.log2 num - Z.log2 den - 1) * 30103) / 100000 - 1)%Z.

(** The candidates with [k] digits: the two integers around
    [num / den * 10 ^ (k - n)]. *)
Definition with_digits (x : float) (num den n : Z) (k : Z) : option (Z * Z) :=
  let num' := if (0 <=? k - n)%Z then (num * 10 ^ (k - n))%Z else num in
  let den' := if (0 <=? k - n)%Z then den else (den * 10 ^ (n - k))%Z in
  let lo := (num' / den')%Z in
  let c1 := (lo, n) in
  let c2 := if (lo + 1 <? 10 ^ k)%Z then ((lo + 1)%Z, n) else ((10 ^ (k - 1))%Z, (n + 1)%Z) in
  let ok1 := rounds_to x c1.1 (c1.2 - k) in
  let ok2 := rounds_to x c2.1 (c2.2 - k) in
  if ok1 && ok2 then
    match (2 * num' ?= (2 * lo + 1) * den')%Z with
    | Lt => Some c1
    | Gt => Some c2
    | Eq => if Z.even lo then Some c1 else Some c2
    end
  else if ok1 then Some c1
  else if ok2 then Some c2
  else None.

Fixpoint shortest (fuel : nat) (x : float) (num den n : Z) (k : Z) : Z * Z * Z :=
  match fuel with
  | 0 => ((num * 10 ^ (k - n) / den)%Z, n, k)
  | S fuel' =>
      match with_digits x num den n k with
      | Some (s, n') => (s, n', k)
      | None => shortest fuel' x num den n (k + 1)%Z
      end
  end.

Fixpoint zeros (n : nat) : string :=
  match n with
  | 0 => EmptyString
  | S n' => String "0" (zeros n')
  end.

Definition positive_to_string (x : float) (m : positive) (e : Z) : string :=
  let num := if (0 <=? e)%Z then (Z.pos m * 2 ^ e)%Z else Z.pos m in
  let den := if (0 <=? e)%Z then 1%Z else (2 ^ (- e))%Z in
  let '(s, n, k) := shortest 17 x num den (decimal_exponent num den) 1 in
  let ds := pretty (Z.to_N s) in
  let kn := Z.to_nat k in
  if ((k <=? n) && (n <=? 21))%Z then (ds ++ zeros (Z.to_nat (n - k)))%string
  else if ((0 <? n) && (n <=? 21))%Z then
    (String.substring 0 (Z.to_nat n) ds ++ "."
     ++ String.substring (Z.to_nat n) (kn - Z.to_nat n) ds)%string
  else if ((-6 <? n) && (n <=? 0))%Z then
    ("0." ++ zeros (Z.to_nat (- n)) ++ ds)%string
  else
    let ex := ((if (n - 1 <? 0)%Z then "-" else "+")
               ++ pretty (Z.to_N (Z.abs (n - 1))))%string in
    if (k =? 1)%Z then (ds ++ "e" ++ ex)%string
    else (String.substring 0 1 ds ++ "." ++ String.substring 1 (kn - 1) ds
          ++ "e" ++ ex)%string.

(** [Number::toString(x)] in radix 10 *)
Definition number_to_string (x : float) : string :=
  match Prim2SF x with
  | S754_nan => "NaN"
  | S754_zero _ => "0"
  | S754_infinity s => if s then "-Infinity" else "Infinity"
  | S754_finite s m e =>
      if s then ("-" ++ positive_to_string (- x)%float m e)%string
      else positive_to_string x m e
  end.

Fixpoint join_with (sep : string) (l : list string) : string :=
  match l with
  | [] => EmptyString
  | [x] => x
  | x :: rest => (x ++ sep ++ join_with sep rest)%string
  end.

Fixpoint sequence {A} (l : list (option A)) : option (list A) :=
  match l with
  | [] => Some []
  | Some x :: l' => option_map (cons x) (sequence l')
  | None :: _ => None
  end.

(** [ToString] of a value that [JSON.parse] gave; [None] is a [TypeError].
    An array is converted by [Array.prototype.join] ([null] gives the empty
    text).  An object is converted by [Object.prototype.toString], unless it
    has a property named [toString] of its own: that one is not a function,
    so neither [toString] nor [valueOf] gives a primitive. *)
Fixpoint json_to_string (v : json) : option string :=
  match v with
  | JNull => Some "null"
  | JBool b => Some (if b then "true" else "false")
  | JNumber x => Some (number_to_string x)
  | JString s => Some s
  | JArray items =>
      option_map (join_with ",")
        (sequence (map (fun x => match x with
                                 | JNull => Some EmptyString
                                 | _ => json_to_string x
                                 end) items))
  | JObject ms =>
      match get_field ms "toString" with
      | Some _ => None
      | None => Some "[object Object]"
      end
  end.

(** [ToString] *)
Definition to_string (v : value) : option string :=
  match v with
  | None => Some "undefined"
  | Some j => json_to_string j
  end.

(** [ToNumber]; [None] is a [TypeError].  An array or object is first
    converted to a primitive, which is its text. *)
Definition to_number (v : value) : option float :=
  match v with
  | None => Some PrimFloat.nan
  | Some JNull => Some 0%float
  | Some (JBool b) => Some (if b then 1%float else 0%float)
  | Some (JNumber x) => Some x
  | Some (JString s) => Some (string_to_number s)
  | Some j => option_map string_to_number (json_to_string j)
  end.

Definition is_object (v : value) : bool :=
  match v with
  | Some (JArray _) | Some (JObject _) => true
  | _ => false
  end.

Definition is_nullish (v : value) : bool :=
  match v with
  | None | Some JNull => true
  | _ => false
  end.

(** [ToPrimitive] of a value that is neither [null] nor [undefined]. *)
Definition to_primitive (v : value) : option value :=
  if is_object v then option_map text (to_string v) else Some v.

(** [a == b], for values that do not come from the same reply; [None] is a
    [TypeError].  [null] and [undefined] equal each other and nothing else;
    two objects are different objects; otherwise an object is converted to
    a primitive, two texts are compared as texts, and everything else is
    compared as numbers. *)
Definition loose_eq (a b : value) : option bool :=
  if is_nullish a || is_nullish b then Some (is_nullish a && is_nullish b)
  else if is_object a && is_object b then Some false
  else
    match to_primitive a, to_primitive b with
    | Some (Some (JString x)), Some (Some (JString y)) => Some (String.eqb x y)
    | Some x, Some y =>
        match to_number x, to_number y with
        | Some p, Some q => Some (PrimFloat.eqb p q)
        | _, _ => None
        end
    | _, _ => None
    end.

End Value.

Local Close Scope string_scope.
Local Open Scope string_scope.

(** ** Data model of [runMatch] *)

Inductive role_t := Seller | Buyer.

Definition role_eqb (a b : role_t) : bool :=
  match a, b with
  | Seller, Seller | Buyer, Buyer => true
  | _, _ => false
  end.

Definition role_name (r : role_t) : string :=
  match r with Seller => "seller" | Buyer => "buyer" end.

(** [lastOfferBy !== activeAgent.role], where [lastOfferBy] starts as [null]. *)
Definition role_strict_neq (by_ : option role_t) (r : role_t) : bool :=
  match by_ with
  | Some r' => negb (role_eqb r' r)
  | None => true
  end.

(** The object that [generateResponse] returns, [{ ...data, usage }]: the
    properties that [data] has of its own, in the order of their creation,
    with the values that [JSON.parse] gave them, and the usage metadata of
    the provider.  [usage] is [Some n] for a usage object whose normalised
    output count ([output_tokens || completion_tokens ||
    candidatesTokenCount || 0]) is [n], [None] for a usage that is falsy. *)
Record reply := {
  fields : list (string * json);
  usage : option nat
}.

(** [response.message], [response.offer], [response.deal]: [undefined] when
    the reply has no such property. *)
Definition message (r : reply) : value := get_field (fields r) "message".
Definition offer (r : reply) : value := get_field (fields r) "offer".
Definition deal (r : reply) : value := get_field (fields r) "deal".

(** [response.deal = false] *)
Definition lower (r : reply) : reply :=
  {| fields := Json.put (fields r) "deal" (JBool false); usage := usage r |}.

(** [{ ...response, usage: undefined }] *)
Definition without_usage (r : reply) : reply :=
  {| fields := fields r; usage := None |}.

Record agent := {
  name : string;
  modelId : string;
  role : role_t;
  totalTokens : nat
}.

Definition new_Agent (n m : string) (r : role_t) : agent :=
  {| name := n; modelId := m; role := r; totalTokens := 0 |}.

Definition trackTokens (u : option nat) (a : agent) : agent :=
  match u with
  | None => a
  | Some out =>
      {| name := name a; modelId := modelId a; role := role a;
         totalTokens := totalTokens a + out |}
  end.

Record log_entry := {
  log_turn : nat;
  log_sender : string;
  log_role : role_t;
  log_content : reply
}.

(** The lines handed to [logger].  The text of a line is determined by the
    constructor and its arguments. *)
Inductive line :=
| StartingMatch (runId : string)
| Matchup (buyerName sellerName : string)
| ItemLine (item : string) (trueValue : float)
| EstimatesLine (sellerEst buyerEst : float)
| TurnLine (speaker : string) (msg : value) (shown : value)
| RejectedMismatch (claimed : value) (pending : value)
| RejectedNoValidOffer
| EndedTwoNulls
| DealReachedLine (price : value)
| NoDealLine
| StartingTournament (tournamentId : string) (rounds : Z) (keys : list string)
| RoundLine (r : nat)
| TournamentComplete.

Record side := {
  s_name : string;
  s_model : string;
  s_estimate : float;
  s_score : float;
  s_thinkingTokens : nat
}.

Record match_result := {
  r_id : string;
  r_tournament : option string;
  r_date : string;
  r_item : string;
  r_trueValue : float;
  r_seller : side;
  r_buyer : side;
  r_dealReached : bool;
  r_dealPrice : value;
  r_turns : nat;
  r_logs : list log_entry
}.

Record manifest_side := {
  ms_name : string;
  ms_model : string;
  ms_estimate : float;
  ms_score : float
}.

Record manifest_entry := {
  me_id : string;
  me_tournament : option string;
  me_date : string;
  me_item : string;
  me_trueValue : float;
  me_dealReached : bool;
  me_dealPrice : value;
  me_seller : manifest_side;
  me_buyer : manifest_side
}.

(** What [await activeAgent.generateResponse(...)] does: it resolves with a
    reply or rejects with an error (an API failure). *)
Inductive gen_outcome :=
| Replied (r : reply)
| Failed (err : string).

(** Everything outside the program.  [generate k] is the outcome of the
    [k]-th call of [generateResponse] (counted from 0 over the whole run),
    [random k] of the [k]-th call of [Math.random], [date_now k] and
    [date_iso k] are [Date.now().toString()] and [new Date().toISOString()]
    at the [k]-th reading of the clock.  [abort_at = Some t] says that
    [signal.aborted] is true from the moment [t] calls of [generateResponse]
    have been issued ([t = 0]: from the start); [None] that the signal is
    missing or never set.  The program is suspended only while it awaits
    [generateResponse], so the flag changes only then, and it never goes
    back to false. *)
Record env := {
  generate : nat -> gen_outcome;
  abort_at : option nat;
  random : nat -> float;
  date_now : nat -> string;
  date_iso : nat -> string
}.

(** The state outside [runMatch]'s locals: how many calls of
    [generateResponse], [Math.random] and the clock were made, the lines
    given to [logger] (each with the number of [generateResponse] calls
    issued when it was written), what [console.error] received, and the
    directory [public/logs]: the [run_<id>.json] files by run id and
    [manifest.json] ([None] while it does not exist). *)
Record world := {
  calls : nat;
  rng : nat;
  clock : nat;
  sink : list (nat * line);
  console : list string;
  files : gmap string match_result;
  manifest : option (list manifest_entry)
}.

Definition logger (ln : line) (w : world) : world :=
  {| calls := calls w; rng := rng w; clock := clock w;
     sink := sink w ++ [(calls w, ln)]; console := console w;
     files := files w; manifest := manifest w |}.

Definition console_error (e : string) (w : world) : world :=
  {| calls := calls w; rng := rng w; clock := clock w;
     sink := sink w; console := console w ++ [e];
     files := files w; manifest := manifest w |}.

Definition tick_calls (w : world) : world :=
  {| calls := S (calls w); rng := rng w; clock := clock w;
     sink := sink w; console := console w;
     files := files w; manifest := manifest w |}.

Definition tick_rng (w : world) : world :=
  {| calls := calls w; rng := S (rng w); clock := clock w;
     sink := sink w; console := console w;
     files := files w; manifest := manifest w |}.

Definition tick_clock (w : world) : world :=
  {| calls := calls w; rng := rng w; clock := S (clock w);
     sink := sink w; console := console w;
     files := files w; manifest := manifest w |}.

(** [fs.writeFileSync] of [run_<id>.json], then the read-modify-write of
    [manifest.json] with [unshift]. *)
Definition save (res : match_result) (ent : manifest_entry) (w : world) : world :=
  {| calls := calls w; rng := rng w; clock := clock w;
     sink := sink w; console := console w;
     files := <[r_id res := res]> (files w);
     manifest := Some (ent :: default [] (manifest w)) |}.

(** The locals of [runMatch] that the loop reads and writes.  [activeAgent]
    and [passiveAgent] are references to the two agent objects [seller] and
    [buyer]; a reference is the tag of the object it points to. *)
Record locals := {
  seller : agent;
  buyer : agent;
  turns : nat;
  dealReached : bool;
  dealPrice : value;
  logs : list log_entry;
  lastMessage : value;
  lastOffer : value;
  lastOfferBy : option role_t;
  consecutiveNulls : nat;
  activeAgent : role_t;
  passiveAgent : role_t
}.

Definition deref (l : locals) (ref : role_t) : agent :=
  match ref with Seller => seller l | Buyer => buyer l end.

Definition set_agent (ref : role_t) (a : agent) (l : locals) : locals :=
  {| seller := match ref with Seller => a | Buyer => seller l end;
     buyer := match ref with Seller => buyer l | Buyer => a end;
     turns := turns l; dealReached := dealReached l; dealPrice := dealPrice l;
     logs := logs l; lastMessage := lastMessage l; lastOffer := lastOffer l;
     lastOfferBy := lastOfferBy l; consecutiveNulls := consecutiveNulls l;
     activeAgent := activeAgent l; passiveAgent := passiveAgent l |}.

Definition set_turns (n : nat) (l : locals) : locals :=
  {| seller := seller l; buyer := buyer l;
     turns := n; dealReached := dealReached l; dealPrice := dealPrice l;
     logs := logs l; lastMessage := lastMessage l; lastOffer := lastOffer l;
     lastOfferBy := lastOfferBy l; consecutiveNulls := consecutiveNulls l;
     activeAgent := activeAgent l; passiveAgent := passiveAgent l |}.

Definition set_dealReached (b : bool) (l : locals) : locals :=
  {| seller := seller l; buyer := buyer l;
     turns := turns l; dealReached := b; dealPrice := dealPrice l;
     logs := logs l; lastMessage := lastMessage l; lastOffer := lastOffer l;
     lastOfferBy := lastOfferBy l; consecutiveNulls := consecutiveNulls l;
     activeAgent := activeAgent l; passiveAgent := passiveAgent l |}.

Definition set_dealPrice (p : value) (l : locals) : locals :=
  {| seller := seller l; buyer := buyer l;
     turns := turns l; dealReached := dealReached l; dealPrice := p;
     logs := logs l; lastMessage := lastMessage l; lastOffer := lastOffer l;
     lastOfferBy := lastOfferBy l; consecutiveNulls := consecutiveNulls l;
     activeAgent := activeAgent l; passiveAgent := passiveAgent l |}.

Definition push_log (e : log_entry) (l : locals) : locals :=
  {| seller := seller l; buyer := buyer l;
     turns := turns l; dealReached := dealReached l; dealPrice := dealPrice l;
     logs := logs l ++ [e]; lastMessage := lastMessage l; lastOffer := lastOffer l;
     lastOfferBy := lastOfferBy l; consecutiveNulls := consecutiveNulls l;
     activeAgent := activeAgent l; passiveAgent := passiveAgent l |}.

Definition set_lastMessage (m : value) (l : locals) : locals :=
  {| seller := seller l; buyer := buyer l;
     turns := turns l; dealReached := dealReached l; dealPrice := dealPrice l;
     logs := logs l; lastMessage := m; lastOffer := lastOffer l;
     lastOfferBy := lastOfferBy l; consecutiveNulls := consecutiveNulls l;
     activeAgent := activeAgent l; passiveAgent := passiveAgent l |}.

(** [lastOffer = o; lastOfferBy = r; consecutiveNulls = 0;] *)
Definition record_offer (o : value) (r : role_t) (l : locals) : locals :=
  {| seller := seller l; buyer := buyer l;
     turns := turns l; dealReached := dealReached l; dealPrice := dealPrice l;
     logs := logs l; lastMessage := lastMessage l; lastOffer := o;
     lastOfferBy := Some r; consecutiveNulls := 0;
     activeAgent := activeAgent l; passiveAgent := passiveAgent l |}.

Definition set_consecutiveNulls (n : nat) (l : locals) : locals :=
  {| seller := seller l; buyer := buyer l;
     turns := turns l; dealReached := dealReached l; dealPrice := dealPrice l;
     logs := logs l; lastMessage := lastMessage l; lastOffer := lastOffer l;
     lastOfferBy := lastOfferBy l; consecutiveNulls := n;
     activeAgent := activeAgent l; passiveAgent := passiveAgent l |}.

(** [[activeAgent, passiveAgent] = [passiveAgent, activeAgent]] *)
Definition swap_agents (l : locals) : locals :=
  {| seller := seller l; buyer := buyer l;
     turns := turns l; dealReached := dealReached l; dealPrice := dealPrice l;
     logs := logs l; lastMessage := lastMessage l; lastOffer := lastOffer l;
     lastOfferBy := lastOfferBy l; consecutiveNulls := consecutiveNulls l;
     activeAgent := passiveAgent l; passiveAgent := activeAgent l |}.

(** How one pass through the body of the [while] loop ends. *)
Inductive flow :=
| Next (l : locals) (w : world)
| Break (l : locals) (w : world)
| Throw (err : string) (w : world).

(** How the [while] loop ends; [OutOfFuel] is the model's, not the code's. *)
Inductive loop_end :=
| Exited (l : locals) (w : world)
| Raised (err : string) (w : world)
| OutOfFuel.

Definition Benchmark_Aborted : string := "Benchmark Aborted".

Record scenario_t := {
  sc_item : string;
  sc_value : float;
  sc_variance : float
}.

(** The variances 0.1, 0.15, 0.4 and 0.2 are written as the binary64 numbers
    that these decimal literals denote ([scenario_variances] below). *)
Definition SCENARIOS : list scenario_t :=
  [ {| sc_item := "Vintage Rolex Watch"; sc_value := 38000; sc_variance := 0x1.999999999999ap-4 |};
    {| sc_item := "Used 2020 Tesla Model 3"; sc_value := 25000; sc_variance := 0x1.3333333333333p-3 |};
    {| sc_item := "Premium Domain Name 'AI-Agent.com'"; sc_value := 50000; sc_variance := 0x1.999999999999ap-2 |};
    {| sc_item := "Enterprise SaaS Contract (Annual)"; sc_value := 120000; sc_variance := 0x1.999999999999ap-3 |};
    {| sc_item := "Rare Digital Art NFT"; sc_value := 15000; sc_variance := 0.5 |} ]%float.

Record conf := {
  conf_name : string;
  conf_modelId : string
}.

Definition maxTurns : nat := 12.

(** [turns < maxTurns && !dealReached] *)
Definition loop_test (l : locals) : bool :=
  (turns l <? maxTurns)%nat && negb (dealReached l).

Section Engine.

Variable E : env.

(** [options && options.signal && options.signal.aborted] *)
Definition aborted (w : world) : bool :=
  match abort_at E with
  | Some t => (t <=? calls w)%nat
  | None => false
  end.

(** [benchmark.js], lines 101-117.  [None]: the template literal of line
    108 raises a [TypeError], because one of the two offers has no text. *)
Definition check_deal (l : locals) (response : reply) (w : world)
  : option (locals * reply * world) :=
  if Value.truthy (deal response) then
    if negb (Value.is_null (lastOffer l))
       && role_strict_neq (lastOfferBy l) (role (deref l (activeAgent l)))
    then
      if Value.strict_eq (offer response) (lastOffer l) then
        Some (set_dealReached true (set_dealPrice (offer response) l), response, w)
      else
        match Value.to_string (offer response), Value.to_string (lastOffer l) with
        | Some _, Some _ =>
            Some (set_dealReached false l, lower response,
                  logger (RejectedMismatch (offer response) (lastOffer l)) w)
        | _, _ => None
        end
    else
      Some (set_dealReached false l, lower response, logger RejectedNoValidOffer w)
  else Some (l, response, w).

(** Lines 122-134; the boolean says whether [break] was executed. *)
Definition process_offer (l : locals) (response : reply) (w : world)
  : bool * locals * world :=
  if negb (dealReached l) then
    if negb (Value.is_null (offer response)) then
      (false, record_offer (offer response) (role (deref l (activeAgent l))) l, w)
    else
      let l := set_consecutiveNulls (S (consecutiveNulls l)) l in
      if (2 <=? consecutiveNulls l)%nat then (true, l, logger EndedTwoNulls w)
      else (false, l, w)
  else (false, l, w).

(** Lines 136-149. *)
Definition end_of_turn (l : locals) (response : reply) : locals :=
  let act := deref l (activeAgent l) in
  let l := push_log {| log_turn := turns l;
                       log_sender := name act ++ " (" ++ role_name (role act) ++ ")";
                       log_role := role act;
                       log_content := without_usage response |} l in
  let l := set_agent (activeAgent l) (trackTokens (usage response) act) l in
  let l := set_lastMessage (message response) l in
  swap_agents l.

(** [response.offer || 'None'] *)
Definition shown_offer (response : reply) : value :=
  if Value.truthy (offer response) then offer response else Value.text "None".

(** Lines 98-149: the rest of the loop body once [response] has arrived.
    The template literal of line 98 converts the message and the offer that
    it shows to texts, which raises a [TypeError] for a value without a
    text. *)
Definition on_reply (l : locals) (w : world) (response : reply) : flow :=
  match Value.to_string (message response), Value.to_string (shown_offer response) with
  | Some _, Some _ =>
      let w := logger (TurnLine (name (deref l (activeAgent l))) (message response)
                         (shown_offer response)) w in
      match check_deal l response w with
      | Some (l, response, w) =>
          let '(brk, l, w) := process_offer l response w in
          if brk then Break l w else Next (end_of_turn l response) w
      | None => Throw "TypeError" w
      end
  | _, _ => Throw "TypeError" w
  end.

(** The body of the [while] loop, lines 92-149.  A rejected
    [generateResponse] has been reported by the agent's own [console.error]
    before the error reaches [runMatch]. *)
Definition turn_body (l : locals) (w : world) : flow :=
  if aborted w then Throw Benchmark_Aborted w
  else
    let l := set_turns (S (turns l)) l in
    match generate E (calls w) with
    | Failed err => Throw err (console_error err (tick_calls w))
    | Replied response => on_reply l (tick_calls w) response
    end.

(** [while (turns < maxTurns && !dealReached) { ... }] *)
Fixpoint match_loop (fuel : nat) (l : locals) (w : world) : loop_end :=
  match fuel with
  | 0 => OutOfFuel
  | S fuel' =>
      if loop_test l then
        match turn_body l w with
        | Next l' w' => match_loop fuel' l' w'
        | Break l' w' => Exited l' w'
        | Throw err w' => Raised err w'
        end
      else Exited l w
  end.

(** The locals as lines 76-89 initialise them. *)
Definition initial_locals (s b : agent) : locals :=
  {| seller := s; buyer := b; turns := 0; dealReached := false;
     dealPrice := Value.null; logs := [];
     lastMessage :=
       Value.text "The negotiation has started. Please make your opening statement.";
     lastOffer := Value.null; lastOfferBy := None; consecutiveNulls := 0;
     activeAgent := Seller; passiveAgent := Buyer |}.

(** Lines 156-165.  [None]: the price has no text and no number, and the
    template literal of line 160 raises a [TypeError]. *)
Definition scores (l : locals) (sellerEst buyerEst : float) : option (float * float) :=
  if dealReached l && Value.truthy (dealPrice l) then
    match Value.to_string (dealPrice l), Value.to_number (dealPrice l) with
    | Some _, Some p => Some ((p - sellerEst) / sellerEst, (buyerEst - p) / buyerEst)%float
    | _, _ => None
    end
  else Some (0, 0)%float.

Definition outcome_line (l : locals) : line :=
  if dealReached l && Value.truthy (dealPrice l) then DealReachedLine (dealPrice l)
  else NoDealLine.

(** Lines 160-231, for the scores that lines 156-165 computed: the line of
    the outcome, the result object, the two writes, [return result]. *)
Definition finish (runId : string) (tournamentId : option string)
    (sc : scenario_t) (sellerEst buyerEst : float) (sb : float * float)
    (l : locals) (w : world)
  : match_result * world :=
  let '(sellerScore, buyerScore) := sb in
  let w := logger (outcome_line l) w in
  let date := date_iso E (clock w) in
  let w := tick_clock w in
  let result :=
    {| r_id := runId; r_tournament := tournamentId; r_date := date;
       r_item := sc_item sc; r_trueValue := sc_value sc;
       r_seller := {| s_name := name (seller l); s_model := modelId (seller l);
                      s_estimate := sellerEst; s_score := sellerScore;
                      s_thinkingTokens := totalTokens (seller l) |};
       r_buyer := {| s_name := name (buyer l); s_model := modelId (buyer l);
                     s_estimate := buyerEst; s_score := buyerScore;
                     s_thinkingTokens := totalTokens (buyer l) |};
       r_dealReached := dealReached l; r_dealPrice := dealPrice l;
       r_turns := turns l; r_logs := logs l |} in
  let entry :=
    {| me_id := runId; me_tournament := tournamentId; me_date := date;
       me_item := sc_item sc; me_trueValue := sc_value sc;
       me_dealReached := dealReached l; me_dealPrice := dealPrice l;
       me_seller := {| ms_name := name (seller l); ms_model := modelId (seller l);
                       ms_estimate := sellerEst; ms_score := sellerScore |};
       me_buyer := {| ms_name := name (buyer l); ms_model := modelId (buyer l);
                      ms_estimate := buyerEst; ms_score := buyerScore |} |} in
  (result, save result entry w).

(** [Math.round(trueValue * (1 + ((Math.random() * 2 - 1) * scenario.variance)))] *)
Definition estimate (sc : scenario_t) (u : float) : float :=
  Js.Math_round (sc_value sc * (1 + ((u * 2 - 1) * sc_variance sc)))%float.

(** [SCENARIOS[Math.floor(Math.random() * SCENARIOS.length)]] *)
Definition pick_scenario (u : float) : option scenario_t :=
  match Js.array_index (Js.Math_floor (u * 5)%float) with
  | Some i => SCENARIOS !! i
  | None => None
  end.

(** Lines 39-55: the scenario and the two private estimates.  No scenario
    ([SCENARIOS[...]] is [undefined]) makes line 44 raise a [TypeError]. *)
Definition setup (runId : string) (buyerConf sellerConf : conf) (w : world)
  : option (scenario_t * float * float) * world :=
  let w := logger (StartingMatch runId) w in
  let w := logger (Matchup (conf_name buyerConf) (conf_name sellerConf)) w in
  let u0 := random E (rng w) in
  let w := tick_rng w in
  match pick_scenario u0 with
  | None => (None, w)
  | Some sc =>
      let sellerEst := estimate sc (random E (rng w)) in
      let w := tick_rng w in
      let buyerEst := estimate sc (random E (rng w)) in
      let w := tick_rng w in
      let w := logger (ItemLine (sc_item sc) (sc_value sc)) w in
      let w := logger (EstimatesLine sellerEst buyerEst) w in
      (Some (sc, sellerEst, buyerEst), w)
  end.

Definition runMatch (runId : string) (buyerConf sellerConf : conf)
    (tournamentId : option string) (w : world)
  : completion match_result * world :=
  match setup runId buyerConf sellerConf w with
  | (None, w) => (Thrown "TypeError", w)
  | (Some (sc, sellerEst, buyerEst), w) =>
      let s := new_Agent (conf_name sellerConf) (conf_modelId sellerConf) Seller in
      let b := new_Agent (conf_name buyerConf) (conf_modelId buyerConf) Buyer in
      if aborted w then (Thrown Benchmark_Aborted, w)
      else
        match match_loop (S maxTurns) (initial_locals s b) w with
        | OutOfFuel => (Diverged, w)
        | Raised err w' => (Thrown err, w')
        | Exited l w' =>
            match scores l sellerEst buyerEst with
            | Some sb =>
                let '(result, w'') :=
                  finish runId tournamentId sc sellerEst buyerEst sb l w' in
                (Returned result, w'')
            | None => (Thrown "TypeError", w')
            end
        end
  end.

End Engine.

(** ** [runTournament] *)

Definition MODELS : list (string * string) :=
  [ ("OPUS_4_5", "claude-opus-4-5-20251101");
    ("HAIKU_4_5", "claude-haiku-4-5-20251001");
    ("SONNET_4_5", "claude-sonnet-4-5-20250929");
    ("GEMINI_FLASH_PREVIEW", "gemini-3-flash-preview");
    ("GEMINI_2_5_PRO", "gemini-2.5-pro");
    ("GEMINI_2_5_FLASH", "gemini-2.5-flash");
    ("GPT_5_2", "gpt-5.2");
    ("GPT_5_1", "gpt-5.1");
    ("GPT_5", "gpt-5");
    ("GPT_5_MINI", "gpt-5-mini") ].

Definition default_models : list string :=
  [ "OPUS 4.5"; "HAIKU 4.5"; "SONNET 4.5"; "GPT 5"; "GEMINI 2.5 PRO" ].

Definition adjectives : list string :=
  [ "Silent"; "Brave"; "Calm"; "Swift"; "Wise"; "Eager"; "Bold"; "Bright"; "Wild"; "Grand" ].

Definition nouns : list string :=
  [ "Badger"; "Eagle"; "Owl"; "Tiger"; "Wolf"; "Bear"; "Fox"; "Hawk"; "Lion"; "Falcon" ].

(** A JavaScript object with string values, as the list of its own
    properties in the order of their creation. *)
Definition js_object := list (string * string).

Fixpoint obj_get (o : js_object) (k : string) : option string :=
  match o with
  | [] => None
  | (k', v) :: o' => if String.eqb k' k then Some v else obj_get o' k
  end.

(** [o[k] = v] when [k] is not ["__proto__"]: an existing property keeps its
    place, a new one goes last. *)
Fixpoint obj_put (o : js_object) (k v : string) : js_object :=
  match o with
  | [] => [(k, v)]
  | (k', v') :: o' =>
      if String.eqb k' k then (k', v) :: o' else (k', v') :: obj_put o' k v
  end.

(** [o[k] = v]: assigning a string to [__proto__] creates no property. *)
Definition obj_set (o : js_object) (k v : string) : js_object :=
  if String.eqb k "__proto__" then o else obj_put o k v.

Definition digit_of (c : ascii) : option N :=
  let n := N_of_ascii c in
  if ((48 <=? n) && (n <=? 57))%N then Some (n - 48)%N else None.

Fixpoint digits_value (acc : N) (s : string) : option N :=
  match s with
  | EmptyString => Some acc
  | String c s' =>
      match digit_of c with
      | Some d => digits_value (acc * 10 + d)%N s'
      | None => None
      end
  end.

(** The array index that a property name denotes: a canonical decimal
    numeral (no sign, no leading zero) below [2^32 - 1]. *)
Definition array_index_key (s : string) : option N :=
  match s with
  | EmptyString => None
  | String c s' =>
      if Ascii.eqb c "0" && negb (String.eqb s' EmptyString) then None
      else match digits_value 0 s with
           | Some n => if (n <? 4294967295)%N then Some n else None
           | None => None
           end
  end.

Fixpoint insert_by_index (x : N * string) (l : list (N * string)) : list (N * string) :=
  match l with
  | [] => [x]
  | y :: l' => if (x.1 <=? y.1)%N then x :: l else y :: insert_by_index x l'
  end.

Definition sort_by_index (l : list (N * string)) : list (N * string) :=
  foldr insert_by_index [] l.

Definition index_keys (ks : list string) : list (N * string) :=
  omap (fun k => match array_index_key k with Some n => Some (n, k) | None => None end) ks.

(** [Object.keys(o)]: the array indices in ascending numeric order, then the
    other names in the order of their creation. *)
Definition Object_keys (o : js_object) : list string :=
  (sort_by_index (index_keys o.*1)).*2
  ++ filter (fun k => array_index_key k = None) o.*1.

(** [m.replace(' 4.5', '')]: the first occurrence is removed. *)
Definition strip_4_5 (m : string) : string :=
  match String.index 0 " 4.5" m with
  | Some i => String.substring 0 i m ++ String.substring (i + 4) (String.length m - (i + 4)) m
  | None => m
  end.

(** The loop of lines 253-259.  [MODELS[cleanKey]] is looked up among the
    table's own properties: for a clean key that names a property which
    [MODELS] inherits from [Object.prototype] ([constructor], [toString],
    [valueOf], ...) the code stores the inherited value, which is not a
    text and which the model does not represent; the statements about model
    ids exclude such names. *)
Definition resolve_models (selectedModels : list string) : js_object :=
  foldl (fun modelMap m =>
           match obj_get MODELS (strip_4_5 m) with
           | Some id => obj_set modelMap m id
           | None => obj_set modelMap m m
           end) [] selectedModels.

(** [options]: [rounds] is a number ([parseInt(...) || 1] in [server.js]),
    [models] and [tournamentName] may be missing. *)
Record options := {
  opt_rounds : Z;
  opt_models : option (list string);
  opt_tournamentName : option string
}.

Section Tournament.

Variable E : env.

(** One [try { await runMatch(...) } catch (e) { ... }] of lines 282-294 and
    300-312. *)
Definition try_runMatch (runId : string) (buyerConf sellerConf : conf)
    (tournamentId : string) (w : world) : completion unit * world :=
  match runMatch E runId buyerConf sellerConf (Some tournamentId) w with
  | (Returned _, w') => (Returned tt, w')
  | (Thrown e, w') =>
      if String.eqb e Benchmark_Aborted then (Thrown e, w')
      else (Returned tt, console_error e w')
  | (Diverged, w') => (Diverged, w')
  end.

Definition conf_of (modelMap : js_object) (m : string) : conf :=
  {| conf_name := m; conf_modelId := default EmptyString (obj_get modelMap m) |}.

(** The loop over [j] of lines 275-313, for [m1 = modelKeys[i]] and [rest]
    the keys after position [i]. *)
Fixpoint pair_loop (modelMap : js_object) (tournamentId : string)
    (m1 : string) (rest : list string) (w : world) : completion unit * world :=
  match rest with
  | [] => (Returned tt, w)
  | m2 :: rest' =>
      if aborted E w then (Returned tt, w)
      else
        let runId1 := date_now E (clock w) ++ "_1" in
        let w := tick_clock w in
        match try_runMatch runId1 (conf_of modelMap m2) (conf_of modelMap m1) tournamentId w with
        | (Returned _, w) =>
            if aborted E w then (Returned tt, w)
            else
              let runId2 := date_now E (clock w) ++ "_2" in
              let w := tick_clock w in
              match try_runMatch runId2 (conf_of modelMap m1) (conf_of modelMap m2) tournamentId w with
              | (Returned _, w) => pair_loop modelMap tournamentId m1 rest' w
              | other => other
              end
        | other => other
        end
  end.

(** The loop over [i] of lines 274-314, on the keys from position [i] on. *)
Fixpoint roster_loop (modelMap : js_object) (tournamentId : string)
    (keys : list string) (w : world) : completion unit * world :=
  match keys with
  | [] => (Returned tt, w)
  | m1 :: rest =>
      match pair_loop modelMap tournamentId m1 rest w with
      | (Returned _, w) => roster_loop modelMap tournamentId rest w
      | other => other
      end
  end.

(** The loop over [r] of lines 271-315, with [n] rounds left to run. *)
Fixpoint rounds_loop (modelMap : js_object) (tournamentId : string)
    (keys : list string) (n r : nat) (w : world) : completion unit * world :=
  match n with
  | 0 => (Returned tt, w)
  | S n' =>
      if aborted E w then (Returned tt, w)
      else
        let w := logger (RoundLine (r + 1)) w in
        match roster_loop modelMap tournamentId keys w with
        | (Returned _, w) => rounds_loop modelMap tournamentId keys n' (S r) w
        | other => other
        end
  end.

(** [xs[Math.floor(Math.random() * 10)]] inside a template literal. *)
Definition random_word (xs : list string) (u : float) : string :=
  match Js.array_index (Js.Math_floor (u * 10)%float) with
  | Some i => default "undefined" (xs !! i)
  | None => "undefined"
  end.

(** [Math.floor(Math.random() * 100)] inside a template literal. *)
Definition random_number (u : float) : string :=
  match Js.array_index (Js.Math_floor (u * 100)%float) with
  | Some n => pretty n
  | None => "NaN"
  end.

Definition effective_rounds (o : options) : Z :=
  if (opt_rounds o =? 0)%Z then 1%Z else opt_rounds o.

Definition modelMap_of (o : options) : js_object :=
  resolve_models (default default_models (opt_models o)).

Definition modelKeys_of (o : options) : list string :=
  Object_keys (modelMap_of o).

Definition runTournament (o : options) (w : world) : completion unit * world :=
  let rounds := effective_rounds o in
  let modelMap := modelMap_of o in
  let modelKeys := Object_keys modelMap in
  let randomName :=
    random_word adjectives (random E (rng w)) ++ " "
    ++ random_word nouns (random E (S (rng w))) ++ " "
    ++ random_number (random E (S (S (rng w)))) in
  let w := tick_rng (tick_rng (tick_rng w)) in
  let tournamentId :=
    match opt_tournamentName o with
    | Some n => if String.eqb n EmptyString then randomName else n
    | None => randomName
    end in
  let w := logger (StartingTournament tournamentId rounds modelKeys) w in
  match rounds_loop modelMap tournamentId modelKeys (Z.to_nat rounds) 0 w with
  | (Returned _, w) => (Returned tt, logger TournamentComplete w)
  | other => other
  end.

End Tournament.

Local Close Scope list_scope.
Local Open Scope string_scope.
Local Open Scope list_scope.

(** ** The reply parser of [Agent.generateResponse] *)









(** [{ ...data, usage: this.lastUsage }]: the properties of [data] other
    than [usage], and the usage metadata ([None]: [undefined]). *)
Record response := {
  resp_fields : list (string * json);
  resp_usage : option json
}.








(** ** The standalone runner ([benchmark-cli]) *)

Module Cli.

(** The agent of the standalone runner returns [data] itself, whatever
    [JSON.parse] made of the answer, and rethrows the error of a failed
    request. *)
Inductive outcome :=
| Data (data : json)
| Rejected (err : string).

(** [response.k]: [None] is the [TypeError] of reading a property of
    [null]; a number, a text, a boolean and an array have no property of
    the names that the runner reads. *)
Definition prop (response : json) (k : string) : option value :=
  match response with
  | JNull => None
  | JObject ms => Some (get_field ms k)
  | _ => Some Value.undefined
  end.

(** [response.deal = false], executed when [response.deal] is truthy. *)
Definition lower (response : json) : json :=
  match response with
  | JObject ms => JObject (Json.put ms "deal" (JBool false))
  | _ => response
  end.

Record entry := {
  e_turn : nat;
  e_sender : string;
  e_role : role_t;
  e_content : json
}.

(** The locals of the loop of the standalone [runMatch]: no [lastOfferBy],
    no [consecutiveNulls], no cancellation. *)
Record locals := {
  turns : nat;
  dealReached : bool;
  dealPrice : value;
  logs : list entry;
  lastMessage : value;
  lastOffer : value;
  activeAgent : agent;
  passiveAgent : agent
}.

(** How a pass through the loop body ends: at its end, or with an error,
    which nothing in the runner catches. *)
Inductive flow :=
| Next (l : locals)
| Throw (err : string) (l : locals).

Definition tick (l : locals) : locals :=
  {| turns := S (turns l); dealReached := dealReached l; dealPrice := dealPrice l;
     logs := logs l; lastMessage := lastMessage l; lastOffer := lastOffer l;
     activeAgent := activeAgent l; passiveAgent := passiveAgent l |}.

(** Lines 96-107, for the reply as it is logged. *)
Definition end_of_turn (l : locals) (dr : bool) (dp lo : value) (content : json)
    (msg : value) : locals :=
  {| turns := S (turns l); dealReached := dr; dealPrice := dp;
     logs := logs l ++ [ {| e_turn := S (turns l); e_sender := name (activeAgent l);
                            e_role := role (activeAgent l); e_content := content |} ];
     lastMessage := msg; lastOffer := lo;
     activeAgent := passiveAgent l; passiveAgent := activeAgent l |}.

(** Lines 73-107 of the standalone runner, for the reply of the active
    agent.  Line 73 prints the message and the offer, line 79 compares the
    offers with [==] when [lastOffer] is not [null], line 85 prints both
    offers: each of them raises a [TypeError] for a value that has no
    text. *)
Definition turn_body (l : locals) (response : json) : flow :=
  match prop response "message", prop response "offer", prop response "deal" with
  | Some msg, Some off, Some dl =>
      match Value.to_string msg, Value.to_string off with
      | Some _, Some _ =>
          if Value.truthy dl then
            match (if Value.is_null (lastOffer l) then Some false
                   else Value.loose_eq off (lastOffer l)) with
            | Some true => Next (end_of_turn l true off (lastOffer l) response msg)
            | Some false =>
                match Value.to_string (lastOffer l) with
                | Some _ =>
                    Next (end_of_turn l false (dealPrice l) (lastOffer l) (lower response) msg)
                | None => Throw "TypeError" (tick l)
                end
            | None => Throw "TypeError" (tick l)
            end
          else
            Next (end_of_turn l (dealReached l) (dealPrice l)
                    (if Value.is_null off then lastOffer l else off) response msg)
      | _, _ => Throw "TypeError" (tick l)
      end
  | _, _, _ => Throw "TypeError" (tick l)
  end.

(** How the loop ends; [OutOfFuel] is the model's, not the code's. *)
Inductive loop_end :=
| Exited (l : locals)
| Raised (err : string) (l : locals)
| OutOfFuel.

(** [while (turns < maxTurns && !dealReached) { ... }]; [generate k] is
    what the [k]-th call of [generateResponse] does. *)
Fixpoint match_loop (fuel : nat) (generate : nat -> outcome) (l : locals) : loop_end :=
  match fuel with
  | 0 => OutOfFuel
  | S fuel' =>
      if (turns l <? maxTurns)%nat && negb (dealReached l) then
        match generate (turns l) with
        | Rejected err => Raised err (tick l)
        | Data response =>
            match turn_body l response with
            | Next l' => match_loop fuel' generate l'
            | Throw err l' => Raised err l'
            end
        end
      else Exited l
  end.

Definition initial_locals (s b : agent) : locals :=
  {| turns := 0; dealReached := false; dealPrice := Value.null; logs := [];
     lastMessage :=
       Value.text "The negotiation has started. Please make your opening statement.";
     lastOffer := Value.null; activeAgent := s; passiveAgent := b |}.

(** Lines 110-122: the default is a penalty of -0.5.  [None]: the
    [TypeError] of a price without a text. *)
Definition scores (l : locals) (sellerEst buyerEst : float) : option (float * float) :=
  if dealReached l && Value.truthy (dealPrice l) then
    match Value.to_string (dealPrice l), Value.to_number (dealPrice l) with
    | Some _, Some p => Some ((p - sellerEst) / sellerEst, (buyerEst - p) / buyerEst)%float
    | _, _ => None
    end
  else Some (-0.5, -0.5)%float.

End Cli.

(** * The vocabulary of the statements *)



Definition flow_world (f : flow) : world :=
  match f with
  | Next _ w | Break _ w | Throw _ w => w
  end.

(** The line that announces the reply [r]. *)
Definition turn_line (l : locals) (r : reply) : line :=
  TurnLine (name (deref l (activeAgent l))) (message r) (shown_offer r).

(** The validity of a deal claim [r] in the state [l]: a pending offer
    exists ([lastOffer] is not [null]), the speaker's role did not make it,
    the claimed value is [===] to it. *)
Definition claim_valid (l : locals) (r : reply) : Prop :=
  Value.is_null (lastOffer l) = false /\
  lastOfferBy l <> Some (role (deref l (activeAgent l))) /\
  Value.strict_eq (offer r) (lastOffer l) = true.



(** [claim_valid] as the code computes it. *)
Definition validb (l : locals) (r : reply) : bool :=
  negb (Value.is_null (lastOffer l))
  && role_strict_neq (lastOfferBy l) (role (deref l (activeAgent l)))
  && Value.strict_eq (offer r) (lastOffer l).

(** The claim of [r] is honoured in the state [l]. *)
Definition honoured (l : locals) (r : reply) : bool :=
  Value.truthy (deal r) && validb l r.

(** The reply as the log keeps it: a claim that is not honoured has had its
    [deal] set to [false]. *)
Definition logged (l : locals) (r : reply) : reply :=
  if Value.truthy (deal r) && negb (validb l r) then lower r else r.

(** The conversion of [v] to a text raises no error. *)
Definition printable (v : value) : Prop := Value.to_string v <> None.

(** The entry that line 136 pushes for the reply [r] of the agent [a] on
    turn [n]. *)
Definition entry_of (n : nat) (a : agent) (r : reply) : log_entry :=
  {| log_turn := n;
     log_sender := (name a ++ " (" ++ role_name (role a) ++ ")")%string;
     log_role := role a;
     log_content := without_usage r |}.

Record same_store (w w' : world) : Prop := {
  same_files : files w' = files w;
  same_manifest : manifest w' = manifest w;
  more_lines : exists tail, sink w' = sink w ++ tail
}.

(** The effect of a pass that reaches the end of the loop body. *)
Record next_effect (E : env) (l : locals) (w : world) (l' : locals) (w' : world)
    (r : reply) : Prop := {
  ne_not_aborted : aborted E w = false;
  ne_reply : generate E (calls w) = Replied r;
  ne_message : printable (message r);
  ne_offer : printable (offer r);
  ne_turns : turns l' = S (turns l);
  ne_dealReached : dealReached l' = honoured l r;
  ne_dealPrice : dealPrice l' = if honoured l r then offer r else dealPrice l;
  ne_logs : logs l' = logs l ++ [entry_of (S (turns l)) (deref l (activeAgent l))
                                   (logged l r)];
  ne_lastOffer : lastOffer l' =
                 if honoured l r then lastOffer l
                 else if Value.is_null (offer r) then lastOffer l else offer r;
  ne_lastOfferBy : lastOfferBy l' =
                   if honoured l r then lastOfferBy l
                   else if Value.is_null (offer r) then lastOfferBy l
                        else Some (role (deref l (activeAgent l)));
  ne_consecutiveNulls : consecutiveNulls l' =
                        if honoured l r then consecutiveNulls l
                        else if Value.is_null (offer r) then S (consecutiveNulls l) else 0;
  ne_no_break : honoured l r = false -> Value.is_null (offer r) = true ->
                consecutiveNulls l = 0;
  ne_activeAgent : activeAgent l' = passiveAgent l;
  ne_passiveAgent : passiveAgent l' = activeAgent l;
  ne_seller : seller l' = match activeAgent l with
                          | Seller => trackTokens (usage r) (seller l)
                          | Buyer => seller l
                          end;
  ne_buyer : buyer l' = match activeAgent l with
                        | Seller => buyer l
                        | Buyer => trackTokens (usage r) (buyer l)
                        end;
  ne_calls : calls w' = S (calls w);
  ne_store : same_store w w'
}.

(** The effect of a pass that ends in [break]. *)
Record break_effect (E : env) (l : locals) (w : world) (l' : locals) (w' : world)
    (r : reply) : Prop := {
  be_not_aborted : aborted E w = false;
  be_reply : generate E (calls w) = Replied r;
  be_no_offer : Value.is_null (offer r) = true;
  be_not_honoured : honoured l r = false;
  be_streak : 1 <= consecutiveNulls l;
  be_turns : turns l' = S (turns l);
  be_dealReached : dealReached l' = false;
  be_dealPrice : dealPrice l' = dealPrice l;
  be_logs : logs l' = logs l;
  be_seller : seller l' = seller l;
  be_buyer : buyer l' = buyer l;
  be_calls : calls w' = S (calls w);
  be_store : same_store w w';
  be_line : In (S (calls w), EndedTwoNulls) (sink w')
}.

(** [visits E l0 w0 l w]: started in [(l0, w0)], the loop evaluates its test
    in [(l, w)]. *)
Inductive visits (E : env) (l0 : locals) (w0 : world) : locals -> world -> Prop :=
| visits_first : visits E l0 w0 l0 w0
| visits_next l w l' w' :
    visits E l0 w0 l w ->
    loop_test l = true ->
    turn_body E l w = Next l' w' ->
    visits E l0 w0 l' w'.

(** How the loop can end: on its test, or on the [break]. *)
Definition ends_at (E : env) (l : locals) (w : world) (lf : locals) (wf : world) : Prop :=
  (loop_test l = false /\ lf = l /\ wf = w) \/
  (loop_test l = true /\ turn_body E l w = Break lf wf).

Definition opposite (r : role_t) : role_t :=
  match r with Seller => Buyer | Buyer => Seller end.

(** Who speaks on the turn after [n] turns: the seller opens. *)
Definition speaker_ref (n : nat) : role_t :=
  if Nat.even n then Seller else Buyer.

Definition same_identity (a a0 : agent) : Prop :=
  name a = name a0 /\ modelId a = modelId a0 /\ role a = role a0.

(** The log entry at position [i] (turn [i + 1]) is the reply that the
    [(c0 + i)]-th call returned, without its usage, as it is or with its
    [deal] set to [false]; it is lowered only if it claimed a deal, and a
    claim that is logged as it was made is the one on which the deal was
    reached, on the last turn taken. *)
Definition entry_inv (E : env) (s0 b0 : agent) (c0 : nat) (dr : bool) (n : nat)
    (i : nat) (e : log_entry) : Prop :=
  exists (r0 : reply) (lowered : bool),
    generate E (c0 + i) = Replied r0 /\
    e = entry_of (S i) (match speaker_ref i with Seller => s0 | Buyer => b0 end)
          (if lowered then lower r0 else r0) /\
    (lowered = true -> Value.truthy (deal r0) = true) /\
    (lowered = false -> Value.truthy (deal r0) = true -> dr = true /\ S i = n).

Record loop_inv (E : env) (s0 b0 : agent) (c0 : nat) (l : locals) (w : world)
  : Prop := {
  li_calls : calls w = c0 + turns l;
  li_length : length (logs l) = turns l;
  li_bound : turns l <= maxTurns;
  li_active : activeAgent l = speaker_ref (turns l);
  li_passive : passiveAgent l = opposite (speaker_ref (turns l));
  li_seller : same_identity (seller l) s0;
  li_buyer : same_identity (buyer l) b0;
  li_entries : forall i e, logs l !! i = Some e ->
               entry_inv E s0 b0 c0 (dealReached l) (turns l) i e;
  li_pending : dealReached l = false ->
               dealPrice l = Value.null /\
               (Value.is_null (lastOffer l) = true \/
                (consecutiveNulls l = 0 /\ lastOfferBy l = Some (passiveAgent l)) \/
                (consecutiveNulls l = 1 /\ lastOfferBy l = Some (activeAgent l)));
  li_deal : dealReached l = true ->
            0 < turns l /\
            Value.strict_eq (dealPrice l) (lastOffer l) = true /\
            Value.is_null (lastOffer l) = false /\
            lastOfferBy l = Some (activeAgent l);
  li_streak : dealReached l = false ->
              match consecutiveNulls l with
              | 0 => turns l = 0 \/
                     exists r, generate E (c0 + (turns l - 1)) = Replied r /\
                               Value.is_null (offer r) = false
              | S _ => 0 < turns l /\
                       exists r, generate E (c0 + (turns l - 1)) = Replied r /\
                                 Value.is_null (offer r) = true
              end;
  li_printable : printable (lastOffer l)
}.

(** What holds of the locals when the loop is left. *)
Record exit_inv (E : env) (s0 b0 : agent) (c0 : nat) (lf : locals) : Prop := {
  xi_entries : forall i e, logs lf !! i = Some e ->
               entry_inv E s0 b0 c0 (dealReached lf) (length (logs lf)) i e;
  xi_length : length (logs lf) = turns lf \/
              (S (length (logs lf)) = turns lf /\ dealReached lf = false);
  xi_bound : turns lf <= maxTurns;
  xi_no_deal : dealReached lf = false -> dealPrice lf = Value.null;
  xi_deal : dealReached lf = true ->
            length (logs lf) = turns lf /\
            Value.is_null (dealPrice lf) = false /\
            Value.is_object (dealPrice lf) = false;
  xi_seller : same_identity (seller lf) s0;
  xi_buyer : same_identity (buyer lf) b0
}.

(** The manifest entry that summarises a result. *)
Definition summary (res : match_result) : manifest_entry :=
  {| me_id := r_id res; me_tournament := r_tournament res; me_date := r_date res;
     me_item := r_item res; me_trueValue := r_trueValue res;
     me_dealReached := r_dealReached res; me_dealPrice := r_dealPrice res;
     me_seller := {| ms_name := s_name (r_seller res); ms_model := s_model (r_seller res);
                     ms_estimate := s_estimate (r_seller res);
                     ms_score := s_score (r_seller res) |};
     me_buyer := {| ms_name := s_name (r_buyer res); ms_model := s_model (r_buyer res);
                    ms_estimate := s_estimate (r_buyer res);
                    ms_score := s_score (r_buyer res) |} |}.

(** The result is written under its run id and its summary goes to the head
    of the manifest. *)
Definition persisted (res : match_result) (w w' : world) : Prop :=
  files w' = <[r_id res := res]> (files w) /\
  manifest w' = Some (summary res :: default [] (manifest w)).

(** The agents that [runMatch] creates (lines 60-74). *)
Definition seller_agent (c : conf) : agent :=
  new_Agent (conf_name c) (conf_modelId c) Seller.

Definition buyer_agent (c : conf) : agent :=
  new_Agent (conf_name c) (conf_modelId c) Buyer.

(** The matches started so far, from the [Matchup] lines: for each, the
    number of [generateResponse] calls issued before it, the seller and the
    buyer. *)
Definition scheduled_line (p : nat * line) : option (nat * (string * string)) :=
  match p.2 with
  | Matchup b s => Some (p.1, (s, b))
  | _ => None
  end.

Definition scheduled (w : world) : list (nat * (string * string)) :=
  omap scheduled_line (sink w).

Definition aborted_at (E : env) (c : nat) : bool :=
  match abort_at E with
  | Some t => (t <=? c)%nat
  | None => false
  end.

Definition write_result (m : gmap string match_result) (r : match_result)
  : gmap string match_result :=
  <[r_id r := r]> m.

Definition prepend_summary (m : option (list manifest_entry)) (r : match_result)
  : option (list manifest_entry) :=
  Some (summary r :: default [] m).

(** From [w] to [w'] the matches [started] were started, each while the
    signal was not set, and the results [rs] were persisted, in this order. *)
Record progress (E : env) (w w' : world)
    (started : list (nat * (string * string))) (rs : list match_result) : Prop := {
  pg_scheduled : scheduled w' = scheduled w ++ started;
  pg_files : files w' = foldl write_result (files w) rs;
  pg_manifest : manifest w' = foldl prepend_summary (manifest w) rs;
  pg_calls : calls w <= calls w';
  pg_stamps : Forall (fun p => aborted_at E p.1 = false /\ calls w <= p.1 <= calls w') started
}.

(** How a step of the scheduler can end. *)
Definition scheduler_end (c : completion unit) : Prop :=
  c = Returned tt \/ c = Thrown Benchmark_Aborted.


(** The world in which [runTournament] enters its loops. *)
Definition tournament_start (E : env) (o : options) (w : world) : string * world :=
  let randomName :=
    (random_word adjectives (random E (rng w)) ++ " "
     ++ random_word nouns (random E (S (rng w))) ++ " "
     ++ random_number (random E (S (S (rng w)))))%string in
  let w := tick_rng (tick_rng (tick_rng w)) in
  let tournamentId :=
    match opt_tournamentName o with
    | Some n => if String.eqb n EmptyString then randomName else n
    | None => randomName
    end in
  (tournamentId,
   logger (StartingTournament tournamentId (effective_rounds o) (modelKeys_of o)) w).

(** The matches of one round, as (seller, buyer): for every pair of
    positions [i < j] of the roster, [keys[i]] sells to [keys[j]] and then
    [keys[j]] sells to [keys[i]]. *)
Fixpoint pairings (keys : list string) : list (string * string) :=
  match keys with
  | [] => []
  | a :: rest => flat_map (fun b => [(a, b); (b, a)]) rest ++ pairings rest
  end.



(** [c] does not occur in [s]. *)
Fixpoint lacks (c : ascii) (s : string) : Prop :=
  match s with
  | EmptyString => True
  | String a s' => a <> c /\ lacks c s'
  end.

(** * The ledger, the roster, the server and the runner page *)

(** ** The ledger of a match *)

(** The reply that the [(c0 + i)]-th call of [generateResponse] resolved
    with, if it did. *)
Definition reply_at (E : env) (c0 i : nat) : option reply :=
  match generate E (c0 + i) with
  | Replied r => Some r
  | Failed _ => None
  end.

(** The output tokens that [trackTokens] counts for the reply of turn
    [i + 1]. *)
Definition tokens_at (E : env) (c0 i : nat) : nat :=
  match reply_at E c0 i with
  | Some r => default 0 (usage r)
  | None => 0
  end.

(** The output tokens of the first [n] turns that were spoken by [who]. *)
Fixpoint tokens_of (E : env) (c0 : nat) (who : role_t) (n : nat) : nat :=
  match n with
  | 0 => 0
  | S k => tokens_of E c0 who k
           + (if role_eqb (speaker_ref k) who then tokens_at E c0 k else 0)
  end.

(** The reply of turn [k + 1] carries the offer [null]. *)
Definition silent_at (E : env) (c0 k : nat) : Prop :=
  exists r, reply_at E c0 k = Some r /\ Value.is_null (offer r) = true.

(** The offer on the table after [n] turns comes from turn [j + 1]: it is
    the offer of the last reply whose offer was not [null]. *)
Definition last_offer_from (E : env) (c0 n j : nat) (p : value) : Prop :=
  j < n /\
  (exists r, reply_at E c0 j = Some r /\ offer r = p) /\
  Value.is_null p = false /\
  forall k, j < k < n -> silent_at E c0 k.

(** What the locals record about tokens and offers, at the head of the loop
    after [turns l] turns. *)
Record ledger (E : env) (c0 : nat) (l : locals) : Prop := {
  lg_seller : totalTokens (seller l) = tokens_of E c0 Seller (turns l);
  lg_buyer : totalTokens (buyer l) = tokens_of E c0 Buyer (turns l);
  lg_none : dealReached l = false -> Value.is_null (lastOffer l) = true ->
            forall k, k < turns l -> silent_at E c0 k;
  lg_some : dealReached l = false -> Value.is_null (lastOffer l) = false ->
            exists j, last_offer_from E c0 (turns l) j (lastOffer l) /\
                      lastOfferBy l = Some (speaker_ref j);
  lg_deal : dealReached l = true ->
            exists n j p r,
              turns l = S n /\ reply_at E c0 n = Some r /\
              Value.truthy (deal r) = true /\ offer r = dealPrice l /\
              last_offer_from E c0 n j p /\
              Value.strict_eq (dealPrice l) p = true /\
              speaker_ref j = opposite (speaker_ref n) /\
              exists e, logs l !! n = Some e /\ log_content e = without_usage r
}.

(** How a match that returns a result has ended. *)
Inductive ending := ByDeal | BySilence | ByTurnCap.

Definition ending_of (res : match_result) : ending :=
  if r_dealReached res then ByDeal
  else if (length (r_logs res) <? r_turns res)%nat then BySilence
  else ByTurnCap.

(** ** The directory of results *)

(** [manifest.json] and the run files agree: every entry of the manifest
    has a run file under its id, and the first entry that the manifest lists
    for the id of a run file is the summary of that file. *)
Record store_ok (w : world) : Prop := {
  so_listed : forall e, e ∈ default [] (manifest w) ->
                        is_Some (files w !! me_id e);
  so_latest : forall id res, files w !! id = Some res ->
                head (filter (fun e => me_id e = id) (default [] (manifest w)))
                = Some (summary res)
}.

(** ** The roster *)

(** The names of a list in the order of their first occurrence. *)
Definition first_occurrences (l : list string) : list string :=
  foldl (fun acc x => if decide (x ∈ acc) then acc else acc ++ [x]) [] l.

(** The names that every object inherits from [Object.prototype]: for these
    [MODELS[cleanKey]] finds an inherited property. *)
Definition Object_prototype_names : list string :=
  [ "constructor"; "__defineGetter__"; "__defineSetter__"; "hasOwnProperty";
    "__lookupGetter__"; "__lookupSetter__"; "isPrototypeOf";
    "propertyIsEnumerable"; "toString"; "valueOf"; "__proto__"; "toLocaleString" ].

(** The roster that [runTournament] is given. *)
Definition selected (o : options) : list string :=
  default default_models (opt_models o).

(** The id under which the name [m] is played: [MODELS[cleanKey]] if the
    table has it, the name itself otherwise. *)
Definition resolved_id (m : string) : string :=
  default m (obj_get MODELS (strip_4_5 m)).

(** ** The controller of the running benchmark ([server.js]) *)

(** The module state of [server.js]: [activeController], and the
    [AbortController]s created so far, numbered in the order of their
    creation, with those on which [abort()] was called. *)
Record server := {
  activeController : option nat;
  abortedControllers : list nat;
  created : nat
}.

Definition server_start : server :=
  {| activeController := None; abortedControllers := []; created := 0 |}.

Inductive stop_status := Stopped | NoActiveBenchmark.

(** [POST /api/benchmark/stop], lines 22-31. *)
Definition stop (s : server) : stop_status * server :=
  match activeController s with
  | Some c =>
      (Stopped, {| activeController := None;
                   abortedControllers := c :: abortedControllers s;
                   created := created s |})
  | None => (NoActiveBenchmark, s)
  end.

(** Lines 69-74 of the start handler: the controller that is active is
    aborted, a new one is created and becomes the active one. *)
Definition install (s : server) : nat * server :=
  let stopped := match activeController s with
                 | Some c => c :: abortedControllers s
                 | None => abortedControllers s
                 end in
  (created s, {| activeController := Some (created s);
                 abortedControllers := stopped;
                 created := S (created s) |}).

(** The listener that the start handler puts on the [close] event of its
    request, lines 77-87, for the controller [c] that the handler created. *)
Definition on_close (c : nat) (s : server) : server :=
  match activeController s with
  | Some c' =>
      if Nat.eqb c' c then
        {| activeController := None; abortedControllers := abortedControllers s;
           created := created s |}
      else s
  | None => s
  end.

(** What reaches the server: a start request (with its [models]), a stop
    request, the end of the connection of the start request that created
    the controller [c]. *)
Inductive request := StartRequest | StopRequest | ConnectionClosed (c : nat).

Definition handle (s : server) (r : request) : server :=
  match r with
  | StartRequest => (install s).2
  | StopRequest => (stop s).2
  | ConnectionClosed c => on_close c s
  end.

Definition serve (rs : list request) (s : server) : server := foldl handle s rs.

(** [signal.aborted] of the controller [c]. *)
Definition signal_aborted (c : nat) (s : server) : bool :=
  bool_decide (c ∈ abortedControllers s).

(** What every state of the server satisfies: the controllers in use were
    created, and the active one is not aborted. *)
Record server_ok (s : server) : Prop := {
  sv_active : forall c, activeController s = Some c ->
                        c < created s /\ c ∉ abortedControllers s;
  sv_aborted : forall c, c ∈ abortedControllers s -> c < created s
}.

(** ** The event stream ([server.js] and [BenchmarkRunner.jsx]) *)

Inductive sse_event :=
| ELog (text : string)
| EError (text : string)
| EComplete.

Module Sse.

Definition quote_char : ascii := ascii_of_N 34.
Definition backslash : ascii := ascii_of_N 92.

Definition hex_digit (n : N) : ascii :=
  if (n <? 10)%N then ascii_of_N (48 + n) else ascii_of_N (87 + n).

(** [QuoteJSONString] on one character of a well-formed text: the quote, the
    backslash and the control characters are escaped, everything else is
    copied. *)
Definition escape_char (c : ascii) : list ascii :=
  let n := N_of_ascii c in
  if (n =? 34)%N then [backslash; quote_char]
  else if (n =? 92)%N then [backslash; backslash]
  else if (n =? 8)%N then [backslash; "b"%char]
  else if (n =? 12)%N then [backslash; "f"%char]
  else if (n =? 10)%N then [backslash; "n"%char]
  else if (n =? 13)%N then [backslash; "r"%char]
  else if (n =? 9)%N then [backslash; "t"%char]
  else if (n <? 32)%N then
    [backslash; "u"%char; "0"%char; "0"%char; hex_digit (n / 16); hex_digit (n mod 16)]
  else [c].

Definition quote (s : list ascii) : list ascii :=
  quote_char :: flat_map escape_char s ++ [quote_char].

Definition chars (s : string) : list ascii := list_ascii_of_string s.

(** [JSON.stringify({ type, text })] and [JSON.stringify({ type })]. *)
Definition stringify (ev : sse_event) : list ascii :=
  match ev with
  | ELog text =>
      chars "{" ++ quote (chars "type") ++ chars ":" ++ quote (chars "log")
      ++ chars "," ++ quote (chars "text") ++ chars ":" ++ quote (chars text) ++ chars "}"
  | EError text =>
      chars "{" ++ quote (chars "type") ++ chars ":" ++ quote (chars "error")
      ++ chars "," ++ quote (chars "text") ++ chars ":" ++ quote (chars text) ++ chars "}"
  | EComplete =>
      chars "{" ++ quote (chars "type") ++ chars ":" ++ quote (chars "complete") ++ chars "}"
  end.

End Sse.

(** The payload of an event, [msg] in lines 52, 57 and 62. *)
Definition payload (ev : sse_event) : string :=
  string_of_list_ascii (Sse.stringify ev).

(** What [res.write] is given: [data: ${msg}\n\n]. *)
Definition frame (ev : sse_event) : string :=
  ("data: " ++ payload ev
   ++ String (ascii_of_N 10) (String (ascii_of_N 10) EmptyString))%string.

(** The state of the runner page that [onmessage] changes: [logs] (the
    texts from which the console pane is rendered), [isRunning], whether
    the event source is still open, and how often [onComplete] was
    called. *)
Record runner := {
  rn_logs : list string;
  rn_isRunning : bool;
  rn_open : bool;
  rn_completed : nat
}.

(** The event that a parsed payload denotes, for payloads of the shape that
    the server sends.  [Some None]: the [type] of the payload is none of the
    three.  [None]: a [log] or an [error] whose [text] is not a string. *)
Definition decode (d : json) : option (option sse_event) :=
  match d with
  | JObject ms =>
      match get_field ms "type" with
      | Some (JString t) =>
          if String.eqb t "log" then
            match get_field ms "text" with
            | Some (JString x) => Some (Some (ELog x))
            | _ => None
            end
          else if String.eqb t "error" then
            match get_field ms "text" with
            | Some (JString x) => Some (Some (EError x))
            | _ => None
            end
          else if String.eqb t "complete" then Some (Some EComplete)
          else Some None
      | _ => Some None
      end
  | _ => Some None
  end.

(** Lines 50-61 of [BenchmarkRunner.jsx]. *)
Definition on_event (ev : sse_event) (st : runner) : runner :=
  match ev with
  | ELog text =>
      {| rn_logs := rn_logs st ++ [text]; rn_isRunning := rn_isRunning st;
         rn_open := rn_open st; rn_completed := rn_completed st |}
  | EError text =>
      {| rn_logs := rn_logs st ++ [("ERROR: " ++ text)%string]; rn_isRunning := false;
         rn_open := false; rn_completed := rn_completed st |}
  | EComplete =>
      {| rn_logs := rn_logs st ++ [String (ascii_of_N 10) "Benchmark Run Complete."];
         rn_isRunning := false; rn_open := false;
         rn_completed := S (rn_completed st) |}
  end.

(** [evtSource.onmessage], lines 47-65, with an [onComplete] handler given:
    a payload that does not parse is reported by [console.error] and
    changes nothing.  [None]: the payload is not of the shape that the server
    sends. *)
Definition onmessage (data : string) (st : runner) : option runner :=
  match JSON_parse data with
  | Returned d =>
      match decode d with
      | Some (Some ev) => Some (on_event ev st)
      | Some None => Some st
      | None => None
      end
  | _ => Some st
  end.

(** The page handles the payloads in the order of their arrival, as long as
    its event source is open: after [evtSource.close()] no message is
    dispatched any more. *)
Fixpoint deliver (payloads : list string) (st : runner) : option runner :=
  match payloads with
  | [] => Some st
  | data :: rest =>
      if rn_open st then
        match onmessage data st with
        | Some st' => deliver rest st'
        | None => None
        end
      else Some st
  end.

(** No line feed and no carriage return: the characters at which an event
    stream is cut into lines. *)
Definition one_line (s : string) : Prop :=
  lacks (ascii_of_N 10) s /\ lacks (ascii_of_N 13) s.

(** ** The query of a start request ([server.js], lines 40-43) *)

Module Query.

(** The value of the longest prefix of digits; [None] if there is no
    digit. *)
Fixpoint scan (radix : N) (acc : option N) (s : string) : option N :=
  match s with
  | String c s' =>
      match Value.digit_in radix c with
      | Some d => scan radix (Some (default 0 acc * radix + d)%N) s'
      | None => acc
      end
  | EmptyString => acc
  end.

End Query.

(** [parseInt(s)] without a radix: the integer, or [None] for [NaN].  The
    result is the integer that the digits denote; the number that
    JavaScript returns is this integer for every result below [2 ^ 53] in
    absolute value. *)
Definition parseInt (s : string) : option Z :=
  let s := Value.trim_start s in
  let '(neg, s) :=
    match s with
    | String c s' => if Ascii.eqb c "-" then (true, s')
                     else if Ascii.eqb c "+" then (false, s') else (false, s)
    | EmptyString => (false, s)
    end in
  let '(radix, s) :=
    match s with
    | String z (String x s') =>
        if Ascii.eqb z "0" && (Ascii.eqb x "x" || Ascii.eqb x "X") then (16%N, s')
        else (10%N, s)
    | _ => (10%N, s)
    end in
  match Query.scan radix None s with
  | Some v => Some (if neg then (- Z.of_N v)%Z else Z.of_N v)
  | None => None
  end.

(** [s.split(c)] for a separator of one character. *)
Fixpoint split_on (c : ascii) (s : string) : list string :=
  match s with
  | EmptyString => [EmptyString]
  | String a s' =>
      if Ascii.eqb a c then EmptyString :: split_on c s'
      else match split_on c s' with
           | x :: xs => String a x :: xs
           | [] => [String a EmptyString]
           end
  end.

(** [l.join(sep)] *)
Fixpoint join (sep : string) (l : list string) : string :=
  match l with
  | [] => EmptyString
  | [x] => x
  | x :: rest => (x ++ sep ++ join sep rest)%string
  end.

(** [req.query] as the handler reads it: each parameter is a string or
    missing. *)
Record query := {
  q_rounds : option string;
  q_models : option string;
  q_tournamentName : option string
}.

(** [parseInt(req.query.rounds) || 1] *)
Definition query_rounds (q : query) : Z :=
  match q_rounds q with
  | Some s =>
      match parseInt s with
      | Some z => if (z =? 0)%Z then 1%Z else z
      | None => 1%Z
      end
  | None => 1%Z
  end.

(** Lines 40-43 and the options of line 91.  Without a [models] parameter
    [modelsParam.split] raises a [TypeError], before the headers are set and
    outside the [try]. *)
Definition start_options (q : query) : completion options :=
  match q_models q with
  | None => Thrown "TypeError"
  | Some modelsParam =>
      Returned {| opt_rounds := query_rounds q;
                  opt_models := Some (split_on "," modelsParam);
                  opt_tournamentName := Some (default EmptyString (q_tournamentName q)) |}
  end.

(** ** The form of the runner page ([BenchmarkRunner.jsx]) *)

(** [selectedModels] in its initial state, lines 6-17. *)
Definition ui_initial : list (string * bool) :=
  [ ("OPUS_4_5", true); ("HAIKU_4_5", true); ("SONNET_4_5", false);
    ("GPT_5", false); ("GPT_5_MINI", true); ("GPT_5_1", false); ("GPT_5_2", true);
    ("GEMINI_2_5_PRO", false); ("GEMINI_2_5_FLASH", true);
    ("GEMINI_FLASH_PREVIEW", true) ].

(** The names of the check boxes, lines 110-114. *)
Definition ui_boxes : list string :=
  [ "OPUS_4_5"; "HAIKU_4_5"; "SONNET_4_5"; "GPT_5"; "GPT_5_MINI"; "GPT_5_1";
    "GPT_5_2"; "GEMINI_FLASH_PREVIEW"; "GEMINI_2_5_PRO"; "GEMINI_2_5_FLASH" ].

(** [prev[m]] as a condition. *)
Fixpoint checked (prev : list (string * bool)) (m : string) : bool :=
  match prev with
  | [] => false
  | (k, b) :: rest => if String.eqb k m then b else checked rest m
  end.

(** [toggleModel(m)]: [{ ...prev, [m]: !prev[m] }]. *)
Fixpoint toggleModel (m : string) (prev : list (string * bool)) : list (string * bool) :=
  match prev with
  | [] => [(m, true)]
  | (k, b) :: rest =>
      if String.eqb k m then (k, negb b) :: rest else (k, b) :: toggleModel m rest
  end.

(** [Object.keys] of an object with the own properties [ks], in the order
    of their creation. *)
Definition keys_in_order (ks : list string) : list string :=
  (sort_by_index (index_keys ks)).*2 ++ filter (fun k => array_index_key k = None) ks.

(** [Object.keys(selectedModels).filter(k => selectedModels[k])] *)
Definition ui_models (sel : list (string * bool)) : list string :=
  filter (fun k => checked sel k = true) (keys_in_order sel.*1).

(** The numbers of the page are binary64 numbers.  Those that the total is
    made of are integers, and an integer-valued binary64 number is written
    here as the integer it is.  [round64 z] is the binary64 number nearest
    to the integer [z], ties going to the even significand: [z] itself when
    it has at most 53 significant bits, and otherwise [z] with the [e] bits
    below its 53 leading bits rounded away.  (No product below comes near
    [2 ^ 1024], where binary64 overflows.) *)
Definition round64 (z : Z) : Z :=
  let m := Z.abs z in
  let e := (Z.log2 m - 52)%Z in
  if (e <=? 0)%Z then z
  else
    let q := Z.shiftr m e in
    let r := (m - Z.shiftl q e)%Z in
    let half := Z.shiftl 1 (e - 1) in
    let q' := if (half <? r)%Z || ((r =? half)%Z && Z.odd q) then (q + 1)%Z else q in
    (Z.sgn z * Z.shiftl q' e)%Z.

(** [a * b] on integer-valued binary64 numbers. *)
Definition mul64 (a b : Z) : Z := round64 (a * b).

(** The total that the page shows, lines 143-147:
    [N * (N - 1) * rounds], then [total > 0 ? total : 0].  [N] is the length
    of an array, so that [N - 1] is exact. *)
Definition ui_total (sel : list (string * bool)) (rounds : Z) : Z :=
  let N := Z.of_nat (length (filter (fun v => v = true) sel.*2)) in
  let total := mul64 (mul64 N (N - 1)) rounds in
  if (total >? 0)%Z then total else 0%Z.

(** The query of the URL that [startBenchmark] opens, lines 41-43, as the
    handler receives it. *)
Definition ui_query (sel : list (string * bool)) (rounds : Z) (tournamentName : string)
  : query :=
  {| q_rounds := Some (pretty rounds);
     q_models := Some (join "," (ui_models sel));
     q_tournamentName := Some tournamentName |}.

(** A text of decimal digits. *)
Fixpoint all_digits (s : string) : Prop :=
  match s with
  | EmptyString => True
  | String c s' => (exists d, Value.digit_in 10 c = Some d) /\ all_digits s'
  end.

(** What holds of every name that the page can select. *)
Definition ui_name_ok (m : string) : Prop :=
  lacks "," m /\ array_index_key m = None /\ m <> "__proto__" /\
  strip_4_5 m = m /\ exists id, obj_get MODELS m = Some id.

(** ** The replies that the standalone runner cannot read *)

(** What the standalone runner holds as the pending offer has a text. *)
Definition cli_ready (l : Cli.locals) : Prop := printable (Cli.lastOffer l).

(** The replies on which the body of the loop raises a [TypeError]: the
    reply [null], and a reply whose message or offer has no text. *)
Definition cli_unreadable (response : json) : Prop :=
  match Cli.prop response "message", Cli.prop response "offer" with
  | Some msg, Some off => ~ (printable msg /\ printable off)
  | _, _ => True
  end.

(** ** The lines that announce the turns *)

(** [`${activeAgent.name}: ${response.message} [Offer: ${response.offer || 'None'}]`]:
    the speaker, the message and the offer that the line shows. *)
Definition announced_line (p : nat * line) : option (string * value * value) :=
  match p.2 with
  | TurnLine speaker msg shown => Some (speaker, msg, shown)
  | _ => None
  end.

Definition announced (w : world) : list (string * value * value) :=
  omap announced_line (sink w).

(** The announcement of the reply [r] on turn [i + 1]: an offer that is
    falsy (0, for one) is shown as ['None']. *)
Definition announcement (sellerConf buyerConf : conf) (i : nat) (r : reply)
  : string * value * value :=
  (match speaker_ref i with
   | Seller => conf_name sellerConf
   | Buyer => conf_name buyerConf
   end,
   message r,
   if Value.truthy (offer r) then offer r else Value.text "None").

(** The announcements of the first [n] turns. *)
Definition announcements (E : env) (c0 : nat) (sellerConf buyerConf : conf) (n : nat)
  : list (string * value * value) :=
  omap (fun i => option_map (announcement sellerConf buyerConf i) (reply_at E c0 i))
    (seq 0 n).

(** ** The provider of a model id ([Agent.generateResponse]) *)

Inductive provider := OpenAI | Gemini | Anthropic.

(** [s.includes(t)] *)
Definition includes (t s : string) : bool :=
  match String.index 0 t s with
  | Some _ => true
  | None => false
  end.

(** The branches of lines 199-258. *)
Definition provider_of (modelId : string) : provider :=
  if String.prefix "gpt" modelId then OpenAI
  else if String.prefix "gemini" modelId then Gemini
  else Anthropic.

(** [isGPT5], line 195. *)
Definition isGPT5 (modelId : string) : bool :=
  includes "gpt-5" modelId || includes "gpt-4o" modelId.

(** * Sample inputs *)

Definition empty_world : world :=
  {| calls := 0; rng := 0; clock := 0; sink := []; console := [];
     files := ∅; manifest := None |}.

(** A reply that follows the schema of the system prompt: the offer is a
    number or [null]. *)
Definition schema_reply (o : option float) (d : bool) : reply :=
  {| fields := [ ("thought", JString "t"); ("message", JString "m");
                 ("offer", match o with Some x => JNumber x | None => JNull end);
                 ("deal", JBool d) ];
     usage := Some 7 |}.

Definition say (o : option float) (d : bool) : gen_outcome :=
  Replied (schema_reply o d).

(** A reply that names no offer. *)
Definition bare_reply (d : bool) : reply :=
  {| fields := [ ("thought", JString "t"); ("message", JString "m"); ("deal", JBool d) ];
     usage := Some 7 |}.

(** An environment that plays the replies [rs] and then keeps silent, draws
    [0.5] from [Math.random] (the third scenario, with both estimates at
    50000) and reads the clock as its reading number. *)
Definition script (rs : list gen_outcome) (stop : option nat) : env :=
  {| generate := fun k => default (say None false) (rs !! k);
     abort_at := stop;
     random := fun _ => 0.5%float;
     date_now := fun k => pretty k;
     date_iso := fun k => ("2026-01-01T00:00:00.00" ++ pretty k ++ "Z")%string |}.

Definition conf_A : conf := {| conf_name := "A"; conf_modelId := "model-a" |}.
Definition conf_B : conf := {| conf_name := "B"; conf_modelId := "model-b" |}.

(** The seller asks 50000, the buyer claims a deal at 45000 (rejected), the
    seller asks 45000, the buyer accepts. *)
Definition haggle : env :=
  script [say (Some 50000%float) false; say (Some 45000%float) true;
          say (Some 45000%float) false; say (Some 45000%float) true] None.

Definition two_models : options :=
  {| opt_rounds := 1; opt_models := Some ["A"; "B"]; opt_tournamentName := Some "T" |}.

Definition three_models : options :=
  {| opt_rounds := 2; opt_models := Some ["A"; "B"; "C"; "A"];
     opt_tournamentName := None |}.

Definition dq : string := String (ascii_of_N 34) EmptyString.

Definition quoted (s : string) : string := (dq ++ s ++ dq)%string.


Local Close Scope list_scope.
Local Open Scope string_scope.
Local Open Scope list_scope.

(** * Proofs *)

(** ** Checks of the number model *)

Example Math_round_ties :
  (Js.Math_round 2.5 = 3 /\ Js.Math_round (-2.5) = (-2) /\
   Js.Math_round 2.25 = 2 /\ Js.Math_round 41799.75 = 41800 /\
   Js.Math_floor 4.75 = 4 /\ Js.Math_floor (-0.5) = (-1))%float.
Proof. repeat split; reflexivity. Qed.

Example array_index_samples :
  Js.array_index 3%float = Some 3 /\ Js.array_index 2.5%float = None /\
  Js.array_index (-1)%float = None /\ Js.array_index 0%float = Some 0.
Proof. repeat split; reflexivity. Qed.

(** The variances of the scenarios are the numbers that their decimal
    literals denote. *)
Example scenario_variances :
  map (fun s => Returned (JNumber (sc_variance s))) SCENARIOS
  = map JSON_parse ["0.1"; "0.15"; "0.4"; "0.2"; "0.5"].
Proof. vm_compute. reflexivity. Qed.

(** A pair of surrogate escapes is one character (here U+1F600, whose
    UTF-8 form has four bytes); a high surrogate alone stays a code unit of
    its own. *)
Example surrogate_pair_is_one_character :
  JSON_parse (quoted "\ud83d\ude00")
  = Returned (JString (string_of_list_ascii (map ascii_of_N [240; 159; 152; 128]%N))) /\
  JSON_parse (quoted "\ud83d")
  = Returned (JString (string_of_list_ascii (map ascii_of_N [237; 160; 189]%N))).
Proof. vm_compute. split; reflexivity. Qed.

(** ** Checks of the conversions *)

Example number_to_string_samples :
  map Value.number_to_string [45000; -2.5; 0; 0.5; 123456; 1e21]%float
  = ["45000"; "-2.5"; "0"; "0.5"; "123456"; "1e+21"] /\
  Value.number_to_string PrimFloat.nan = "NaN" /\
  Value.number_to_string PrimFloat.neg_infinity = "-Infinity".
Proof. vm_compute. repeat split. Qed.

Example string_to_number_samples :
  map Value.string_to_number [EmptyString; " 42 "; "0x1F"; "1e3"; ".5"; "5."; "Infinity"]
  = [0; 42; 31; 1000; 0.5; 5; PrimFloat.infinity]%float /\
  Forall (fun s => PrimFloat.is_nan (Value.string_to_number s) = true) ["-"; "abc"; "1,2"].
Proof. split; [vm_compute; reflexivity | repeat constructor]. Qed.

Example to_string_samples :
  map Value.to_string
    [ Value.undefined; Value.null; Value.boolean true; Value.number 45000;
      Value.text "x";
      Some (JArray [JNumber 1; JNull; JString "a"; JArray [JNumber 2; JNumber 3]]);
      Some (JObject [("a", JNull)]);
      Some (JObject [("toString", JNull)]);
      Some (JArray [JObject [("toString", JNull)]]) ]
  = [ Some "undefined"; Some "null"; Some "true"; Some "45000"; Some "x";
      Some "1,,a,2,3"; Some "[object Object]"; None; None ].
Proof. vm_compute. reflexivity. Qed.

Example truthy_samples :
  map Value.truthy
    [ Value.undefined; Value.null; Value.boolean false; Value.number 0;
      Value.number PrimFloat.nan; Value.text EmptyString;
      Value.text "false"; Value.number 1; Some (JArray []); Some (JObject []) ]
  = [false; false; false; false; false; false; true; true; true; true].
Proof. vm_compute. reflexivity. Qed.

Example strict_eq_samples :
  map (fun p => Value.strict_eq p.1 p.2)
    [ (Value.number 5, Value.text "5"); (Value.undefined, Value.undefined);
      (Value.null, Value.undefined); (Value.number 0, Value.number (-0));
      (Value.number PrimFloat.nan, Value.number PrimFloat.nan);
      (Some (JArray []), Some (JArray [])); (Value.text "a", Value.text "a") ]
  = [false; true; false; true; false; false; true].
Proof. vm_compute. reflexivity. Qed.

Example loose_eq_samples :
  map (fun p => Value.loose_eq p.1 p.2)
    [ (Value.number 5, Value.text "5"); (Value.text "1.0", Value.text "1");
      (Value.text "1.0", Value.number 1); (Value.null, Value.undefined);
      (Value.null, Value.number 0); (Some (JArray [JNumber 5]), Value.number 5);
      (Some (JArray []), Value.boolean false); (Value.boolean true, Value.text "1");
      (Some (JObject []), Some (JObject []));
      (Some (JObject [("toString", JNull)]), Value.number 1);
      (Value.number PrimFloat.nan, Value.number PrimFloat.nan) ]
  = [ Some true; Some false; Some true; Some true; Some false; Some true;
      Some true; Some true; Some false; None; Some false ].
Proof. vm_compute. reflexivity. Qed.

(** ** Values *)

Lemma get_put_eq (o : list (string * json)) (k : string) (v : json) :
  get_field (Json.put o k v) k = Some v.
Proof.
  induction o as [|[k' v'] o IH]; simpl.
  - now rewrite String.eqb_refl.
  - destruct (String.eqb k' k) eqn:Hk; simpl; rewrite Hk; auto.
Qed.

Lemma get_put_ne (o : list (string * json)) (k k' : string) (v : json) :
  k <> k' -> get_field (Json.put o k v) k' = get_field o k'.
Proof.
  intros Hne. induction o as [|[k0 v0] o IH]; simpl.
  - destruct (String.eqb k k') eqn:Hk; [|reflexivity].
    apply String.eqb_eq in Hk. contradiction.
  - destruct (String.eqb k0 k) eqn:Hk; simpl.
    + apply String.eqb_eq in Hk. subst k0.
      destruct (String.eqb k k') eqn:Hk'; [|reflexivity].
      apply String.eqb_eq in Hk'. contradiction.
    + now rewrite IH.
Qed.

(** What [response.deal = false] does to a reply: its [deal] is [false],
    and nothing else changes. *)
Lemma lower_spec (r : reply) :
  deal (lower r) = Value.boolean false /\
  usage (lower r) = usage r /\
  forall k, k <> "deal" -> get_field (fields (lower r)) k = get_field (fields r) k.
Proof.
  unfold deal, lower. simpl. split; [apply get_put_eq|]. split; [reflexivity|].
  intros k Hk. apply get_put_ne. congruence.
Qed.


Lemma offer_lower (r : reply) : offer (lower r) = offer r.
Proof. apply (proj2 (proj2 (lower_spec r))). discriminate. Qed.

Lemma message_lower (r : reply) : message (lower r) = message r.
Proof. apply (proj2 (proj2 (lower_spec r))). discriminate. Qed.

Lemma primitive_printable (v : value) : Value.is_object v = false -> printable v.
Proof. destruct v as [[]|]; simpl; intros H; try discriminate; unfold printable; simpl; discriminate. Qed.

Lemma primitive_to_number (v : value) :
  Value.is_object v = false -> Value.to_number v <> None.
Proof. destruct v as [[]|]; simpl; intros H; try discriminate H; discriminate. Qed.

(** A falsy value is not an object. *)
Lemma falsy_primitive (v : value) : Value.truthy v = false -> Value.is_object v = false.
Proof. destruct v as [[]|]; simpl; intros H; try discriminate; reflexivity. Qed.

Lemma shown_printable (r : reply) : printable (shown_offer r) <-> printable (offer r).
Proof.
  unfold shown_offer. destruct (Value.truthy (offer r)) eqn:Ht; [tauto|].
  split; intros _.
  - now apply primitive_printable, falsy_primitive.
  - unfold printable. simpl. discriminate.
Qed.

(** Only primitives are [===] to a value of another reply. *)
Lemma strict_eq_primitive (a b : value) :
  Value.strict_eq a b = true -> Value.is_object a = false /\ Value.is_object b = false.
Proof. destruct a as [[]|], b as [[]|]; simpl; intros H; try discriminate; auto. Qed.

Lemma strict_eq_null (a b : value) :
  Value.strict_eq a b = true -> Value.is_null a = Value.is_null b.
Proof. destruct a as [[]|], b as [[]|]; simpl; intros H; try discriminate; auto. Qed.

(** ** The deal claim *)

Lemma role_strict_neq_true (by_ : option role_t) (r : role_t) :
  role_strict_neq by_ r = true <-> by_ <> Some r.
Proof.
  destruct by_ as [[]|], r; simpl; split; intros; congruence.
Qed.

Lemma set_dealReached_id (l : locals) :
  set_dealReached (dealReached l) l = l.
Proof. destruct l; reflexivity. Qed.

Lemma validb_true (l : locals) (r : reply) :
  validb l r = true <-> claim_valid l r.
Proof.
  unfold validb, claim_valid.
  rewrite !andb_true_iff, negb_true_iff, role_strict_neq_true. tauto.
Qed.

Lemma validb_false (l : locals) (r : reply) :
  validb l r = false <-> ~ claim_valid l r.
Proof.
  rewrite <- validb_true. destruct (validb l r); split; intros; congruence.
Qed.






Lemma sink_logger (ln : line) (w : world) :
  sink (logger ln w) = sink w ++ [(calls w, ln)].
Proof. reflexivity. Qed.

Lemma process_offer_after_deal (l : locals) (r : reply) (w : world) :
  dealReached l = true -> process_offer l r w = (false, l, w).
Proof. intros H. unfold process_offer. now rewrite H. Qed.





Lemma dealReached_end_of_turn (l : locals) (r : reply) :
  dealReached (end_of_turn l r) = dealReached l.
Proof. reflexivity. Qed.

Lemma dealPrice_end_of_turn (l : locals) (r : reply) :
  dealPrice (end_of_turn l r) = dealPrice l.
Proof. reflexivity. Qed.

Lemma on_reply_unfold (l : locals) (w : world) (r : reply) :
  printable (message r) -> printable (offer r) ->
  on_reply l w r =
    match check_deal l r (logger (turn_line l r) w) with
    | Some c =>
        let p := process_offer c.1.1 c.1.2 c.2 in
        if p.1.1 then Break p.1.2 p.2 else Next (end_of_turn p.1.2 c.1.2) p.2
    | None => Throw "TypeError" (logger (turn_line l r) w)
    end.
Proof.
  intros Hm Ho. apply shown_printable in Ho. unfold on_reply, printable in *.
  destruct (Value.to_string (message r)); [|congruence].
  destruct (Value.to_string (shown_offer r)); [|congruence].
  fold (turn_line l r).
  destruct (check_deal l r _) as [[[l1 r1] w1]|]; [|reflexivity]. simpl.
  destruct (process_offer l1 r1 w1) as [[brk l2] w2]. reflexivity.
Qed.

(** A reply whose message or offer has no text raises a [TypeError] before
    anything is written. *)
Lemma on_reply_unprintable (l : locals) (w : world) (r : reply) :
  ~ (printable (message r) /\ printable (offer r)) ->
  on_reply l w r = Throw "TypeError" w.
Proof.
  intros Hn. unfold on_reply.
  destruct (Value.to_string (message r)) eqn:Hm; [|reflexivity].
  destruct (Value.to_string (shown_offer r)) eqn:Ho; [|reflexivity].
  exfalso. apply Hn. split; [unfold printable; congruence|].
  apply shown_printable. unfold printable. congruence.
Qed.

Lemma turn_body_replied (E : env) (l : locals) (w : world) (r : reply) :
  aborted E w = false ->
  generate E (calls w) = Replied r ->
  turn_body E l w = on_reply (set_turns (S (turns l)) l) (tick_calls w) r.
Proof. intros Ha Hg. unfold turn_body. now rewrite Ha, Hg. Qed.






(** ** What one pass through the loop does *)

Lemma same_store_refl (w : world) : same_store w w.
Proof. split; try reflexivity. exists []. now rewrite app_nil_r. Qed.

Lemma same_store_trans (w1 w2 w3 : world) :
  same_store w1 w2 -> same_store w2 w3 -> same_store w1 w3.
Proof.
  intros [F1 M1 [t1 S1]] [F2 M2 [t2 S2]].
  split; try congruence. exists (t1 ++ t2). rewrite S2, S1. now rewrite app_assoc.
Qed.

Lemma same_store_logger (ln : line) (w : world) : same_store w (logger ln w).
Proof. split; try reflexivity. eexists. reflexivity. Qed.

Lemma same_store_tick_calls (w : world) : same_store w (tick_calls w).
Proof. split; try reflexivity. exists []. simpl. now rewrite app_nil_r. Qed.

Lemma same_store_console_error (e : string) (w : world) :
  same_store w (console_error e w).
Proof. split; try reflexivity. exists []. simpl. now rewrite app_nil_r. Qed.

Lemma same_store_tick_rng (w : world) : same_store w (tick_rng w).
Proof. split; try reflexivity. exists []. simpl. now rewrite app_nil_r. Qed.

Lemma same_store_tick_clock (w : world) : same_store w (tick_clock w).
Proof. split; try reflexivity. exists []. simpl. now rewrite app_nil_r. Qed.

Ltac store_chain :=
  repeat first
    [ apply same_store_refl
    | eapply same_store_trans; [| apply same_store_logger ]
    | eapply same_store_trans; [| apply same_store_tick_calls ]
    | eapply same_store_trans; [| apply same_store_console_error ]
    | eapply same_store_trans; [| apply same_store_tick_rng ]
    | eapply same_store_trans; [| apply same_store_tick_clock ] ].

Ltac rewrite_eqns :=
  repeat match goal with
         | Hx : ?c = _ |- context [?c] => rewrite Hx
         end.

(** What [check_deal] gives, case by case. *)
Lemma check_deal_cases (l : locals) (r : reply) (w : world) :
  dealReached l = false ->
  match check_deal l r w with
  | Some (l1, r1, w1) =>
      r1 = logged l r /\
      l1 = (if honoured l r then set_dealReached true (set_dealPrice (offer r) l) else l) /\
      same_store w w1 /\ calls w1 = calls w
  | None => honoured l r = false /\ (~ printable (offer r) \/ ~ printable (lastOffer l))
  end.
Proof.
  intros Hdr. unfold check_deal, honoured, logged, validb.
  destruct (Value.truthy (deal r)) eqn:Hd; simpl;
    [|repeat split; auto; apply same_store_refl].
  destruct (negb (Value.is_null (lastOffer l))
            && role_strict_neq (lastOfferBy l) (role (deref l (activeAgent l)))) eqn:Hc;
    simpl.
  - destruct (Value.strict_eq (offer r) (lastOffer l)) eqn:He; simpl.
    + repeat split; auto. apply same_store_refl.
    + destruct (Value.to_string (offer r)) eqn:Ho;
        [destruct (Value.to_string (lastOffer l)) eqn:Hl|].
      * repeat split; [rewrite <- Hdr; apply set_dealReached_id | store_chain].
      * split; [reflexivity|]. right. intros H. now apply H.
      * split; [reflexivity|]. left. intros H. now apply H.
  - repeat split; [rewrite <- Hdr; apply set_dealReached_id | store_chain].
Qed.

(** What [process_offer] does, case by case. *)
Lemma process_offer_cases (l : locals) (r : reply) (w : world) :
  dealReached l = false ->
  match process_offer l r w with
  | (false, l1, w1) =>
      w1 = w /\
      (Value.is_null (offer r) = true -> consecutiveNulls l = 0) /\
      l1 = (if Value.is_null (offer r)
            then set_consecutiveNulls (S (consecutiveNulls l)) l
            else record_offer (offer r) (role (deref l (activeAgent l))) l)
  | (true, l1, w1) =>
      w1 = logger EndedTwoNulls w /\
      Value.is_null (offer r) = true /\ 1 <= consecutiveNulls l /\
      l1 = set_consecutiveNulls (S (consecutiveNulls l)) l
  end.
Proof.
  intros Hdr. unfold process_offer. rewrite Hdr. simpl.
  destruct (Value.is_null (offer r)); simpl;
    [|repeat split; auto; discriminate].
  destruct (consecutiveNulls l) as [|n]; simpl; repeat split; auto; lia.
Qed.

Lemma turn_body_Next (E : env) (l : locals) (w : world) (l' : locals) (w' : world) :
  dealReached l = false ->
  turn_body E l w = Next l' w' ->
  exists r, next_effect E l w l' w' r.
Proof.
  intros Hdr. unfold turn_body.
  destruct (aborted E w) eqn:Ha; [discriminate|].
  destruct (generate E (calls w)) as [r|err] eqn:Hg; [|discriminate].
  intros H. exists r.
  set (l0 := set_turns (S (turns l)) l) in H.
  assert (Hpr : printable (message r) /\ printable (offer r)).
  { destruct (Value.to_string (message r)) eqn:Hm;
      [destruct (Value.to_string (shown_offer r)) eqn:Ho|].
    - split; [unfold printable; congruence|].
      apply shown_printable. unfold printable. congruence.
    - unfold on_reply in H. rewrite Hm, Ho in H. discriminate.
    - unfold on_reply in H. rewrite Hm in H. discriminate. }
  destruct Hpr as [Hpm Hpo].
  rewrite (on_reply_unfold l0 _ r Hpm Hpo) in H.
  pose proof (check_deal_cases l0 r (logger (turn_line l0 r) (tick_calls w)) Hdr) as Hc.
  destruct (check_deal l0 r _) as [[[l1 r1] w1]|]; [|discriminate].
  destruct Hc as (Hr1 & Hl1 & Hs1 & Hc1). cbn [fst snd] in H.
  change (honoured l0 r) with (honoured l r) in Hl1.
  change (logged l0 r) with (logged l r) in Hr1.
  destruct (honoured l r) eqn:Hh.
  - (* the deal is reached *)
    subst l1. rewrite process_offer_after_deal in H by reflexivity. cbn [fst snd] in H.
    inversion H; subst l' w'. clear H.
    assert (Hlg : logged l r = r).
    { unfold logged. unfold honoured in Hh. apply andb_true_iff in Hh.
      destruct Hh as [_ Hv]. rewrite Hv. now rewrite andb_false_r. }
    rewrite Hlg in Hr1. subst r1.
    split; try assumption; try reflexivity; rewrite ?Hh, ?Hlg; try reflexivity.
    + discriminate.
    + simpl. now destruct (activeAgent l).
    + simpl. now destruct (activeAgent l).
    + eapply same_store_trans; [|exact Hs1]. store_chain.
  - subst l1.
    pose proof (process_offer_cases l0 r1 w1 Hdr) as Hp.
    assert (Hlg : offer (logged l r) = offer r /\ message (logged l r) = message r /\
                  usage (logged l r) = usage r).
    { unfold logged. destruct (_ && _); [|auto].
      rewrite offer_lower, message_lower. auto. }
    destruct Hlg as (Hof & Hmsg & Hus). rewrite <- Hr1 in Hof, Hmsg, Hus.
    rewrite Hof in Hp.
    destruct (process_offer l0 r1 w1) as [[[|] l2] w2]; cbn [fst snd] in H;
      [discriminate|].
    destruct Hp as (Hw2 & Hz & Hl2). inversion H; subst l' w'. clear H.
    subst l2 w2.
    split; try assumption; try reflexivity; rewrite ?Hh;
      try (destruct (Value.is_null (offer r)) eqn:Ho; simpl; rewrite ?Hus, ?Hr1;
           reflexivity).
    + destruct (Value.is_null (offer r)); simpl; exact Hdr.
    + intros _. exact Hz.
    + destruct (Value.is_null (offer r)); simpl; rewrite Hus;
        now destruct (activeAgent l).
    + destruct (Value.is_null (offer r)); simpl; rewrite Hus;
        now destruct (activeAgent l).
    + eapply same_store_trans; [|exact Hs1]. store_chain.
Qed.

Lemma turn_body_Break (E : env) (l : locals) (w : world) (l' : locals) (w' : world) :
  dealReached l = false ->
  turn_body E l w = Break l' w' ->
  exists r, break_effect E l w l' w' r.
Proof.
  intros Hdr. unfold turn_body.
  destruct (aborted E w) eqn:Ha; [discriminate|].
  destruct (generate E (calls w)) as [r|err] eqn:Hg; [|discriminate].
  intros H. exists r.
  set (l0 := set_turns (S (turns l)) l) in H.
  assert (Hpr : printable (message r) /\ printable (offer r)).
  { destruct (Value.to_string (message r)) eqn:Hm;
      [destruct (Value.to_string (shown_offer r)) eqn:Ho|].
    - split; [unfold printable; congruence|].
      apply shown_printable. unfold printable. congruence.
    - unfold on_reply in H. rewrite Hm, Ho in H. discriminate.
    - unfold on_reply in H. rewrite Hm in H. discriminate. }
  destruct Hpr as [Hpm Hpo].
  rewrite (on_reply_unfold l0 _ r Hpm Hpo) in H.
  pose proof (check_deal_cases l0 r (logger (turn_line l0 r) (tick_calls w)) Hdr) as Hc.
  destruct (check_deal l0 r _) as [[[l1 r1] w1]|]; [|discriminate].
  destruct Hc as (Hr1 & Hl1 & Hs1 & Hc1). cbn [fst snd] in H.
  change (honoured l0 r) with (honoured l r) in Hl1.
  change (logged l0 r) with (logged l r) in Hr1.
  destruct (honoured l r) eqn:Hh.
  - subst l1. rewrite process_offer_after_deal in H by reflexivity. discriminate.
  - subst l1.
    pose proof (process_offer_cases l0 r1 w1 Hdr) as Hp.
    assert (Hof : offer r1 = offer r).
    { subst r1. unfold logged. destruct (_ && _); [apply offer_lower | reflexivity]. }
    rewrite Hof in Hp.
    destruct (process_offer l0 r1 w1) as [[[|] l2] w2]; cbn [fst snd] in H;
      [|discriminate].
    destruct Hp as (Hw2 & Ho & Hs & Hl2). inversion H; subst l' w'. clear H.
    subst l2 w2.
    split; try assumption; try reflexivity.
    + eapply same_store_trans; [|apply same_store_logger].
      eapply same_store_trans; [|exact Hs1]. store_chain.
    + simpl. apply in_or_app. right. left. simpl in Hc1. rewrite Hc1. reflexivity.
Qed.

Lemma check_deal_None (l : locals) (r : reply) (w : world) :
  check_deal l r w = None -> ~ printable (offer r) \/ ~ printable (lastOffer l).
Proof.
  unfold check_deal.
  destruct (Value.truthy (deal r)); [|discriminate].
  destruct (_ && _); [|discriminate].
  destruct (Value.strict_eq _ _); [discriminate|].
  destruct (Value.to_string (offer r)) eqn:Ho;
    [destruct (Value.to_string (lastOffer l)) eqn:Hl; [discriminate|]|]; intros _.
  - right. intros H. now apply H.
  - left. intros H. now apply H.
Qed.

(** A pass raises an error when the signal is set at its start, when the
    agent's call fails, or when a value that a line shows has no text; in
    each case nothing was written to the store. *)
Lemma turn_body_Throw (E : env) (l : locals) (w : world) (err : string) (w' : world) :
  turn_body E l w = Throw err w' ->
  same_store w w' /\
  ((aborted E w = true /\ err = Benchmark_Aborted /\ w' = w) \/
   (aborted E w = false /\ generate E (calls w) = Failed err /\ calls w' = S (calls w)) \/
   (aborted E w = false /\ err = "TypeError" /\ calls w' = S (calls w) /\
    exists r, generate E (calls w) = Replied r /\
              (~ printable (message r) \/ ~ printable (offer r) \/
               ~ printable (lastOffer l)))).
Proof.
  unfold turn_body.
  destruct (aborted E w) eqn:Ha.
  - intros H. inversion H; subst. split; [apply same_store_refl | left; auto].
  - destruct (generate E (calls w)) as [r|e] eqn:Hg.
    + intros H.
      destruct (Value.to_string (message r)) eqn:Hm;
        [destruct (Value.to_string (shown_offer r)) eqn:Ho|].
      * assert (Hpm : printable (message r)) by (unfold printable; congruence).
        assert (Hpo : printable (offer r))
          by (apply shown_printable; unfold printable; congruence).
        rewrite (on_reply_unfold _ _ r Hpm Hpo) in H.
        destruct (check_deal _ r _) as [[[l1 r1] w1]|] eqn:Hc.
        -- exfalso. cbn zeta in H. destruct (process_offer _ _ _).1.1; discriminate.
        -- inversion H; subst. split; [store_chain|].
           right. right. split; [reflexivity|]. split; [reflexivity|].
           split; [reflexivity|]. exists r. split; [reflexivity|].
           destruct (check_deal_None _ _ _ Hc) as [Hx|Hx]; auto.
      * unfold on_reply in H. rewrite Hm, Ho in H. inversion H; subst.
        split; [store_chain|]. right. right. repeat split; auto.
        exists r. split; [reflexivity|]. right. left.
        intros Hp. apply shown_printable in Hp. now apply Hp.
      * unfold on_reply in H. rewrite Hm in H. inversion H; subst.
        split; [store_chain|]. right. right. repeat split; auto.
        exists r. split; [reflexivity|]. left. intros Hp. now apply Hp.
    + intros H. inversion H; subst. split; [store_chain | right; left; auto].
Qed.

(** ** The states that the loop goes through *)

Lemma visits_prepend (E : env) (l0 : locals) (w0 : world) (l1 : locals) (w1 : world)
    (l : locals) (w : world) :
  loop_test l0 = true ->
  turn_body E l0 w0 = Next l1 w1 ->
  visits E l1 w1 l w ->
  visits E l0 w0 l w.
Proof.
  intros Ht Hn Hv. induction Hv.
  - eapply visits_next; [apply visits_first | exact Ht | exact Hn].
  - eapply visits_next; eauto.
Qed.

Lemma loop_test_true (l : locals) :
  loop_test l = true <-> turns l < maxTurns /\ dealReached l = false.
Proof.
  unfold loop_test. rewrite andb_true_iff, Nat.ltb_lt, negb_true_iff. tauto.
Qed.

Lemma match_loop_Exited (E : env) (fuel : nat) (l0 : locals) (w0 : world)
    (lf : locals) (wf : world) :
  match_loop E fuel l0 w0 = Exited lf wf ->
  exists l w, visits E l0 w0 l w /\ ends_at E l w lf wf.
Proof.
  revert l0 w0. induction fuel as [|fuel IH]; intros l0 w0 H; [discriminate|].
  simpl in H. destruct (loop_test l0) eqn:Ht.
  - destruct (turn_body E l0 w0) as [l1 w1|l1 w1|err w1] eqn:Hb.
    + destruct (IH _ _ H) as (l & w & Hv & He).
      exists l, w. split; [eapply visits_prepend; eauto | exact He].
    + inversion H; subst. exists l0, w0. split; [apply visits_first|].
      right. auto.
    + discriminate.
  - inversion H; subst. exists lf, wf. split; [apply visits_first|].
    left. auto.
Qed.

Lemma match_loop_Raised (E : env) (fuel : nat) (l0 : locals) (w0 : world)
    (err : string) (wf : world) :
  match_loop E fuel l0 w0 = Raised err wf ->
  exists l w, visits E l0 w0 l w /\ loop_test l = true /\
              turn_body E l w = Throw err wf.
Proof.
  revert l0 w0. induction fuel as [|fuel IH]; intros l0 w0 H; [discriminate|].
  simpl in H. destruct (loop_test l0) eqn:Ht; [|discriminate].
  destruct (turn_body E l0 w0) as [l1 w1|l1 w1|e w1] eqn:Hb.
  - destruct (IH _ _ H) as (l & w & Hv & He).
    exists l, w. split; [eapply visits_prepend; eauto | exact He].
  - discriminate.
  - inversion H; subst. exists l0, w0. split; [apply visits_first | auto].
Qed.

(** The fuel that [runMatch] gives the loop is enough. *)
Lemma match_loop_fuel (E : env) (fuel : nat) (l : locals) (w : world) :
  maxTurns - turns l < fuel -> match_loop E fuel l w <> OutOfFuel.
Proof.
  revert l w. induction fuel as [|fuel IH]; intros l w Hf; [lia|].
  simpl. destruct (loop_test l) eqn:Ht; [|discriminate].
  apply loop_test_true in Ht. destruct Ht as [Hlt Hdr].
  destruct (turn_body E l w) as [l1 w1|l1 w1|e w1] eqn:Hb; try discriminate.
  destruct (turn_body_Next E l w l1 w1 Hdr Hb) as [r Hr].
  apply IH. rewrite (ne_turns _ _ _ _ _ _ Hr). lia.
Qed.

(** ** Invariants of the loop *)

Lemma speaker_ref_S (n : nat) : speaker_ref (S n) = opposite (speaker_ref n).
Proof.
  unfold speaker_ref. rewrite Nat.even_succ, <- Nat.negb_even.
  now destruct (Nat.even n).
Qed.

Lemma opposite_involutive (r : role_t) : opposite (opposite r) = r.
Proof. now destruct r. Qed.

Lemma same_identity_trackTokens (u : option nat) (a a0 : agent) :
  same_identity a a0 -> same_identity (trackTokens u a) a0.
Proof. destruct u; simpl; auto. Qed.

Lemma entry_of_identity (n : nat) (a a0 : agent) (r : reply) :
  same_identity a a0 -> entry_of n a r = entry_of n a0 r.
Proof. intros (Hn & _ & Hr). unfold entry_of. now rewrite Hn, Hr. Qed.

Lemma loop_inv_initial (E : env) (s0 b0 : agent) (w : world) :
  loop_inv E s0 b0 (calls w) (initial_locals s0 b0) w.
Proof.
  split; simpl.
  - lia.
  - reflexivity.
  - unfold maxTurns. lia.
  - reflexivity.
  - reflexivity.
  - repeat split.
  - repeat split.
  - intros i e H. rewrite lookup_nil in H. discriminate.
  - auto.
  - discriminate.
  - auto.
  - unfold printable. simpl. discriminate.
Qed.

Lemma deref_role (l : locals) (s0 b0 : agent) (ref : role_t) :
  role s0 = Seller -> role b0 = Buyer ->
  same_identity (seller l) s0 -> same_identity (buyer l) b0 ->
  role (deref l ref) = ref /\
  same_identity (deref l ref) (match ref with Seller => s0 | Buyer => b0 end).
Proof.
  intros Hs Hb Is Ib. destruct ref; simpl; split; auto.
  - destruct Is as (_ & _ & H). congruence.
  - destruct Ib as (_ & _ & H). congruence.
Qed.

Lemma validb_inv (l : locals) (r : reply) :
  validb l r = true ->
  Value.strict_eq (offer r) (lastOffer l) = true /\
  Value.is_null (lastOffer l) = false /\
  lastOfferBy l <> Some (role (deref l (activeAgent l))).
Proof.
  intros H. apply validb_true in H. destruct H as (Ho & Hby & Heq). auto.
Qed.

Lemma honoured_true (l : locals) (r : reply) :
  honoured l r = true <-> Value.truthy (deal r) = true /\ validb l r = true.
Proof. unfold honoured. apply andb_true_iff. Qed.

Lemma loop_inv_next (E : env) (s0 b0 : agent) (c0 : nat)
    (l : locals) (w : world) (l' : locals) (w' : world) (r : reply) :
  role s0 = Seller -> role b0 = Buyer ->
  loop_inv E s0 b0 c0 l w ->
  loop_test l = true ->
  next_effect E l w l' w' r ->
  loop_inv E s0 b0 c0 l' w'.
Proof.
  intros Hs Hb Hinv Ht Hr. apply loop_test_true in Ht. destruct Ht as [Hlt Hdr].
  destruct Hinv as [Ic Il Ib Ia Ip Is Ibu Ie Ipe Ide Isk Ipr].
  destruct Hr as [Na Ng Nm No Nt Nd Np Nl Nlo Nlb Ncn Nnb Nac Npa Nse Nbu Nca Nst].
  destruct (deref_role l s0 b0 (activeAgent l) Hs Hb Is Ibu) as [Hrole Hid].
  split.
  - rewrite Nca, Nt, Ic. lia.
  - rewrite Nl, length_app, Il, Nt. simpl. lia.
  - rewrite Nt. lia.
  - rewrite Nac, Nt, Ip. symmetry. apply speaker_ref_S.
  - rewrite Npa, Nt, Ia, speaker_ref_S. symmetry. apply opposite_involutive.
  - rewrite Nse. destruct (activeAgent l); auto using same_identity_trackTokens.
  - rewrite Nbu. destruct (activeAgent l); auto using same_identity_trackTokens.
  - intros i e He. rewrite Nl in He. apply lookup_app_Some in He.
    destruct He as [He | [Hge He]].
    + destruct (Ie i e He) as (r0 & lw & H0 & H1 & H2 & H3).
      exists r0, lw. split; [exact H0|]. split; [exact H1|]. split; [exact H2|].
      intros Hlw Hd. destruct (H3 Hlw Hd) as [Hc _]. congruence.
    + apply list_lookup_singleton_Some in He. destruct He as [Hi He].
      assert (i = turns l) by lia. subst i. clear Hge Hi.
      exists r, (Value.truthy (deal r) && negb (validb l r)).
      split; [now rewrite <- Ic|]. split; [|split].
      * subst e. rewrite <- Ia. unfold logged.
        apply entry_of_identity. exact Hid.
      * intros H. now apply andb_true_iff in H.
      * intros Hlw Hd. rewrite Hd in Hlw. simpl in Hlw.
        apply negb_false_iff in Hlw.
        assert (Hh : honoured l r = true) by (apply honoured_true; auto).
        rewrite Nd, Nt. auto.
  - intros Hdr'. rewrite Nd in Hdr'.
    rewrite Np, Nlo, Nlb, Ncn, Nac, Npa. rewrite Hdr'.
    destruct (Ipe Hdr) as [Hp Hj]. split; [exact Hp|].
    destruct (Value.is_null (offer r)) eqn:Ho.
    + specialize (Nnb Hdr' eq_refl).
      destruct Hj as [Hj | [[_ Hj] | [Hj _]]]; [now left| |lia].
      right. right. split; [lia | exact Hj].
    + right. left. split; [reflexivity|]. now rewrite Hrole.
  - intros Hdr'. rewrite Nd in Hdr'.
    split; [rewrite Nt; lia|].
    rewrite Np, Nlo, Nlb, Nac. rewrite Hdr'.
    apply honoured_true in Hdr'. destruct Hdr' as [_ Hv].
    destruct (validb_inv l r Hv) as (Heq & Hp & Hby).
    repeat split; auto.
    rewrite Hrole in Hby.
    destruct (Ipe Hdr) as [_ [Hj | [[_ Hj] | [_ Hj]]]]; congruence.
  - intros Hdr'. rewrite Nd in Hdr'.
    rewrite Ncn, Nt. rewrite Hdr'.
    replace (c0 + (S (turns l) - 1)) with (calls w) by lia.
    destruct (Value.is_null (offer r)) eqn:Ho.
    + split; [lia|]. exists r. auto.
    + right. exists r. auto.
  - rewrite Nlo. destruct (honoured l r); [exact Ipr|].
    destruct (Value.is_null (offer r)); [exact Ipr | exact No].
Qed.

Lemma loop_inv_visits (E : env) (s0 b0 : agent) (w0 : world) (l : locals) (w : world) :
  role s0 = Seller -> role b0 = Buyer ->
  visits E (initial_locals s0 b0) w0 l w ->
  loop_inv E s0 b0 (calls w0) l w /\ same_store w0 w.
Proof.
  intros Hs Hb Hv. induction Hv as [|l w l' w' Hv [IH IHs] Ht Hn].
  - split; [apply loop_inv_initial | apply same_store_refl].
  - pose proof Ht as Ht'. apply loop_test_true in Ht'. destruct Ht' as [_ Hdr].
    destruct (turn_body_Next E l w l' w' Hdr Hn) as [r Hr].
    split.
    + eapply loop_inv_next; eauto.
    + eapply same_store_trans; [exact IHs | exact (ne_store _ _ _ _ _ _ Hr)].
Qed.

Lemma exit_inv_ends (E : env) (s0 b0 : agent) (w0 : world)
    (l : locals) (w : world) (lf : locals) (wf : world) :
  role s0 = Seller -> role b0 = Buyer ->
  visits E (initial_locals s0 b0) w0 l w ->
  ends_at E l w lf wf ->
  exit_inv E s0 b0 (calls w0) lf /\ same_store w0 wf /\ calls w0 <= calls wf.
Proof.
  intros Hs Hb Hv He.
  destruct (loop_inv_visits E s0 b0 w0 l w Hs Hb Hv) as [Hinv Hst].
  destruct Hinv as [Ic Il Ib Ia Ip Is Ibu Ie Ipe Ide Isk Ipr].
  destruct He as [(Ht & -> & ->) | (Ht & Hbr)].
  - split; [|split; [exact Hst | lia]]. split; auto.
    + intros i e Hi. rewrite Il. auto.
    + intros Hd. apply Ipe in Hd. tauto.
    + intros Hd. split; [exact Il|]. destruct (Ide Hd) as (_ & Heq & Hnn & _).
      split.
      * now rewrite (strict_eq_null _ _ Heq).
      * now apply strict_eq_primitive in Heq.
  - apply loop_test_true in Ht. destruct Ht as [Hlt Hdr].
    destruct (turn_body_Break E l w lf wf Hdr Hbr) as [r Hr].
    destruct Hr as [Ba Bg Bo Bh Bs Bt Bd Bp Bl Bse Bbu Bc Bst Bln].
    split; [|split; [eapply same_store_trans; eauto | lia]].
    split.
    + intros i e Hi. rewrite Bl in Hi |- *.
      destruct (Ie i e Hi) as (r0 & lw & H0 & H1 & H2 & H3).
      exists r0, lw. split; [exact H0|]. split; [exact H1|]. split; [exact H2|].
      intros Hlw Hd. destruct (H3 Hlw Hd) as [Hc _]. congruence.
    + right. rewrite Bl, Il, Bt. auto.
    + rewrite Bt. lia.
    + intros _. rewrite Bp. apply Ipe in Hdr. tauto.
    + congruence.
    + now rewrite Bse.
    + now rewrite Bbu.
Qed.

(** ** The result of a match *)

Lemma setup_Some (E : env) (runId : string) (bc sc : conf) (w : world)
    (x : scenario_t * float * float) (w0 : world) :
  setup E runId bc sc w = (Some x, w0) ->
  calls w0 = calls w /\ same_store w w0.
Proof.
  unfold setup. destruct (pick_scenario _); [|discriminate].
  intros H. inversion H; subst. split; [reflexivity | store_chain].
Qed.

(** The price of a deal has a text and a number: the scoring raises no
    error. *)
Lemma scores_defined (E : env) (s0 b0 : agent) (c0 : nat) (lf : locals) (se be : float) :
  exit_inv E s0 b0 c0 lf -> scores lf se be <> None.
Proof.
  intros Hx. unfold scores.
  destruct (dealReached lf) eqn:Hd; [|discriminate]. simpl.
  destruct (Value.truthy (dealPrice lf)); [|discriminate].
  destruct (xi_deal _ _ _ _ _ Hx Hd) as (_ & _ & Hobj).
  pose proof (primitive_printable _ Hobj) as Hp.
  pose proof (primitive_to_number _ Hobj) as Hn.
  unfold printable in Hp.
  destruct (Value.to_string (dealPrice lf)); [|congruence].
  destruct (Value.to_number (dealPrice lf)); [discriminate|congruence].
Qed.

(** What a returning [runMatch] went through. *)
Lemma runMatch_Returned (E : env) (runId : string) (bc sc : conf)
    (tid : option string) (w : world) (res : match_result) (w' : world) :
  runMatch E runId bc sc tid w = (Returned res, w') ->
  exists scn se be w0 lf wf sb,
    setup E runId bc sc w = (Some (scn, se, be), w0) /\
    aborted E w0 = false /\
    exit_inv E (new_Agent (conf_name sc) (conf_modelId sc) Seller)
               (new_Agent (conf_name bc) (conf_modelId bc) Buyer) (calls w) lf /\
    same_store w wf /\ calls w <= calls wf /\
    scores lf se be = Some sb /\
    finish E runId tid scn se be sb lf wf = (res, w').
Proof.
  unfold runMatch.
  destruct (setup E runId bc sc w) as [[[[scn se] be]|] w0] eqn:Hsetup;
    [|discriminate].
  destruct (aborted E w0) eqn:Ha; [discriminate|].
  destruct (match_loop E (S maxTurns) _ w0) as [lf wf|err wf|] eqn:Hloop;
    try discriminate.
  destruct (scores lf se be) as [sb|] eqn:Hsc; [|discriminate].
  destruct (finish E runId tid scn se be sb lf wf) as [result w''] eqn:Hfin.
  intros H. inversion H; subst.
  destruct (setup_Some _ _ _ _ _ _ _ Hsetup) as [Hc Hs0].
  destruct (match_loop_Exited _ _ _ _ _ _ Hloop) as (l & wl & Hv & He).
  destruct (exit_inv_ends E (new_Agent (conf_name sc) (conf_modelId sc) Seller)
              (new_Agent (conf_name bc) (conf_modelId bc) Buyer)
              w0 l wl lf wf eq_refl eq_refl Hv He) as (Hx & Hs1 & Hle).
  rewrite Hc in Hx, Hle.
  exists scn, se, be, w0, lf, wf, sb.
  split; [reflexivity|]. split; [exact Ha|]. split; [exact Hx|].
  split; [eapply same_store_trans; eauto|]. split; [exact Hle|].
  split; [exact Hsc | exact Hfin].
Qed.

(** ** Scores *)

Lemma finish_spec (E : env) (runId : string) (tid : option string)
    (scn : scenario_t) (se be : float) (sb : float * float) (l : locals) (w : world)
    (res : match_result) (w' : world) :
  finish E runId tid scn se be sb l w = (res, w') ->
  r_id res = runId /\
  r_dealReached res = dealReached l /\ r_dealPrice res = dealPrice l /\
  r_turns res = turns l /\ r_logs res = logs l /\
  s_estimate (r_seller res) = se /\ s_estimate (r_buyer res) = be /\
  (s_score (r_seller res), s_score (r_buyer res)) = sb /\
  persisted res w w' /\ calls w' = calls w.
Proof.
  unfold finish. destruct sb as [ss bs].
  intros H. inversion H; subst; clear H. simpl.
  repeat split; reflexivity.
Qed.

Lemma scores_no_deal (l : locals) (se be : float) :
  dealReached l = false -> scores l se be = Some (0, 0)%float.
Proof. intros H. unfold scores. now rewrite H. Qed.

(** C3.  A match that ends without a deal (the turn cap is exhausted, or two
    turns in a row carried no offer) records the score 0.0 for both sides,
    in its result file and in its manifest entry. *)
Theorem no_deal_scores_zero (E : env) (runId : string) (buyerConf sellerConf : conf)
    (tid : option string) (w : world) (res : match_result) (w' : world) :
  runMatch E runId buyerConf sellerConf tid w = (Returned res, w') ->
  r_dealReached res = false ->
  s_score (r_seller res) = 0%float /\ s_score (r_buyer res) = 0%float /\
  files w' !! runId = Some res /\
  exists rest, manifest w' = Some (summary res :: rest) /\
               ms_score (me_seller (summary res)) = 0%float /\
               ms_score (me_buyer (summary res)) = 0%float.
Proof.
  intros Hrun Hnd.
  destruct (runMatch_Returned _ _ _ _ _ _ _ _ Hrun)
    as (scn & se & be & w0 & lf & wf & sb & _ & _ & _ & _ & _ & Hscores & Hfin).
  destruct (finish_spec _ _ _ _ _ _ _ _ _ _ _ Hfin)
    as (Hid & Hdr & _ & _ & _ & _ & _ & Hsc & [Hf Hm] & _).
  rewrite Hdr in Hnd. rewrite (scores_no_deal lf se be Hnd) in Hscores.
  rewrite <- Hsc in Hscores. inversion Hscores as [[Hss Hbs]].
  split; [reflexivity|]. split; [reflexivity|]. split.
  - rewrite Hf, Hid. apply lookup_insert_eq.
  - eexists. split; [exact Hm|]. simpl. now rewrite <- Hss, <- Hbs.
Qed.

(** Both agents keep silent: the match ends on its second turn. *)
Lemma no_deal_scores_zero_witness :
  exists res w',
    runMatch (script [] None) "1_1" conf_B conf_A None empty_world = (Returned res, w') /\
    r_dealReached res = false /\ r_turns res = 2 /\
    s_score (r_seller res) = 0%float /\ s_score (r_buyer res) = 0%float.
Proof.
  destruct (runMatch (script [] None) "1_1" conf_B conf_A None empty_world)
    as [[res| |] w'] eqn:Hrun;
    [| exfalso; vm_compute in Hrun; discriminate ..].
  assert (Hnd : r_dealReached res = false /\ r_turns res = 2).
  { pose proof (f_equal (fun x => match x.1 with
                                  | Returned r => (r_dealReached r, r_turns r)
                                  | _ => (true, 0)
                                  end) Hrun) as Hp.
    vm_compute in Hp. inversion Hp. split; symmetry; assumption. }
  exists res, w'. split; [reflexivity|].
  destruct Hnd as [Hnd Ht].
  split; [exact Hnd|]. split; [exact Ht|].
  destruct (no_deal_scores_zero _ _ _ _ _ _ _ _ Hrun Hnd) as (H1 & H2 & _).
  split; [exact H1 | exact H2].
Defined.

(** The scores of a match that ends in a deal at the price [P]: the formula
    on the number of [P] when [P] is truthy, and 0.0 (the no-deal value)
    when it is not. *)
Lemma deal_scores (E : env) (runId : string) (buyerConf sellerConf : conf)
    (tid : option string) (w : world) (res : match_result) (w' : world) :
  runMatch E runId buyerConf sellerConf tid w = (Returned res, w') ->
  r_dealReached res = true ->
  exists P, Value.to_number (r_dealPrice res) = Some P /\
    (Value.truthy (r_dealPrice res) = true ->
     s_score (r_seller res)
     = ((P - s_estimate (r_seller res)) / s_estimate (r_seller res))%float /\
     s_score (r_buyer res)
     = ((s_estimate (r_buyer res) - P) / s_estimate (r_buyer res))%float) /\
    (Value.truthy (r_dealPrice res) = false ->
     s_score (r_seller res) = 0%float /\ s_score (r_buyer res) = 0%float).
Proof.
  intros Hrun Hd.
  destruct (runMatch_Returned _ _ _ _ _ _ _ _ Hrun)
    as (scn & se & be & w0 & lf & wf & sb & _ & _ & Hx & _ & _ & Hscores & Hfin).
  destruct (finish_spec _ _ _ _ _ _ _ _ _ _ _ Hfin)
    as (_ & Hdr & Hp & _ & _ & Hse & Hbe & Hsc & _ & _).
  rewrite Hdr in Hd. destruct (xi_deal _ _ _ _ _ Hx Hd) as (_ & _ & Hobj).
  pose proof (primitive_to_number _ Hobj) as Hn.
  pose proof (primitive_printable _ Hobj) as Hpr. unfold printable in Hpr.
  rewrite Hp, Hse, Hbe.
  destruct (Value.to_number (dealPrice lf)) as [P|] eqn:HP; [|congruence].
  exists P. split; [reflexivity|].
  unfold scores in Hscores. rewrite Hd, HP in Hscores. simpl in Hscores.
  destruct (Value.to_string (dealPrice lf)); [|congruence].
  rewrite <- Hsc in Hscores.
  split; intros Ht; rewrite Ht in Hscores; inversion Hscores; auto.
Qed.

(** C2.  The seller offers 0, the buyer accepts it with [deal: true,
    offer: 0].  The engine accepts the deal ([dealReached] is true and
    [dealPrice] is 0), but line 159 tests [dealReached && dealPrice] and 0 is
    falsy: both recorded scores are 0.0 where the formulas give
    [(0 - 50000) / 50000 = -1] and [(50000 - 0) / 50000 = 1], and the line
    written is the one of NO DEAL. *)
Theorem zero_price_deal_scores :
  exists res w',
    runMatch (script [say (Some 0%float) false; say (Some 0%float) true] None)
      "1_1" conf_B conf_A None empty_world = (Returned res, w') /\
    r_dealReached res = true /\ r_dealPrice res = Value.number 0 /\
    s_estimate (r_seller res) = 50000%float /\
    s_estimate (r_buyer res) = 50000%float /\
    s_score (r_seller res) = 0%float /\ s_score (r_buyer res) = 0%float /\
    ((0 - 50000) / 50000 = -1)%float /\ ((50000 - 0) / 50000 = 1)%float /\
    s_score (r_seller res)
    <> ((0 - s_estimate (r_seller res)) / s_estimate (r_seller res))%float /\
    List.last (sink w') (0, NoDealLine) = (2, NoDealLine).
Proof.
  destruct (runMatch _ "1_1" conf_B conf_A None empty_world)
    as [[res| |] w'] eqn:Hrun;
    [| exfalso; vm_compute in Hrun; discriminate ..].
  pose proof (f_equal (fun x => match x.1 with
                                | Returned r =>
                                    Some (r_dealReached r, r_dealPrice r,
                                          s_estimate (r_seller r), s_estimate (r_buyer r),
                                          s_score (r_seller r), s_score (r_buyer r),
                                          List.last (sink x.2) (0, NoDealLine))
                                | _ => None
                                end) Hrun) as Hp.
  vm_compute in Hp. inversion Hp as [[H1 H2 H3 H4 H5 H6 H7]]. clear Hp.
  assert (Hse : s_estimate (r_seller res) = 50000%float) by (symmetry; exact H3).
  assert (Hss : s_score (r_seller res) = 0%float) by (symmetry; exact H5).
  exists res, w'.
  split; [reflexivity|]. split; [symmetry; exact H1|]. split; [symmetry; exact H2|].
  split; [exact Hse|]. split; [symmetry; exact H4|].
  split; [exact Hss|]. split; [symmetry; exact H6|].
  split; [reflexivity|]. split; [reflexivity|]. split.
  - rewrite Hss, Hse. intros H.
    pose proof (f_equal (fun z => PrimFloat.eqb z 0) H) as Hz.
    vm_compute in Hz. discriminate.
  - symmetry. exact H7.
Qed.

(** ** The log *)

(** The entries of the log are numbered 1, 2, ... in order. *)
Lemma log_turns_seq (E : env) (s0 b0 : agent) (c0 : nat) (lf : locals) :
  exit_inv E s0 b0 c0 lf -> map log_turn (logs lf) = seq 1 (length (logs lf)).
Proof.
  intros Hx. apply list_eq. intros i.
  rewrite list_lookup_fmap.
  destruct (logs lf !! i) as [e|] eqn:He; simpl.
  - destruct (xi_entries _ _ _ _ _ Hx i e He) as (r0 & lw & _ & -> & _). simpl.
    symmetry. apply lookup_seq. split; [reflexivity|].
    now apply lookup_lt_Some in He.
  - symmetry. apply lookup_seq_ge. now apply lookup_ge_None in He.
Qed.

(** The log of a result has one entry for each turn except, when the match
    was ended by the second turn in a row without an offer, that turn. *)
Lemma log_covers_turns (E : env) (runId : string) (buyerConf sellerConf : conf)
    (tid : option string) (w : world) (res : match_result) (w' : world) :
  runMatch E runId buyerConf sellerConf tid w = (Returned res, w') ->
  map log_turn (r_logs res) = seq 1 (length (r_logs res)) /\
  (length (r_logs res) = r_turns res \/
   (S (length (r_logs res)) = r_turns res /\ r_dealReached res = false)).
Proof.
  intros Hrun.
  destruct (runMatch_Returned _ _ _ _ _ _ _ _ Hrun)
    as (scn & se & be & w0 & lf & wf & sb & _ & _ & Hx & _ & _ & _ & Hfin).
  destruct (finish_spec _ _ _ _ _ _ _ _ _ _ _ Hfin)
    as (_ & Hdr & _ & Ht & Hl & _).
  rewrite Hl, Ht, Hdr. split; [eapply log_turns_seq; eauto | apply (xi_length _ _ _ _ _ Hx)].
Qed.

(** C5.  Both agents answer without an offer.  The match ends on its second
    turn: the recorded turn count is 2, but line 131 leaves the loop before
    line 136, and the log holds the entry of turn 1 only. *)
Theorem breaking_turn_not_logged :
  exists res w',
    runMatch (script [say None false; say None false] None)
      "1_1" conf_B conf_A None empty_world = (Returned res, w') /\
    r_dealReached res = false /\ r_turns res = 2 /\
    map log_turn (r_logs res) = [1] /\
    files w' !! "1_1" = Some res.
Proof.
  destruct (runMatch _ "1_1" conf_B conf_A None empty_world)
    as [[res| |] w'] eqn:Hrun;
    [| exfalso; vm_compute in Hrun; discriminate ..].
  pose proof (f_equal (fun x => match x.1 with
                                | Returned r =>
                                    Some (r_dealReached r, r_turns r,
                                          map log_turn (r_logs r))
                                | _ => None
                                end) Hrun) as Hp.
  vm_compute in Hp. inversion Hp as [[H1 H2 H3]]. clear Hp.
  exists res, w'.
  split; [reflexivity|]. split; [symmetry; exact H1|]. split; [symmetry; exact H2|].
  split; [symmetry; exact H3|].
  destruct (runMatch_Returned _ _ _ _ _ _ _ _ Hrun)
    as (scn & se & be & w0 & lf & wf & sb & _ & _ & _ & _ & _ & _ & Hfin).
  destruct (finish_spec _ _ _ _ _ _ _ _ _ _ _ Hfin)
    as (Hid & _ & _ & _ & _ & _ & _ & _ & [Hf _] & _).
  rewrite Hf, Hid. apply lookup_insert_eq.
Qed.

(** In the result that a match persists, a log entry has a truthy [deal]
    only if it is the last entry and the match reached a deal.  Every entry
    is the reply that the agent gave on that turn, without the usage, as it
    was or with [deal] set to [false]: a deal claim that is not the accepted
    one of the last turn is logged with [deal] equal to [false]. *)
Lemma deal_flag_in_log (E : env) (runId : string) (buyerConf sellerConf : conf)
    (tid : option string) (w : world) (res : match_result) (w' : world) :
  runMatch E runId buyerConf sellerConf tid w = (Returned res, w') ->
  files w' !! runId = Some res /\
  forall i e, r_logs res !! i = Some e ->
    (Value.truthy (deal (log_content e)) = true ->
     r_dealReached res = true /\ S i = length (r_logs res)) /\
    exists r0,
      generate E (calls w + i) = Replied r0 /\ log_turn e = S i /\
      (log_content e = without_usage r0 \/ log_content e = without_usage (lower r0)) /\
      (Value.truthy (deal (log_content e)) = true -> Value.truthy (deal r0) = true) /\
      (Value.truthy (deal r0) = true ->
       r_dealReached res = false \/ S i <> length (r_logs res) ->
       deal (log_content e) = Value.boolean false).
Proof.
  intros Hrun.
  destruct (runMatch_Returned _ _ _ _ _ _ _ _ Hrun)
    as (scn & se & be & w0 & lf & wf & sb & _ & _ & Hx & _ & _ & _ & Hfin).
  destruct (finish_spec _ _ _ _ _ _ _ _ _ _ _ Hfin)
    as (Hid & Hdr & _ & _ & Hl & _ & _ & _ & [Hf _] & _).
  split; [rewrite Hf, Hid; apply lookup_insert_eq|].
  intros i e He. rewrite Hl in He. rewrite Hl, Hdr.
  destruct (xi_entries _ _ _ _ _ Hx i e He) as (r0 & lw & H0 & H1 & H2 & H3).
  assert (Hd : deal (log_content e) = if lw then Value.boolean false else deal r0).
  { rewrite H1. destruct lw; simpl; [apply (proj1 (lower_spec r0)) | reflexivity]. }
  split.
  - intros Ht. rewrite Hd in Ht. destruct lw; [discriminate|]. now apply H3.
  - exists r0. split; [exact H0|]. split; [rewrite H1; reflexivity|].
    split; [rewrite H1; destruct lw; auto|].
    split.
    + intros Ht. rewrite Hd in Ht. now destruct lw.
    + intros Ht Hnot. rewrite Hd. destruct lw; [reflexivity|].
      destruct (H3 eq_refl Ht). destruct Hnot; congruence.
Qed.

Lemma deal_flag_in_log_witness :
  exists res w',
    runMatch haggle "1_1" conf_B conf_A None empty_world = (Returned res, w') /\
    map (fun e => Value.truthy (deal (log_content e))) (r_logs res)
    = [false; false; false; true] /\
    files w' !! "1_1" = Some res.
Proof.
  destruct (runMatch haggle "1_1" conf_B conf_A None empty_world)
    as [[res| |] w'] eqn:Hrun;
    [| exfalso; vm_compute in Hrun; discriminate ..].
  pose proof (f_equal (fun x => match x.1 with
                                | Returned r =>
                                    Some (map (fun e => Value.truthy (deal (log_content e)))
                                            (r_logs r))
                                | _ => None
                                end) Hrun) as Hp.
  vm_compute in Hp. inversion Hp as [H1]. clear Hp.
  exists res, w'. split; [reflexivity|]. split; [symmetry; exact H1|].
  exact (proj1 (deal_flag_in_log haggle "1_1" conf_B conf_A None empty_world
                  res w' Hrun)).
Defined.

(** C10.  The seller makes no offer; the buyer claims a deal and makes no
    offer either.  The engine rejects the claim (there is nothing to
    accept), and the silence rule leaves the loop on that very turn, before
    line 136: the persisted result counts two turns, and its log holds the
    entry of turn 1 only.  The rejected claim of turn 2 is in no log
    entry. *)
Theorem rejected_claim_not_logged :
  exists res w',
    runMatch (script [say None false; say None true] None)
      "1_1" conf_B conf_A None empty_world = (Returned res, w') /\
    generate (script [say None false; say None true] None) 1
    = Replied (schema_reply None true) /\
    r_turns res = 2 /\
    map log_turn (r_logs res) = [1] /\
    map (fun e => deal (log_content e)) (r_logs res) = [Value.boolean false] /\
    map snd (sink w')
    = [ StartingMatch "1_1"; Matchup "B" "A";
        ItemLine "Premium Domain Name 'AI-Agent.com'" 50000;
        EstimatesLine 50000 50000;
        TurnLine "A" (Value.text "m") (Value.text "None");
        TurnLine "B" (Value.text "m") (Value.text "None");
        RejectedNoValidOffer; EndedTwoNulls; NoDealLine ] /\
    files w' !! "1_1" = Some res.
Proof.
  destruct (runMatch _ "1_1" conf_B conf_A None empty_world)
    as [[res| |] w'] eqn:Hrun;
    [| exfalso; vm_compute in Hrun; discriminate ..].
  pose proof (f_equal (fun x => match x.1 with
                                | Returned r =>
                                    Some (r_turns r, map log_turn (r_logs r),
                                          map (fun e => deal (log_content e)) (r_logs r),
                                          map snd (sink x.2))
                                | _ => None
                                end) Hrun) as Hp.
  vm_compute in Hp. inversion Hp as [[H1 H2 H3 H4]]. clear Hp.
  exists res, w'.
  split; [reflexivity|]. split; [reflexivity|]. split; [symmetry; exact H1|].
  split; [symmetry; exact H2|]. split; [symmetry; exact H3|].
  split; [symmetry; exact H4|].
  exact (proj1 (deal_flag_in_log _ "1_1" conf_B conf_A None empty_world res w' Hrun)).
Qed.


(** ** Silence *)

Lemma validb_no_offer (l : locals) (r : reply) :
  Value.is_null (offer r) = true -> validb l r = false.
Proof.
  intros Ho. apply validb_false. intros (Hl & _ & Heq).
  apply strict_eq_null in Heq. congruence.
Qed.

Lemma honoured_no_offer (l : locals) (r : reply) :
  Value.is_null (offer r) = true -> honoured l r = false.
Proof. intros Ho. unfold honoured. rewrite (validb_no_offer l r Ho). apply andb_false_r. Qed.

(** A match cannot go past the second of two turns in a row whose offer is
    [null]. *)
Lemma silent_pair_exit (E : env) (s0 b0 : agent) (c0 : nat) (fuel : nat) :
  role s0 = Seller -> role b0 = Buyer ->
  forall (l : locals) (w : world) (lf : locals) (wf : world),
    loop_inv E s0 b0 c0 l w ->
    match_loop E fuel l w = Exited lf wf ->
    forall k r1 r2,
      turns l <= S k ->
      generate E (c0 + k) = Replied r1 -> generate E (c0 + S k) = Replied r2 ->
      Value.is_null (offer r1) = true -> Value.is_null (offer r2) = true ->
      k + 2 <= turns lf ->
      turns lf = k + 2 /\ dealReached lf = false.
Proof.
  intros Hs Hb. induction fuel as [|fuel IH]; intros l w lf wf Hinv Hloop;
    [discriminate|].
  intros k r1 r2 Hk H1 H2 Ho1 Ho2 Hge.
  simpl in Hloop. destruct (loop_test l) eqn:Ht.
  - pose proof Ht as Ht'. apply loop_test_true in Ht'. destruct Ht' as [_ Hdr].
    destruct (turn_body E l w) as [l1 w1|l1 w1|err w1] eqn:Hb'; [| |discriminate].
    + destruct (turn_body_Next E l w l1 w1 Hdr Hb') as [r Hr].
      pose proof (loop_inv_next E s0 b0 c0 l w l1 w1 r Hs Hb Hinv Ht Hr) as Hinv1.
      destruct (Nat.eq_dec (turns l) (S k)) as [Heq|Hne].
      * exfalso.
        pose proof (ne_reply _ _ _ _ _ _ Hr) as Hg.
        rewrite (li_calls _ _ _ _ _ _ Hinv), Heq, H2 in Hg.
        inversion Hg; subst r.
        assert (Hz : consecutiveNulls l = 0).
        { apply (ne_no_break _ _ _ _ _ _ Hr); [now apply honoured_no_offer | exact Ho2]. }
        pose proof (li_streak _ _ _ _ _ _ Hinv Hdr) as Hsk.
        rewrite Hz, Heq in Hsk. destruct Hsk as [Hsk | (r' & Hg' & Ho')]; [lia|].
        replace (c0 + (S k - 1)) with (c0 + k) in Hg' by lia.
        rewrite H1 in Hg'. inversion Hg'; subst r'. congruence.
      * apply (IH l1 w1 lf wf Hinv1 Hloop k r1 r2); auto.
        rewrite (ne_turns _ _ _ _ _ _ Hr). lia.
    + inversion Hloop; subst.
      destruct (turn_body_Break E l w lf wf Hdr Hb') as [r Hr].
      pose proof (be_turns _ _ _ _ _ _ Hr) as Bt.
      pose proof (be_dealReached _ _ _ _ _ _ Hr) as Bd.
      split; [lia | exact Bd].
  - inversion Hloop; subst. lia.
Qed.

(** With a reply and a pending offer that have a text, a pass raises no
    error. *)
Lemma turn_body_no_throw (E : env) (l : locals) (w : world) (r : reply) :
  aborted E w = false -> generate E (calls w) = Replied r ->
  printable (message r) -> printable (offer r) -> printable (lastOffer l) ->
  (exists l' w', turn_body E l w = Next l' w') \/
  (exists l' w', turn_body E l w = Break l' w').
Proof.
  intros Ha Hg Hpm Hpo Hpl.
  destruct (turn_body E l w) as [l' w'|l' w'|err w'] eqn:Hb; eauto.
  destruct (turn_body_Throw E l w err w' Hb)
    as [_ [(H & _) | [(_ & H & _) | (_ & _ & _ & r' & Hr' & Hn)]]]; try congruence.
  rewrite Hg in Hr'. inversion Hr'; subst r'. tauto.
Qed.

(** Two turns in a row whose offer is [null] end the match as NO_DEAL on
    the second of them, whatever is left of the 12 turns; a turn whose offer
    is not [null] leaves the streak at zero.  First for the result of a
    whole match (the replies number [k] and [k + 1] carry the offer [null]:
    the match does not go beyond turn [k + 2], and it ends without a deal),
    then for every state in which the loop takes a turn ([consecutiveNulls]
    is 1 exactly after a turn whose offer was [null]). *)
Lemma silence_ends_match (E : env) (runId : string) (buyerConf sellerConf : conf)
    (tid : option string) (w : world) :
  (forall res w',
     runMatch E runId buyerConf sellerConf tid w = (Returned res, w') ->
     forall k r1 r2,
       generate E (calls w + k) = Replied r1 ->
       generate E (calls w + S k) = Replied r2 ->
       Value.is_null (offer r1) = true -> Value.is_null (offer r2) = true ->
       k + 2 <= r_turns res ->
       r_turns res = k + 2 /\ r_dealReached res = false) /\
  (forall w0 l wl,
     visits E (initial_locals (new_Agent (conf_name sellerConf) (conf_modelId sellerConf) Seller)
                              (new_Agent (conf_name buyerConf) (conf_modelId buyerConf) Buyer))
       w0 l wl ->
     loop_test l = true -> aborted E wl = false ->
     forall r, generate E (calls wl) = Replied r ->
       printable (message r) -> printable (offer r) ->
       (Value.is_null (offer r) = true -> 1 <= consecutiveNulls l ->
        exists l' w', turn_body E l wl = Break l' w' /\
                      dealReached l' = false /\ turns l' = S (turns l) /\
                      forall fuel, match_loop E (S fuel) l wl = Exited l' w') /\
       (Value.is_null (offer r) = true -> consecutiveNulls l = 0 ->
        exists l' w', turn_body E l wl = Next l' w' /\ consecutiveNulls l' = 1) /\
       (Value.is_null (offer r) = false ->
        exists l' w', turn_body E l wl = Next l' w' /\ consecutiveNulls l' = 0)).
Proof.
  split.
  - intros res w' Hrun k r1 r2 H1 H2 Ho1 Ho2 Hge.
    unfold runMatch in Hrun.
    destruct (setup E runId buyerConf sellerConf w) as [[[[scn se] be]|] w0] eqn:Hsetup;
      [|discriminate].
    destruct (aborted E w0); [discriminate|].
    destruct (match_loop E (S maxTurns) _ w0) as [lf wf|err wf|] eqn:Hloop;
      try discriminate.
    destruct (scores lf se be) as [sb|]; [|discriminate].
    destruct (finish E runId tid scn se be sb lf wf) as [result w''] eqn:Hfin.
    inversion Hrun; subst.
    destruct (finish_spec _ _ _ _ _ _ _ _ _ _ _ Hfin) as (_ & Hdr & _ & Ht & _).
    destruct (setup_Some _ _ _ _ _ _ _ Hsetup) as [Hc _].
    rewrite Ht in *. rewrite Hdr. rewrite <- Hc in H1, H2.
    eapply (silent_pair_exit E
              (new_Agent (conf_name sellerConf) (conf_modelId sellerConf) Seller)
              (new_Agent (conf_name buyerConf) (conf_modelId buyerConf) Buyer)
              (calls w0) (S maxTurns) eq_refl eq_refl
              _ w0 lf wf (loop_inv_initial E _ _ w0) Hloop k r1 r2); eauto.
    simpl. lia.
  - intros w0 l wl Hv Ht Ha r Hg Hpm Hpo.
    destruct (loop_inv_visits E
                (new_Agent (conf_name sellerConf) (conf_modelId sellerConf) Seller)
                (new_Agent (conf_name buyerConf) (conf_modelId buyerConf) Buyer)
                w0 l wl eq_refl eq_refl Hv) as [Hinv _].
    pose proof Ht as Ht'. apply loop_test_true in Ht'. destruct Ht' as [_ Hdr].
    pose proof (turn_body_no_throw E l wl r Ha Hg Hpm Hpo
                  (li_printable _ _ _ _ _ _ Hinv)) as Hcases.
    assert (Hsame : forall l' w' r', next_effect E l wl l' w' r' -> r' = r).
    { intros l' w' r' Hr. pose proof (ne_reply _ _ _ _ _ _ Hr). congruence. }
    assert (Hsame' : forall l' w' r', break_effect E l wl l' w' r' -> r' = r).
    { intros l' w' r' Hr. pose proof (be_reply _ _ _ _ _ _ Hr). congruence. }
    split; [|split].
    + intros Ho Hst. destruct Hcases as [(l' & w' & Hb) | (l' & w' & Hb)].
      * exfalso. destruct (turn_body_Next E l wl l' w' Hdr Hb) as [r' Hr].
        rewrite (Hsame _ _ _ Hr) in Hr.
        assert (consecutiveNulls l = 0); [|lia].
        apply (ne_no_break _ _ _ _ _ _ Hr); [now apply honoured_no_offer | exact Ho].
      * destruct (turn_body_Break E l wl l' w' Hdr Hb) as [r' Hr].
        exists l', w'. split; [exact Hb|].
        split; [exact (be_dealReached _ _ _ _ _ _ Hr)|].
        split; [exact (be_turns _ _ _ _ _ _ Hr)|].
        intros fuel. simpl. now rewrite Ht, Hb.
    + intros Ho Hz. destruct Hcases as [(l' & w' & Hb) | (l' & w' & Hb)].
      * destruct (turn_body_Next E l wl l' w' Hdr Hb) as [r' Hr].
        rewrite (Hsame _ _ _ Hr) in Hr.
        exists l', w'. split; [exact Hb|].
        rewrite (ne_consecutiveNulls _ _ _ _ _ _ Hr).
        rewrite (honoured_no_offer l r Ho), Ho, Hz. reflexivity.
      * exfalso. destruct (turn_body_Break E l wl l' w' Hdr Hb) as [r' Hr].
        pose proof (be_streak _ _ _ _ _ _ Hr). lia.
    + intros Ho. destruct Hcases as [(l' & w' & Hb) | (l' & w' & Hb)].
      * destruct (turn_body_Next E l wl l' w' Hdr Hb) as [r' Hr].
        rewrite (Hsame _ _ _ Hr) in Hr.
        exists l', w'. split; [exact Hb|].
        rewrite (ne_consecutiveNulls _ _ _ _ _ _ Hr).
        destruct (honoured l r) eqn:Hok.
        -- apply honoured_true in Hok. destruct Hok as [_ Hvb].
           destruct (validb_inv l r Hvb) as (_ & Hp & Hby).
           destruct (deref_role l
                       (new_Agent (conf_name sellerConf) (conf_modelId sellerConf) Seller)
                       (new_Agent (conf_name buyerConf) (conf_modelId buyerConf) Buyer)
                       (activeAgent l) eq_refl eq_refl
                       (li_seller _ _ _ _ _ _ Hinv) (li_buyer _ _ _ _ _ _ Hinv))
             as [Hrole _].
           rewrite Hrole in Hby.
           destruct (li_pending _ _ _ _ _ _ Hinv Hdr)
             as [_ [Hj | [[Hj _] | [_ Hj]]]]; congruence.
        -- now rewrite Ho.
      * exfalso. destruct (turn_body_Break E l wl l' w' Hdr Hb) as [r' Hr].
        rewrite (Hsame' _ _ _ Hr) in Hr.
        pose proof (be_no_offer _ _ _ _ _ _ Hr). congruence.
Qed.

(** The seller asks 50000, then nobody makes an offer: the match ends on
    turn 3 of 12. *)
Lemma silence_ends_match_witness :
  exists res w',
    runMatch (script [say (Some 50000%float) false] None)
      "1_1" conf_B conf_A None empty_world = (Returned res, w') /\
    r_turns res = 3 /\ r_dealReached res = false.
Proof.
  destruct (runMatch (script [say (Some 50000%float) false] None)
              "1_1" conf_B conf_A None empty_world)
    as [[res| |] w'] eqn:Hrun;
    [| exfalso; vm_compute in Hrun; discriminate ..].
  pose proof (f_equal (fun x => match x.1 with
                                | Returned r => Some (r_turns r)
                                | _ => None
                                end) Hrun) as Hp.
  vm_compute in Hp. inversion Hp as [H1]. clear Hp.
  exists res, w'. split; [reflexivity|].
  apply (proj1 (silence_ends_match (script [say (Some 50000%float) false] None)
                  "1_1" conf_B conf_A None empty_world) res w' Hrun 1
           (schema_reply None false) (schema_reply None false)
           eq_refl eq_refl eq_refl eq_refl).
  assert (Ht : r_turns res = 3) by (symmetry; exact H1).
  rewrite Ht. apply le_n.
Defined.

(** C4.  No reply names an offer: every answer is an object without the
    property [offer].  [response.offer] is then [undefined], which is not
    [null]: line 123 takes each of them for an offer, the streak of turns
    without an offer stays at zero, and the match runs through all 12 turns
    instead of ending on the second. *)
Theorem absent_offers_are_not_silence :
  exists res w',
    runMatch (script (replicate 12 (Replied (bare_reply false))) None)
      "1_1" conf_B conf_A None empty_world = (Returned res, w') /\
    offer (bare_reply false) = Value.undefined /\
    r_turns res = 12 /\ length (r_logs res) = 12 /\ r_dealReached res = false /\
    ~ In EndedTwoNulls (map snd (sink w')).
Proof.
  destruct (runMatch _ "1_1" conf_B conf_A None empty_world)
    as [[res| |] w'] eqn:Hrun;
    [| exfalso; vm_compute in Hrun; discriminate ..].
  pose proof (f_equal (fun x => match x.1 with
                                | Returned r =>
                                    Some (r_turns r, length (r_logs r), r_dealReached r,
                                          forallb (fun ln => match ln with
                                                             | EndedTwoNulls => false
                                                             | _ => true
                                                             end) (map snd (sink x.2)))
                                | _ => None
                                end) Hrun) as Hp.
  vm_compute in Hp. inversion Hp as [[H1 H2 H3 H4]]. clear Hp.
  exists res, w'.
  split; [reflexivity|]. split; [reflexivity|]. split; [symmetry; exact H1|].
  split; [symmetry; exact H2|]. split; [symmetry; exact H3|].
  assert (H4' : forallb (fun ln => match ln with
                                   | EndedTwoNulls => false
                                   | _ => true
                                   end) (map snd (sink w')) = true)
    by (symmetry; exact H4).
  intros Hin. rewrite forallb_forall in H4'.
  specialize (H4' _ Hin). discriminate.
Qed.

(** Two agents that name no offer can still strike a deal: the second
    claims one, [undefined === undefined] holds, and the match ends in a
    deal whose price is [undefined], scored as no deal. *)
Example deal_without_price :
  exists res w',
    runMatch (script [Replied (bare_reply false); Replied (bare_reply true)] None)
      "1_1" conf_B conf_A None empty_world = (Returned res, w') /\
    r_dealReached res = true /\ r_dealPrice res = Value.undefined /\ r_turns res = 2 /\
    s_score (r_seller res) = 0%float /\ s_score (r_buyer res) = 0%float.
Proof.
  destruct (runMatch _ "1_1" conf_B conf_A None empty_world)
    as [[res| |] w'] eqn:Hrun;
    [| exfalso; vm_compute in Hrun; discriminate ..].
  pose proof (f_equal (fun x => match x.1 with
                                | Returned r =>
                                    Some (r_dealReached r, r_dealPrice r, r_turns r,
                                          s_score (r_seller r), s_score (r_buyer r))
                                | _ => None
                                end) Hrun) as Hp.
  vm_compute in Hp. inversion Hp as [[H1 H2 H3 H4 H5]]. clear Hp.
  exists res, w'. repeat split; auto.
Qed.

(** ** How [runMatch] can end *)

(** [runMatch] always ends: it returns a result or raises an error. *)
Lemma runMatch_terminates (E : env) (runId : string) (bc sc : conf)
    (tid : option string) (w : world) :
  (runMatch E runId bc sc tid w).1 <> Diverged.
Proof.
  unfold runMatch.
  destruct (setup E runId bc sc w) as [[[[scn se] be]|] w0]; [|discriminate].
  destruct (aborted E w0); [discriminate|].
  pose proof (match_loop_fuel E (S maxTurns)
                (initial_locals (new_Agent (conf_name sc) (conf_modelId sc) Seller)
                                (new_Agent (conf_name bc) (conf_modelId bc) Buyer)) w0) as Hf.
  destruct (match_loop E (S maxTurns) _ w0) as [lf wf|err wf|].
  - destruct (scores lf se be); [|discriminate].
    destruct (finish E runId tid scn se be _ lf wf). discriminate.
  - discriminate.
  - exfalso. apply Hf; [unfold maxTurns; simpl; lia | reflexivity].
Qed.

Lemma setup_store (E : env) (runId : string) (bc sc : conf) (w : world) :
  calls (setup E runId bc sc w).2 = calls w /\
  same_store w (setup E runId bc sc w).2.
Proof.
  unfold setup. destruct (pick_scenario _); simpl; split;
    try reflexivity; store_chain.
Qed.

(** A [runMatch] that raises an error has written nothing to the store. *)
Lemma runMatch_Thrown (E : env) (runId : string) (bc sc : conf)
    (tid : option string) (w : world) (err : string) (w' : world) :
  runMatch E runId bc sc tid w = (Thrown err, w') ->
  same_store w w' /\ calls w <= calls w' /\
  (err = Benchmark_Aborted -> aborted E w' = true \/
                              exists k, generate E k = Failed Benchmark_Aborted).
Proof.
  unfold runMatch.
  pose proof (setup_store E runId bc sc w) as [Hc Hs].
  destruct (setup E runId bc sc w) as [[[[scn se] be]|] w0]; simpl in Hc, Hs.
  - destruct (aborted E w0) eqn:Ha.
    + intros H. inversion H; subst. split; [exact Hs|]. split; [lia|]. auto.
    + destruct (match_loop E (S maxTurns) _ w0) as [lf wf|e wf|] eqn:Hloop.
      * destruct (match_loop_Exited _ _ _ _ _ _ Hloop) as (l & wl & Hv & He).
        destruct (exit_inv_ends E (seller_agent sc) (buyer_agent bc)
                    w0 l wl lf wf eq_refl eq_refl Hv He) as (Hx & _).
        pose proof (scores_defined E _ _ _ lf se be Hx) as Hsc.
        destruct (scores lf se be); [|congruence].
        destruct (finish E runId tid scn se be _ lf wf). discriminate.
      * intros H. inversion H; subst.
        destruct (match_loop_Raised _ _ _ _ _ _ Hloop) as (l & wl & Hv & Ht & Hb).
        destruct (loop_inv_visits E (seller_agent sc) (buyer_agent bc)
                    w0 l wl eq_refl eq_refl Hv) as [Hinv Hs1].
        destruct (turn_body_Throw E l wl err w' Hb)
          as [Hs2 [(Hab & _ & ->) | [(_ & Hg & Hc2) | (_ & -> & Hc2 & _)]]].
        -- split; [eapply same_store_trans; eauto|].
           split; [rewrite (li_calls _ _ _ _ _ _ Hinv); lia | auto].
        -- split; [eapply same_store_trans; [exact Hs|];
                   eapply same_store_trans; eauto|].
           split; [rewrite Hc2, (li_calls _ _ _ _ _ _ Hinv); lia|].
           intros ->. right. eauto.
        -- split; [eapply same_store_trans; [exact Hs|];
                   eapply same_store_trans; eauto|].
           split; [rewrite Hc2, (li_calls _ _ _ _ _ _ Hinv); lia|].
           discriminate.
      * discriminate.
  - intros H. inversion H; subst. split; [exact Hs|]. split; [lia|].
    discriminate.
Qed.

(** ** The matches that a run starts *)

Lemma scheduled_logger (ln : line) (w : world) :
  scheduled (logger ln w)
  = scheduled w ++ match ln with
                   | Matchup b s => [(calls w, (s, b))]
                   | _ => []
                   end.
Proof.
  unfold scheduled. simpl. rewrite omap_app. f_equal.
  destruct ln; reflexivity.
Qed.

Lemma scheduled_tick_calls (w : world) : scheduled (tick_calls w) = scheduled w.
Proof. reflexivity. Qed.

Lemma scheduled_console_error (e : string) (w : world) :
  scheduled (console_error e w) = scheduled w.
Proof. reflexivity. Qed.

Ltac scheduled_simpl :=
  repeat (rewrite ?scheduled_logger, ?scheduled_tick_calls,
            ?scheduled_console_error; cbn [app]; rewrite ?app_nil_r).

Lemma check_deal_scheduled (l : locals) (r : reply) (w : world) :
  match check_deal l r w with
  | Some c => scheduled c.2 = scheduled w
  | None => True
  end.
Proof.
  unfold check_deal.
  destruct (Value.truthy (deal r)); [|reflexivity].
  destruct (negb (Value.is_null (lastOffer l)) && _); [|simpl; now scheduled_simpl].
  destruct (Value.strict_eq _ _); simpl; [reflexivity|].
  destruct (Value.to_string (offer r)); [|exact I].
  destruct (Value.to_string (lastOffer l)); [|exact I].
  simpl. now scheduled_simpl.
Qed.

Lemma process_offer_scheduled (l : locals) (r : reply) (w : world) :
  scheduled (process_offer l r w).2 = scheduled w.
Proof.
  unfold process_offer.
  destruct (negb (dealReached l)); [|reflexivity].
  destruct (negb (Value.is_null (offer r))); [reflexivity|].
  cbn [consecutiveNulls set_consecutiveNulls].
  destruct (2 <=? S (consecutiveNulls l))%nat; simpl; [now scheduled_simpl | reflexivity].
Qed.

Lemma turn_body_scheduled (E : env) (l : locals) (w : world) :
  scheduled (flow_world (turn_body E l w)) = scheduled w.
Proof.
  unfold turn_body. destruct (aborted E w); [reflexivity|].
  destruct (generate E (calls w)) as [r|err]; [|reflexivity].
  unfold on_reply.
  destruct (Value.to_string (message r)); [|reflexivity].
  destruct (Value.to_string (shown_offer r)); [|reflexivity].
  set (w1 := logger _ (tick_calls w)).
  assert (Hw1 : scheduled w1 = scheduled w) by (unfold w1; now scheduled_simpl).
  pose proof (check_deal_scheduled (set_turns (S (turns l)) l) r w1) as Hc.
  destruct (check_deal _ r w1) as [[[l1 r1] w2]|]; [|exact Hw1].
  cbn [snd] in Hc.
  pose proof (process_offer_scheduled l1 r1 w2) as Hp.
  destruct (process_offer l1 r1 w2) as [[brk l2] w3]. cbn [snd] in Hp.
  destruct brk; simpl; congruence.
Qed.

Lemma match_loop_scheduled (E : env) (fuel : nat) (l : locals) (w : world) :
  match match_loop E fuel l w with
  | Exited _ w' | Raised _ w' => scheduled w' = scheduled w
  | OutOfFuel => True
  end.
Proof.
  revert l w. induction fuel as [|fuel IH]; intros l w; simpl; [exact I|].
  destruct (loop_test l); [|reflexivity].
  pose proof (turn_body_scheduled E l w) as H.
  destruct (turn_body E l w) as [l1 w1|l1 w1|err w1]; simpl in H; try exact H.
  specialize (IH l1 w1). destruct (match_loop E fuel l1 w1); congruence.
Qed.

Lemma scheduled_tick_rng (w : world) : scheduled (tick_rng w) = scheduled w.
Proof. reflexivity. Qed.

Lemma scheduled_tick_clock (w : world) : scheduled (tick_clock w) = scheduled w.
Proof. reflexivity. Qed.

Lemma setup_scheduled (E : env) (runId : string) (bc sc : conf) (w : world) :
  scheduled (setup E runId bc sc w).2
  = scheduled w ++ [(calls w, (conf_name sc, conf_name bc))].
Proof.
  unfold setup. destruct (pick_scenario _); cbn [snd];
    repeat (rewrite ?scheduled_logger, ?scheduled_tick_rng; cbn [app];
            rewrite ?app_nil_r);
    reflexivity.
Qed.

Lemma finish_scheduled (E : env) (runId : string) (tid : option string)
    (scn : scenario_t) (se be : float) (sb : float * float) (l : locals) (w : world) :
  scheduled (finish E runId tid scn se be sb l w).2 = scheduled w.
Proof.
  unfold finish. destruct sb. cbn [snd].
  change (scheduled (logger (outcome_line l) w) = scheduled w).
  rewrite scheduled_logger. unfold outcome_line.
  destruct (dealReached l && Value.truthy (dealPrice l)); apply app_nil_r.
Qed.


(** Once set, the signal stays set. *)
Lemma aborted_at_mono (E : env) (c c' : nat) :
  c <= c' -> aborted_at E c = true -> aborted_at E c' = true.
Proof.
  unfold aborted_at. destruct (abort_at E) as [t|]; [|discriminate].
  rewrite !Nat.leb_le. lia.
Qed.

(** What one call of [runMatch] does to the world. *)
Lemma runMatch_effect (E : env) (runId : string) (bc sc : conf)
    (tid : option string) (w : world) :
  let out := runMatch E runId bc sc tid w in
  scheduled out.2 = scheduled w ++ [(calls w, (conf_name sc, conf_name bc))] /\
  calls w <= calls out.2 /\
  match out.1 with
  | Returned res => r_id res = runId /\ persisted res w out.2
  | Thrown err => files out.2 = files w /\ manifest out.2 = manifest w
  | Diverged => False
  end.
Proof.
  intros out. subst out.
  destruct (runMatch E runId bc sc tid w) as [[res|err|] w'] eqn:Hrun; cbn [fst snd].
  - destruct (runMatch_Returned _ _ _ _ _ _ _ _ Hrun)
      as (scn & se & be & w0 & lf & wf & sb & Hsetup & _ & _ & Hst & Hle & _ & Hfin).
    destruct (finish_spec _ _ _ _ _ _ _ _ _ _ _ Hfin)
      as (Hid & _ & _ & _ & _ & _ & _ & _ & [Hf Hm] & Hc).
    split; [|split; [lia|]].
    + unfold runMatch in Hrun. rewrite Hsetup in Hrun.
      destruct (aborted E w0); [discriminate|].
      pose proof (match_loop_scheduled E (S maxTurns)
                    (initial_locals (seller_agent sc) (buyer_agent bc)) w0) as Hl.
      unfold seller_agent, buyer_agent in Hl.
      destruct (match_loop E (S maxTurns) _ w0) as [lf' wf'|e wf'|]; try discriminate.
      pose proof (setup_scheduled E runId bc sc w) as Hss.
      rewrite Hsetup in Hss. cbn [snd] in Hss. rewrite <- Hss, <- Hl.
      destruct (scores lf' se be) as [sb'|]; [|discriminate].
      pose proof (finish_scheduled E runId tid scn se be sb' lf' wf') as Hfs.
      destruct (finish E runId tid scn se be sb' lf' wf') as [r' w''].
      inversion Hrun; subst. exact Hfs.
    + split; [exact Hid|]. split.
      * rewrite Hf. now rewrite (same_files _ _ Hst).
      * rewrite Hm. now rewrite (same_manifest _ _ Hst).
  - destruct (runMatch_Thrown _ _ _ _ _ _ _ _ Hrun) as (Hst & Hle & _).
    split; [|split; [exact Hle|]].
    + unfold runMatch in Hrun.
      pose proof (setup_scheduled E runId bc sc w) as Hss.
      destruct (setup E runId bc sc w) as [[[[scn se] be]|] w0]; cbn [snd] in Hss.
      * destruct (aborted E w0); [inversion Hrun; subst; exact Hss|].
        pose proof (match_loop_scheduled E (S maxTurns)
                      (initial_locals (seller_agent sc) (buyer_agent bc)) w0) as Hl.
        unfold seller_agent, buyer_agent in Hl.
        destruct (match_loop E (S maxTurns) _ w0) as [lf' wf'|e wf'|]; try discriminate.
        -- destruct (scores lf' se be) as [sb'|].
           ++ destruct (finish E runId tid scn se be sb' lf' wf'). discriminate.
           ++ inversion Hrun; subst. congruence.
        -- inversion Hrun; subst. congruence.
      * inversion Hrun; subst. exact Hss.
    + split; [exact (same_files _ _ Hst) | exact (same_manifest _ _ Hst)].
  - exfalso. apply (runMatch_terminates E runId bc sc tid w). now rewrite Hrun.
Qed.

(** ** The scheduler *)

Lemma progress_refl (E : env) (w : world) : progress E w w [] [].
Proof. split; simpl; auto. now rewrite app_nil_r. Qed.

Lemma progress_trans (E : env) (w1 w2 w3 : world)
    (st1 st2 : list (nat * (string * string))) (rs1 rs2 : list match_result) :
  progress E w1 w2 st1 rs1 -> progress E w2 w3 st2 rs2 ->
  progress E w1 w3 (st1 ++ st2) (rs1 ++ rs2).
Proof.
  intros [S1 F1 M1 C1 A1] [S2 F2 M2 C2 A2]. split.
  - rewrite S2, S1. now rewrite app_assoc.
  - rewrite F2, F1. now rewrite foldl_app.
  - rewrite M2, M1. now rewrite foldl_app.
  - lia.
  - apply Forall_app. split.
    + eapply Forall_impl; [exact A1|]. simpl. intros p [? ?]. split; [assumption|lia].
    + eapply Forall_impl; [exact A2|]. simpl. intros p [? ?]. split; [assumption|lia].
Qed.

(** Steps of the scheduler that touch neither the lines of matches nor the
    store. *)
Lemma progress_logger (E : env) (ln : line) (w : world) :
  (forall b s, ln <> Matchup b s) -> progress E w (logger ln w) [] [].
Proof.
  intros Hn. split; simpl; auto.
  rewrite scheduled_logger. destruct ln; try reflexivity.
  exfalso. eapply Hn. reflexivity.
Qed.

Lemma progress_tick_clock (E : env) (w : world) : progress E w (tick_clock w) [] [].
Proof. split; simpl; auto. unfold scheduled. simpl. now rewrite app_nil_r. Qed.

Lemma progress_tick_rng (E : env) (w : world) : progress E w (tick_rng w) [] [].
Proof. split; simpl; auto. unfold scheduled. simpl. now rewrite app_nil_r. Qed.

Lemma progress_console_error (E : env) (e : string) (w : world) :
  progress E w (console_error e w) [] [].
Proof. split; simpl; auto. unfold scheduled. simpl. now rewrite app_nil_r. Qed.

Lemma try_runMatch_progress (E : env) (runId : string) (bc sc : conf)
    (tournamentId : string) (w : world) :
  aborted E w = false ->
  let out := try_runMatch E runId bc sc tournamentId w in
  scheduler_end out.1 /\
  exists rs, progress E w out.2 [(calls w, (conf_name sc, conf_name bc))] rs /\
             length rs <= 1.
Proof.
  intros Ha out. subst out. unfold try_runMatch.
  pose proof (runMatch_effect E runId bc sc (Some tournamentId) w) as H.
  cbv zeta in H.
  destruct (runMatch E runId bc sc (Some tournamentId) w) as [[res|err|] w'];
    cbn [fst snd] in *.
  - destruct H as (Hs & Hc & Hid & Hf & Hm).
    split; [now left|]. exists [res]. split; [|simpl; lia].
    split; auto; try (repeat constructor; simpl; auto; lia).
  - destruct H as (Hs & Hc & Hf & Hm).
    destruct (String.eqb err Benchmark_Aborted) eqn:He; cbn [fst snd].
    + apply String.eqb_eq in He. subst err.
      split; [now right|]. exists []. split; [|simpl; lia].
      split; auto; try (repeat constructor; simpl; auto; lia).
    + split; [now left|]. exists []. split; [|simpl; lia].
      split; auto; try (repeat constructor; simpl; auto; lia).
  - destruct H as (_ & _ & []).
Qed.

Lemma aborted_tick_clock (E : env) (w : world) :
  aborted E (tick_clock w) = aborted E w.
Proof. reflexivity. Qed.

Lemma aborted_logger (E : env) (ln : line) (w : world) :
  aborted E (logger ln w) = aborted E w.
Proof. reflexivity. Qed.

Lemma pair_loop_progress (E : env) (modelMap : js_object) (tid m1 : string)
    (rest : list string) (w : world) :
  let out := pair_loop E modelMap tid m1 rest w in
  scheduler_end out.1 /\
  exists started rs, progress E w out.2 started rs /\ length rs <= length started.
Proof.
  revert w. induction rest as [|m2 rest IH]; intros w; cbn [pair_loop].
  - split; [now left|]. exists [], []. split; [apply progress_refl | simpl; lia].
  - destruct (aborted E w) eqn:Ha.
    + split; [now left|]. exists [], []. split; [apply progress_refl | simpl; lia].
    + destruct (try_runMatch_progress E (date_now E (clock w) ++ "_1")%string
                  (conf_of modelMap m2) (conf_of modelMap m1) tid (tick_clock w) Ha)
        as (He1 & rs1 & Hp1 & Hl1).
      pose proof (progress_trans _ _ _ _ _ _ _ _ (progress_tick_clock E w) Hp1) as Hp1'.
      destruct (try_runMatch E _ (conf_of modelMap m2) (conf_of modelMap m1) tid (tick_clock w))
        as [c1 w1]. cbn [fst snd] in *.
      destruct He1 as [-> | ->];
        [| split; [now right|]; eexists _, _; split; [exact Hp1' | simpl; lia] ].
      destruct (aborted E w1) eqn:Ha1.
      * split; [now left|]. eexists _, _. split; [exact Hp1' | simpl; lia].
      * destruct (try_runMatch_progress E (date_now E (clock w1) ++ "_2")%string
                    (conf_of modelMap m1) (conf_of modelMap m2) tid (tick_clock w1) Ha1)
          as (He2 & rs2 & Hp2 & Hl2).
        pose proof (progress_trans _ _ _ _ _ _ _ _ Hp1'
                      (progress_trans _ _ _ _ _ _ _ _ (progress_tick_clock E w1) Hp2))
          as Hp2'.
        destruct (try_runMatch E _ (conf_of modelMap m1) (conf_of modelMap m2) tid (tick_clock w1))
          as [c2 w2]. cbn [fst snd] in *.
        destruct He2 as [-> | ->];
          [| split; [now right|]; eexists _, _; split;
             [exact Hp2' | rewrite !length_app; simpl; lia] ].
        destruct (IH w2) as (He3 & st3 & rs3 & Hp3 & Hl3).
        split; [exact He3|].
        eexists _, _. split; [exact (progress_trans _ _ _ _ _ _ _ _ Hp2' Hp3)|].
        rewrite !length_app. simpl. lia.
Qed.

Lemma roster_loop_progress (E : env) (modelMap : js_object) (tid : string)
    (keys : list string) (w : world) :
  let out := roster_loop E modelMap tid keys w in
  scheduler_end out.1 /\
  exists started rs, progress E w out.2 started rs /\ length rs <= length started.
Proof.
  revert w. induction keys as [|m1 rest IH]; intros w; cbn [roster_loop].
  - split; [now left|]. exists [], []. split; [apply progress_refl | simpl; lia].
  - destruct (pair_loop_progress E modelMap tid m1 rest w) as (He1 & st1 & rs1 & Hp1 & Hl1).
    destruct (pair_loop E modelMap tid m1 rest w) as [c1 w1]. cbn [fst snd] in *.
    destruct He1 as [-> | ->];
      [| split; [now right|]; eexists _, _; split; [exact Hp1 | exact Hl1] ].
    destruct (IH w1) as (He2 & st2 & rs2 & Hp2 & Hl2).
    split; [exact He2|].
    eexists _, _. split; [exact (progress_trans _ _ _ _ _ _ _ _ Hp1 Hp2)|].
    rewrite !length_app. lia.
Qed.

Lemma rounds_loop_progress (E : env) (modelMap : js_object) (tid : string)
    (keys : list string) (n r : nat) (w : world) :
  let out := rounds_loop E modelMap tid keys n r w in
  scheduler_end out.1 /\
  exists started rs, progress E w out.2 started rs /\ length rs <= length started.
Proof.
  revert r w. induction n as [|n IH]; intros r w; cbn [rounds_loop].
  - split; [now left|]. exists [], []. split; [apply progress_refl | simpl; lia].
  - destruct (aborted E w) eqn:Ha.
    + split; [now left|]. exists [], []. split; [apply progress_refl | simpl; lia].
    + assert (Hlog : progress E w (logger (RoundLine (r + 1)) w) [] [])
        by (apply progress_logger; discriminate).
      destruct (roster_loop_progress E modelMap tid keys (logger (RoundLine (r + 1)) w))
        as (He1 & st1 & rs1 & Hp1 & Hl1).
      pose proof (progress_trans _ _ _ _ _ _ _ _ Hlog Hp1) as Hp1'.
      destruct (roster_loop E modelMap tid keys (logger (RoundLine (r + 1)) w)) as [c1 w1].
      cbn [fst snd] in *.
      destruct He1 as [-> | ->];
        [| split; [now right|]; eexists _, _; split; [exact Hp1' | exact Hl1] ].
      destruct (IH (S r) w1) as (He2 & st2 & rs2 & Hp2 & Hl2).
      split; [exact He2|].
      eexists _, _. split; [exact (progress_trans _ _ _ _ _ _ _ _ Hp1' Hp2)|].
      rewrite !length_app. simpl. lia.
Qed.








Lemma runTournament_unfold (E : env) (o : options) (w : world) :
  runTournament E o w =
  match rounds_loop E (modelMap_of o) (tournament_start E o w).1 (modelKeys_of o)
          (Z.to_nat (effective_rounds o)) 0 (tournament_start E o w).2 with
  | (Returned _, w) => (Returned tt, logger TournamentComplete w)
  | other => other
  end.
Proof. reflexivity. Qed.

Lemma progress_then_quiet (E : env) (w1 w2 w3 : world)
    (st : list (nat * (string * string))) (rs : list match_result) :
  progress E w1 w2 st rs -> progress E w2 w3 [] [] -> progress E w1 w3 st rs.
Proof.
  intros H1 H2. pose proof (progress_trans _ _ _ _ _ _ _ _ H1 H2) as H.
  now rewrite !app_nil_r in H.
Qed.

Lemma tournament_start_progress (E : env) (o : options) (w : world) :
  progress E w (tournament_start E o w).2 [] [] /\
  calls (tournament_start E o w).2 = calls w.
Proof.
  split; [|reflexivity]. unfold tournament_start. cbn [snd].
  eapply progress_then_quiet; [|apply progress_logger; discriminate].
  eapply progress_then_quiet; [|apply progress_tick_rng].
  eapply progress_then_quiet; [|apply progress_tick_rng].
  apply progress_tick_rng.
Qed.

Lemma runTournament_progress (E : env) (o : options) (w : world) :
  let out := runTournament E o w in
  scheduler_end out.1 /\
  exists started rs, progress E w out.2 started rs /\ length rs <= length started.
Proof.
  intros out. subst out. rewrite runTournament_unfold.
  destruct (tournament_start_progress E o w) as [Hp0 _].
  destruct (rounds_loop_progress E (modelMap_of o) (tournament_start E o w).1
              (modelKeys_of o) (Z.to_nat (effective_rounds o)) 0
              (tournament_start E o w).2) as (He & st & rs & Hp & Hl).
  pose proof (progress_trans _ _ _ _ _ _ _ _ Hp0 Hp) as Hp1. simpl in Hp1.
  destruct (rounds_loop E _ _ _ _ 0 _) as [c1 w1]. cbn [fst snd] in *.
  destruct He as [-> | ->].
  - split; [now left|]. exists st, rs. split; [|exact Hl].
    eapply progress_then_quiet; [exact Hp1|].
    apply progress_logger; discriminate.
  - split; [now right|]. exists st, rs. auto.
Qed.

(** ** Cancellation *)






(** ** The store under cancellation *)






(** ** The round robin *)







Lemma length_pairings (keys : list string) :
  length (pairings keys) = length keys * (length keys - 1).
Proof.
  induction keys as [|a rest IH]; [reflexivity|].
  cbn [pairings]. rewrite length_app, IH.
  assert (H : length (flat_map (fun b => [(a, b); (b, a)]) rest) = 2 * length rest).
  { clear IH. induction rest as [|b rest IH]; simpl in *; lia. }
  rewrite H. simpl. nia.
Qed.

Lemma length_rounds {A} (n : nat) (l : list A) :
  length (concat (replicate n l)) = length l * n.
Proof. induction n as [|n IH]; simpl; [lia|]. rewrite length_app, IH. lia. Qed.






(** The own property names of an object are distinct. *)
Lemma obj_put_keys (o : js_object) (k v : string) :
  (obj_put o k v).*1 = if decide (k ∈ o.*1) then o.*1 else o.*1 ++ [k].
Proof.
  induction o as [|[k' v'] o IH]; cbn [obj_put fmap list_fmap fst app].
  - destruct (decide (k ∈ [])) as [Hin|_]; [|reflexivity].
    now apply elem_of_nil in Hin.
  - destruct (String.eqb k' k) eqn:He.
    + apply String.eqb_eq in He. subst k'. cbn [fmap list_fmap fst].
      destruct (decide (k ∈ k :: o.*1)) as [_|Hn]; [reflexivity|].
      exfalso. apply Hn. now left.
    + apply String.eqb_neq in He. cbn [fmap list_fmap fst]. rewrite IH.
      destruct (decide (k ∈ o.*1)) as [Hin|Hin];
        destruct (decide (k ∈ k' :: o.*1)) as [Hin'|Hin']; try reflexivity.
      * exfalso. apply Hin'. now right.
      * exfalso. apply elem_of_cons in Hin'. destruct Hin' as [->|]; contradiction.
Qed.



Lemma insert_by_index_perm (x : N * string) (l : list (N * string)) :
  insert_by_index x l ≡ₚ x :: l.
Proof.
  induction l as [|y l IH]; simpl; [reflexivity|].
  destruct (x.1 <=? y.1)%N; [reflexivity|].
  rewrite IH. apply Permutation_swap.
Qed.

Lemma sort_by_index_perm (l : list (N * string)) : sort_by_index l ≡ₚ l.
Proof.
  induction l as [|x l IH]; simpl; [reflexivity|].
  rewrite insert_by_index_perm. now rewrite IH.
Qed.

Lemma Object_keys_perm (o : js_object) : Object_keys o ≡ₚ o.*1.
Proof.
  unfold Object_keys. rewrite sort_by_index_perm.
  generalize (o.*1). clear o. intros ks.
  induction ks as [|k ks IH]; [reflexivity|].
  unfold index_keys. cbn [omap list_omap]. rewrite filter_cons.
  destruct (array_index_key k) as [n|] eqn:Hk.
  - rewrite decide_False by discriminate. simpl. now rewrite IH.
  - rewrite decide_True by reflexivity. fold (index_keys ks).
    rewrite <- Permutation_middle. now rewrite IH.
Qed.





(** ** The reply parser *)








Lemma JSON_parse_ends (s : string) :
  (exists d, JSON_parse s = Returned d) \/ JSON_parse s = Thrown "SyntaxError".
Proof.
  unfold JSON_parse. destruct (Json.lex _ _); [|now right].
  destruct (Json.run _ _ _); [left; eauto | now right].
Qed.




(** ** The standalone runner and the scenarios of the specification *)

(** The standalone runner scores a match without a deal at -0.5 for both
    sides, where the tournament engine scores it at 0.0. *)
Lemma cli_no_deal_penalty (l : Cli.locals) (se be : float) :
  Cli.dealReached l = false -> Cli.scores l se be = Some (-0.5, -0.5)%float.
Proof. intros H. unfold Cli.scores. now rewrite H. Qed.

(** The standalone runner does not record who made the pending offer: the
    seller asks 50000, the buyer makes no offer, the seller claims a deal on
    its own 50000 and the runner accepts. *)
Example cli_accepts_own_offer :
  let replies := [ JObject (fields (schema_reply (Some 50000%float) false));
                   JObject (fields (schema_reply None false));
                   JObject (fields (schema_reply (Some 50000%float) true)) ] in
  let generate k := Cli.Data (default (JObject (fields (schema_reply None false))) (replies !! k)) in
  match Cli.match_loop 13 generate
          (Cli.initial_locals (new_Agent "Opus 4.5" EmptyString Seller)
                              (new_Agent "Haiku 4.5" EmptyString Buyer)) with
  | Cli.Exited l => Some (Cli.turns l, Cli.dealReached l, Cli.dealPrice l)
  | _ => None
  end
  = Some (3, true, Value.number 50000).
Proof. vm_compute. reflexivity. Qed.

(** The tournament engine on the same replies: the claim is rejected and
    the match goes on to its end without a deal. *)
Example engine_rejects_own_offer :
  let E := script [say (Some 50000%float) false; say None false;
                   say (Some 50000%float) true] None in
  option_map (fun res => (r_dealReached res, r_dealPrice res))
    (match (runMatch E "1_1" conf_B conf_A None empty_world).1 with
     | Returned res => Some res
     | _ => None
     end)
  = Some (false, Value.null).
Proof. vm_compute. reflexivity. Qed.

(** The scenario of the specification: the seller asks 50000 and then
    45000, the buyer bids 30000 and then accepts 45000. *)
Example accepted_counter_offer :
  let E := script [say (Some 50000%float) false; say (Some 30000%float) false;
                   say (Some 45000%float) false; say (Some 45000%float) true] None in
  option_map (fun res => (r_dealReached res, r_dealPrice res, r_turns res,
                          s_score (r_seller res), s_score (r_buyer res)))
    (match (runMatch E "1_1" conf_B conf_A None empty_world).1 with
     | Returned res => Some res
     | _ => None
     end)
  = Some (true, Value.number 45000, 4,
          ((45000 - 50000) / 50000)%float, ((50000 - 45000) / 50000)%float).
Proof. vm_compute. reflexivity. Qed.

(** The estimates of the first scenario (true value 38000, variance 0.1)
    at the ends and in the middle of the range of [Math.random]. *)
Example rolex_estimates :
  let rolex := {| sc_item := "Vintage Rolex Watch"; sc_value := 38000;
                  sc_variance := 0x1.999999999999ap-4 |}%float in
  SCENARIOS !! 0 = Some rolex /\
  estimate rolex 0 = 34200%float /\
  estimate rolex 0.5 = 38000%float /\
  estimate rolex 0x1.fffffffffffffp-1 = 41800%float.
Proof. repeat split; reflexivity. Qed.

(** * The ledger, the roster, the server and the runner page: proofs *)

(** ** The ledger of a match *)

Lemma reply_at_calls (E : env) (s0 b0 : agent) (c0 : nat) (l : locals) (w : world)
    (r : reply) :
  loop_inv E s0 b0 c0 l w -> generate E (calls w) = Replied r ->
  reply_at E c0 (turns l) = Some r.
Proof.
  intros Hi Hg. unfold reply_at. rewrite <- (li_calls _ _ _ _ _ _ Hi). now rewrite Hg.
Qed.

Lemma role_eqb_eq (a b : role_t) : role_eqb a b = true <-> a = b.
Proof. destruct a, b; simpl; split; congruence. Qed.

Lemma speaker_ref_neq (i j : nat) :
  speaker_ref i <> speaker_ref j -> speaker_ref i = opposite (speaker_ref j).
Proof. destruct (speaker_ref i), (speaker_ref j); simpl; congruence. Qed.

Lemma last_offer_from_S (E : env) (c0 n j : nat) (p : value) :
  last_offer_from E c0 n j p -> silent_at E c0 n ->
  last_offer_from E c0 (S n) j p.
Proof.
  intros (Hj & Ho & Hp & Hk) Hn. split; [lia|]. split; [exact Ho|]. split; [exact Hp|].
  intros k Hk'. destruct (decide (k = n)) as [->|]; [exact Hn|]. apply Hk. lia.
Qed.

Lemma ledger_initial (E : env) (c0 : nat) (s0 b0 : agent) :
  totalTokens s0 = 0 -> totalTokens b0 = 0 ->
  ledger E c0 (initial_locals s0 b0).
Proof.
  intros Hs Hb. split; simpl; try assumption; try discriminate.
  intros _ _ k Hk. lia.
Qed.

Lemma totalTokens_trackTokens (u : option nat) (a : agent) :
  totalTokens (trackTokens u a) = totalTokens a + default 0 u.
Proof. destruct u; simpl; lia. Qed.

Lemma logged_honoured (l : locals) (r : reply) :
  honoured l r = true -> logged l r = r.
Proof.
  intros H. apply honoured_true in H. destruct H as [Hd Hv].
  unfold logged. now rewrite Hd, Hv.
Qed.

Lemma ledger_next (E : env) (s0 b0 : agent) (c0 : nat)
    (l : locals) (w : world) (l' : locals) (w' : world) (r : reply) :
  role s0 = Seller -> role b0 = Buyer ->
  loop_inv E s0 b0 c0 l w -> ledger E c0 l ->
  loop_test l = true ->
  next_effect E l w l' w' r ->
  ledger E c0 l'.
Proof.
  intros Hs Hb Hi Hl Ht Hr.
  apply loop_test_true in Ht. destruct Ht as [_ Hdr].
  pose proof (reply_at_calls E s0 b0 c0 l w r Hi (ne_reply _ _ _ _ _ _ Hr)) as Hat.
  assert (Htok : tokens_at E c0 (turns l) = default 0 (usage r))
    by (unfold tokens_at; now rewrite Hat).
  destruct (deref_role l s0 b0 (activeAgent l) Hs Hb
              (li_seller _ _ _ _ _ _ Hi) (li_buyer _ _ _ _ _ _ Hi)) as [Hrole _].
  pose proof (li_active _ _ _ _ _ _ Hi) as Hact.
  pose proof (ne_turns _ _ _ _ _ _ Hr) as Nt.
  pose proof (ne_dealReached _ _ _ _ _ _ Hr) as Nd.
  pose proof (ne_dealPrice _ _ _ _ _ _ Hr) as Np.
  pose proof (ne_logs _ _ _ _ _ _ Hr) as Nl.
  pose proof (ne_lastOffer _ _ _ _ _ _ Hr) as No.
  pose proof (ne_lastOfferBy _ _ _ _ _ _ Hr) as Nby.
  pose proof (ne_seller _ _ _ _ _ _ Hr) as Nse.
  pose proof (ne_buyer _ _ _ _ _ _ Hr) as Nbu.
  rewrite Hrole, Hact in Nby.
  split.
  - rewrite Nse, Nt, Hact. cbn [tokens_of]. rewrite Htok.
    destruct (speaker_ref (turns l)); simpl.
    + rewrite totalTokens_trackTokens, (lg_seller _ _ _ Hl). reflexivity.
    + rewrite (lg_seller _ _ _ Hl). lia.
  - rewrite Nbu, Nt, Hact. cbn [tokens_of]. rewrite Htok.
    destruct (speaker_ref (turns l)); simpl.
    + rewrite (lg_buyer _ _ _ Hl). lia.
    + rewrite totalTokens_trackTokens, (lg_buyer _ _ _ Hl). reflexivity.
  - intros Hd' Hnone k Hk. rewrite Nd in Hd'. rewrite Hd' in No.
    rewrite Nt in Hk.
    destruct (Value.is_null (offer r)) eqn:Ho; [|congruence].
    destruct (decide (k = turns l)) as [->|]; [now exists r|].
    apply (lg_none _ _ _ Hl Hdr); [congruence | lia].
  - intros Hd' Hp. rewrite Nd in Hd'. rewrite Hd' in No, Nby. rewrite Nt.
    destruct (Value.is_null (offer r)) eqn:Ho.
    + rewrite No in Hp |- *. destruct (lg_some _ _ _ Hl Hdr Hp) as (j & Hj & Hby).
      exists j. split; [|congruence].
      apply last_offer_from_S; [exact Hj | now exists r].
    + exists (turns l). split; [|exact Nby]. rewrite No.
      split; [lia|]. split; [now exists r|]. split; [exact Ho|]. intros k Hk. lia.
  - intros Hd'. rewrite Nd in Hd'. rewrite Hd' in Np.
    pose proof (logged_honoured l r Hd') as Hlg.
    apply honoured_true in Hd'. destruct Hd' as [Hdeal Hv].
    destruct (validb_inv l r Hv) as (Heq & Hp & Hby).
    rewrite Hrole, Hact in Hby.
    destruct (lg_some _ _ _ Hl Hdr Hp) as (j & Hj & Hby').
    exists (turns l), j, (lastOffer l), r.
    split; [exact Nt|]. split; [exact Hat|]. split; [exact Hdeal|].
    split; [now rewrite Np|]. split; [exact Hj|].
    split; [now rewrite Np|]. split.
    + apply speaker_ref_neq. congruence.
    + eexists. split.
      * rewrite Nl. rewrite lookup_app_r by (rewrite (li_length _ _ _ _ _ _ Hi); lia).
        rewrite (li_length _ _ _ _ _ _ Hi), Nat.sub_diag. reflexivity.
      * simpl. now rewrite Hlg.
Qed.

Lemma ledger_visits (E : env) (s0 b0 : agent) (w0 : world) (l : locals) (w : world) :
  role s0 = Seller -> role b0 = Buyer ->
  totalTokens s0 = 0 -> totalTokens b0 = 0 ->
  visits E (initial_locals s0 b0) w0 l w ->
  ledger E (calls w0) l.
Proof.
  intros Hs Hb Hts Htb Hv. induction Hv as [|l w l' w' Hv IH Ht Hn].
  - now apply ledger_initial.
  - destruct (loop_inv_visits E s0 b0 w0 l w Hs Hb Hv) as [Hinv _].
    pose proof Ht as Ht'. apply loop_test_true in Ht'. destruct Ht' as [_ Hdr].
    destruct (turn_body_Next E l w l' w' Hdr Hn) as [r Hr].
    eapply ledger_next; eauto.
Qed.

(** The way out of [runMatch] when it returns: the set-up, the last state in
    which the loop took its test, how the loop was left, the scoring. *)
Lemma runMatch_ends (E : env) (runId : string) (bc sc : conf)
    (tid : option string) (w : world) (res : match_result) (w' : world) :
  runMatch E runId bc sc tid w = (Returned res, w') ->
  exists scn se be sb w0 l wl lf wf,
    calls w0 = calls w /\
    visits E (initial_locals (seller_agent sc) (buyer_agent bc)) w0 l wl /\
    ends_at E l wl lf wf /\
    finish E runId tid scn se be sb lf wf = (res, w').
Proof.
  unfold runMatch.
  destruct (setup E runId bc sc w) as [[[[scn se] be]|] w0] eqn:Hsetup;
    [|discriminate].
  destruct (aborted E w0) eqn:Ha; [discriminate|].
  destruct (match_loop E (S maxTurns) _ w0) as [lf wf|err wf|] eqn:Hloop;
    try discriminate.
  destruct (scores lf se be) as [sb|] eqn:Hsc; [|discriminate].
  destruct (finish E runId tid scn se be sb lf wf) as [result w''] eqn:Hfin.
  intros H. inversion H; subst.
  destruct (setup_Some _ _ _ _ _ _ _ Hsetup) as [Hc _].
  destruct (match_loop_Exited _ _ _ _ _ _ Hloop) as (l & wl & Hv & He).
  exists scn, se, be, sb, w0, l, wl, lf, wf. auto.
Qed.

(** The state in which the loop was left, for each of its two ways out. *)
Lemma exit_ledger (E : env) (s0 b0 : agent) (w0 : world)
    (l : locals) (w : world) (lf : locals) (wf : world) :
  role s0 = Seller -> role b0 = Buyer ->
  totalTokens s0 = 0 -> totalTokens b0 = 0 ->
  visits E (initial_locals s0 b0) w0 l w ->
  ends_at E l w lf wf ->
  calls wf = calls w0 + turns lf /\
  1 <= turns lf <= maxTurns /\
  totalTokens (seller lf) = tokens_of E (calls w0) Seller (length (logs lf)) /\
  totalTokens (buyer lf) = tokens_of E (calls w0) Buyer (length (logs lf)) /\
  ((dealReached lf = true /\ length (logs lf) = turns lf /\ ledger E (calls w0) lf) \/
   (dealReached lf = false /\ length (logs lf) = turns lf /\ turns lf = maxTurns) \/
   (dealReached lf = false /\ S (length (logs lf)) = turns lf /\ 2 <= turns lf /\
    exists r1 r2, reply_at E (calls w0) (turns lf - 2) = Some r1 /\
                  reply_at E (calls w0) (turns lf - 1) = Some r2 /\
                  Value.is_null (offer r1) = true /\
                  Value.is_null (offer r2) = true)).
Proof.
  intros Hs Hb Hts Htb Hv He.
  destruct (loop_inv_visits E s0 b0 w0 l w Hs Hb Hv) as [Hinv _].
  pose proof (ledger_visits E s0 b0 w0 l w Hs Hb Hts Htb Hv) as Hl.
  destruct He as [(Ht & -> & ->) | (Ht & Hbr)].
  - unfold loop_test in Ht. apply andb_false_iff in Ht.
    pose proof (li_bound _ _ _ _ _ _ Hinv) as Hle.
    rewrite (li_length _ _ _ _ _ _ Hinv).
    split; [exact (li_calls _ _ _ _ _ _ Hinv)|].
    assert (Hpos : 1 <= turns l).
    { destruct (dealReached l) eqn:Hd.
      - destruct (li_deal _ _ _ _ _ _ Hinv Hd). lia.
      - destruct Ht as [Ht | Ht]; [|discriminate].
        apply Nat.ltb_ge in Ht. unfold maxTurns in *. lia. }
    split; [lia|].
    split; [exact (lg_seller _ _ _ Hl)|]. split; [exact (lg_buyer _ _ _ Hl)|].
    destruct (dealReached l) eqn:Hd.
    + left. auto.
    + right. left. destruct Ht as [Ht | Ht]; [|discriminate].
      apply Nat.ltb_ge in Ht. split; [reflexivity|]. split; [reflexivity | lia].
  - apply loop_test_true in Ht. destruct Ht as [Hlt Hdr].
    destruct (turn_body_Break E l w lf wf Hdr Hbr) as [r Hr].
    pose proof (reply_at_calls E s0 b0 (calls w0) l w r Hinv (be_reply _ _ _ _ _ _ Hr)) as Hat.
    destruct Hr as [Ba Bg Bo Bnh Bs Bt Bd Bp Bl Bse Bbu Bc Bst Bln].
    rewrite Bl, Bse, Bbu, Bt, (li_length _ _ _ _ _ _ Hinv).
    split; [rewrite Bc, (li_calls _ _ _ _ _ _ Hinv); lia|].
    split; [lia|].
    split; [exact (lg_seller _ _ _ Hl)|]. split; [exact (lg_buyer _ _ _ Hl)|].
    right. right. split; [exact Bd|]. split; [reflexivity|].
    pose proof (li_streak _ _ _ _ _ _ Hinv Hdr) as Hstreak.
    destruct (consecutiveNulls l) as [|c]; [lia|].
    destruct Hstreak as (Hpos & r1 & Hg1 & Ho1).
    split; [lia|]. exists r1, r.
    replace (S (turns l) - 2) with (turns l - 1) by lia.
    replace (S (turns l) - 1) with (turns l) by lia.
    split; [unfold reply_at; now rewrite Hg1|]. auto.
Qed.

(** How a match ends.  A match that returns a result took between 1 and 12
    turns, one call of [generateResponse] each, and its log is not empty.
    It ended in a deal (every turn is logged; the price is the offer of the
    last reply, which claimed the deal, and is not [null]), or on the second
    of two turns in a row whose offer is [null] (that turn is counted but
    not logged), or at the turn cap (12 turns, all logged, the price
    [null]). *)
Theorem match_endings (E : env) (runId : string) (buyerConf sellerConf : conf)
    (tid : option string) (w : world) (res : match_result) (w' : world) :
  runMatch E runId buyerConf sellerConf tid w = (Returned res, w') ->
  1 <= r_turns res <= 12 /\
  r_logs res <> [] /\
  calls w' = calls w + r_turns res /\
  match ending_of res with
  | ByDeal =>
      length (r_logs res) = r_turns res /\
      Value.is_null (r_dealPrice res) = false /\
      exists r, reply_at E (calls w) (r_turns res - 1) = Some r /\
                Value.truthy (deal r) = true /\ offer r = r_dealPrice res
  | BySilence =>
      S (length (r_logs res)) = r_turns res /\ r_dealPrice res = Value.null /\
      exists r1 r2, reply_at E (calls w) (r_turns res - 2) = Some r1 /\
                    reply_at E (calls w) (r_turns res - 1) = Some r2 /\
                    Value.is_null (offer r1) = true /\
                    Value.is_null (offer r2) = true
  | ByTurnCap =>
      r_turns res = 12 /\ length (r_logs res) = 12 /\ r_dealPrice res = Value.null
  end.
Proof.
  intros Hrun.
  destruct (runMatch_ends _ _ _ _ _ _ _ _ Hrun)
    as (scn & se & be & sb & w0 & l & wl & lf & wf & Hc & Hv & He & Hfin).
  destruct (finish_spec _ _ _ _ _ _ _ _ _ _ _ Hfin)
    as (_ & Hdr & Hp & Ht & Hl & _ & _ & _ & _ & Hcalls).
  destruct (exit_ledger E (seller_agent sellerConf) (buyer_agent buyerConf) w0 l wl lf wf eq_refl eq_refl eq_refl eq_refl Hv He)
    as (Hcf & Hb & _ & _ & Hcases).
  destruct (exit_inv_ends E (seller_agent sellerConf) (buyer_agent buyerConf) w0 l wl lf wf eq_refl eq_refl Hv He) as (Hxi & _ & _).
  rewrite Hc in *. unfold ending_of. rewrite Hdr, Hp, Ht, Hl.
  split; [exact Hb|].
  split.
  { intros Hnil. destruct Hcases as [(_ & Hlen & _) | [(_ & Hlen & _) | (_ & Hlen & H2 & _)]];
      rewrite Hnil in Hlen; simpl in Hlen; lia. }
  split; [congruence|].
  destruct Hcases as [(Hd & Hlen & Hlg) | [(Hd & Hlen & Hcap) | (Hd & Hlen & H2 & Hrs)]];
    rewrite Hd.
  - split; [exact Hlen|].
    destruct (xi_deal _ _ _ _ _ Hxi Hd) as (_ & Hnn & _). split; [exact Hnn|].
    destruct (lg_deal _ _ _ Hlg Hd) as (n & j & p & r & Hn & Hat & Hdeal & Hoff & _).
    exists r. rewrite Hn. replace (S n - 1) with n by lia. auto.
  - rewrite Hlen, Nat.ltb_irrefl. unfold maxTurns in Hcap.
    split; [exact Hcap|]. split; [congruence|]. exact (xi_no_deal _ _ _ _ _ Hxi Hd).
  - assert (Hlt : (length (logs lf) <? turns lf)%nat = true) by (apply Nat.ltb_lt; lia).
    rewrite Hlt. split; [exact Hlen|]. split; [exact (xi_no_deal _ _ _ _ _ Hxi Hd)|].
    exact Hrs.
Qed.

(** The seller asks 50000, then nobody makes an offer: three turns, two of
    them in the log. *)
Lemma match_endings_witness :
  exists res w',
    runMatch (script [say (Some 50000%float) false] None)
      "1_1" conf_B conf_A None empty_world = (Returned res, w') /\
    1 <= r_turns res <= 12 /\ r_logs res <> [] /\ calls w' = r_turns res.
Proof.
  destruct (runMatch (script [say (Some 50000%float) false] None)
              "1_1" conf_B conf_A None empty_world)
    as [[res| |] w'] eqn:Hrun;
    [| exfalso; vm_compute in Hrun; discriminate ..].
  exists res, w'. split; [reflexivity|].
  destruct (match_endings _ _ _ _ _ _ _ _ Hrun) as (Hb & Hne & Hc & _).
  split; [exact Hb|]. split; [exact Hne | exact Hc].
Defined.

(** The seller opens and the roles alternate: the log entry of turn [i + 1]
    is numbered [i + 1], its role is the seller's when [i] is even and the
    buyer's when [i] is odd, and its sender is the name of that side's
    configuration followed by the role in parentheses. *)
Theorem log_speakers_alternate (E : env) (runId : string) (buyerConf sellerConf : conf)
    (tid : option string) (w : world) (res : match_result) (w' : world) :
  runMatch E runId buyerConf sellerConf tid w = (Returned res, w') ->
  forall i e, r_logs res !! i = Some e ->
    log_turn e = S i /\
    log_role e = (if Nat.even i then Seller else Buyer) /\
    log_sender e = (if Nat.even i then conf_name sellerConf ++ " (seller)"
                    else conf_name buyerConf ++ " (buyer)")%string.
Proof.
  intros Hrun i e He.
  destruct (runMatch_Returned _ _ _ _ _ _ _ _ Hrun)
    as (scn & se & be & w0 & lf & wf & sb & _ & _ & Hx & _ & _ & _ & Hfin).
  destruct (finish_spec _ _ _ _ _ _ _ _ _ _ _ Hfin) as (_ & _ & _ & _ & Hl & _).
  rewrite Hl in He.
  destruct (xi_entries _ _ _ _ _ Hx i e He) as (r0 & lowered & _ & -> & _).
  unfold speaker_ref. destruct (Nat.even i); simpl; auto.
Qed.

Lemma log_speakers_alternate_witness :
  exists res w',
    runMatch haggle "1_1" conf_B conf_A None empty_world = (Returned res, w') /\
    forall i e, r_logs res !! i = Some e ->
      log_role e = (if Nat.even i then Seller else Buyer).
Proof.
  destruct (runMatch haggle "1_1" conf_B conf_A None empty_world)
    as [[res| |] w'] eqn:Hrun;
    [| exfalso; vm_compute in Hrun; discriminate ..].
  exists res, w'. split; [reflexivity|].
  intros i e He.
  exact (proj1 (proj2 (log_speakers_alternate _ _ _ _ _ _ _ _ Hrun i e He))).
Defined.

(** The tokens that the result reports for a side are the output tokens of
    the logged turns which that side spoke; the turn that the silence rule
    cuts short is not counted. *)
Theorem thinking_tokens_accounted (E : env) (runId : string)
    (buyerConf sellerConf : conf) (tid : option string) (w : world)
    (res : match_result) (w' : world) :
  runMatch E runId buyerConf sellerConf tid w = (Returned res, w') ->
  s_thinkingTokens (r_seller res)
  = tokens_of E (calls w) Seller (length (r_logs res)) /\
  s_thinkingTokens (r_buyer res)
  = tokens_of E (calls w) Buyer (length (r_logs res)).
Proof.
  intros Hrun.
  destruct (runMatch_ends _ _ _ _ _ _ _ _ Hrun)
    as (scn & se & be & sb & w0 & l & wl & lf & wf & Hc & Hv & He & Hfin).
  destruct (exit_ledger E (seller_agent sellerConf) (buyer_agent buyerConf) w0 l wl lf wf eq_refl eq_refl eq_refl eq_refl Hv He)
    as (_ & _ & Hs & Hb & _).
  rewrite Hc in *.
  unfold finish in Hfin. destruct sb as [ss bs].
  inversion Hfin; subst; clear Hfin. simpl. auto.
Qed.

(** Each reply of the script uses 7 tokens; the seller spoke twice. *)
Lemma thinking_tokens_accounted_witness :
  exists res w',
    runMatch haggle "1_1" conf_B conf_A None empty_world = (Returned res, w') /\
    s_thinkingTokens (r_seller res) = tokens_of haggle 0 Seller (length (r_logs res)).
Proof.
  destruct (runMatch haggle "1_1" conf_B conf_A None empty_world)
    as [[res| |] w'] eqn:Hrun;
    [| exfalso; vm_compute in Hrun; discriminate ..].
  exists res, w'. split; [reflexivity|].
  exact (proj1 (thinking_tokens_accounted _ _ _ _ _ _ _ _ Hrun)).
Defined.

Lemma log_entry_offer (E : env) (s0 b0 : agent) (c0 : nat) (lf : locals)
    (i : nat) (e : log_entry) :
  exit_inv E s0 b0 c0 lf -> logs lf !! i = Some e ->
  (exists r, reply_at E c0 i = Some r /\ offer (log_content e) = offer r) /\
  log_role e = role (match speaker_ref i with Seller => s0 | Buyer => b0 end).
Proof.
  intros Hx He. destruct (xi_entries _ _ _ _ _ Hx i e He) as (r0 & lowered & Hg & Heq & _).
  split; [|now rewrite Heq].
  exists r0. unfold reply_at. rewrite Hg. split; [reflexivity|].
  rewrite Heq. destruct lowered; [apply offer_lower | reflexivity].
Qed.

(** A deal is always struck at the opponent's latest offer.  In the log of a
    match that reached a deal, the [deal] of the last entry is truthy and
    its offer is the agreed price, which is not [null]; the latest entry
    before it whose offer is not [null] was spoken by the other side, and
    the price is [===] to its offer; the offer of every entry in between is
    [null]. *)
Theorem deal_takes_opponents_offer (E : env) (runId : string)
    (buyerConf sellerConf : conf) (tid : option string) (w : world)
    (res : match_result) (w' : world) :
  runMatch E runId buyerConf sellerConf tid w = (Returned res, w') ->
  r_dealReached res = true ->
  exists n j ef ej,
    r_turns res = S n /\ length (r_logs res) = S n /\
    r_logs res !! n = Some ef /\ Value.truthy (deal (log_content ef)) = true /\
    offer (log_content ef) = r_dealPrice res /\
    Value.is_null (r_dealPrice res) = false /\
    j < n /\ r_logs res !! j = Some ej /\
    Value.is_null (offer (log_content ej)) = false /\
    Value.strict_eq (r_dealPrice res) (offer (log_content ej)) = true /\
    log_role ej = opposite (log_role ef) /\
    forall k e, j < k < n -> r_logs res !! k = Some e ->
                Value.is_null (offer (log_content e)) = true.
Proof.
  intros Hrun Hdeal.
  destruct (runMatch_ends _ _ _ _ _ _ _ _ Hrun)
    as (scn & se & be & sb & w0 & l & wl & lf & wf & Hc & Hv & He & Hfin).
  destruct (finish_spec _ _ _ _ _ _ _ _ _ _ _ Hfin)
    as (_ & Hdr & Hp & Ht & Hl & _).
  destruct (exit_ledger E (seller_agent sellerConf) (buyer_agent buyerConf) w0 l wl lf wf eq_refl eq_refl eq_refl eq_refl Hv He)
    as (_ & _ & _ & _ & Hcases).
  destruct (exit_inv_ends E (seller_agent sellerConf) (buyer_agent buyerConf) w0 l wl lf wf eq_refl eq_refl Hv He) as (Hxi & _ & _).
  rewrite Hdr in Hdeal. rewrite Hp, Ht, Hl.
  destruct Hcases as [(Hd & Hlen & Hlg) | [(Hd & _) | (Hd & _)]]; try congruence.
  destruct (lg_deal _ _ _ Hlg Hd)
    as (n & j & p & r & Hn & Hat & Htruthy & Hoff & (Hj & (rj & Hrj & Hop) & Hpn & Hbetween)
        & Heq & Hsp & ef & Hef & Hcontent).
  assert (Hjlen : j < length (logs lf)) by lia.
  destruct (lookup_lt_is_Some_2 _ _ Hjlen) as [ej Hej].
  destruct (log_entry_offer E _ _ _ lf n ef Hxi Hef) as [_ Hrf].
  destruct (log_entry_offer E _ _ _ lf j ej Hxi Hej) as [(rj' & Hrj' & Hoj) Hrole].
  assert (Hoj' : offer (log_content ej) = p) by congruence.
  exists n, j, ef, ej.
  split; [exact Hn|]. split; [congruence|]. split; [exact Hef|].
  split; [now rewrite Hcontent|]. split; [now rewrite Hcontent|].
  split; [exact (proj1 (proj2 (xi_deal _ _ _ _ _ Hxi Hd)))|].
  split; [exact Hj|]. split; [exact Hej|].
  split; [now rewrite Hoj'|]. split; [now rewrite Hoj'|]. split.
  - rewrite Hrole, Hrf, Hsp. now destruct (speaker_ref n).
  - intros k e Hk Hek. destruct (log_entry_offer E _ _ _ lf k e Hxi Hek) as [(rk & Hrk & Hok) _].
    rewrite Hok. destruct (Hbetween k Hk) as (rk' & Hrk' & Hnull). congruence.
Qed.

Lemma deal_takes_opponents_offer_witness :
  exists res w',
    runMatch haggle "1_1" conf_B conf_A None empty_world = (Returned res, w') /\
    exists n j ef ej,
      r_logs res !! n = Some ef /\ r_logs res !! j = Some ej /\ j < n /\
      log_role ej = opposite (log_role ef).
Proof.
  destruct (runMatch haggle "1_1" conf_B conf_A None empty_world)
    as [[res| |] w'] eqn:Hrun;
    [| exfalso; vm_compute in Hrun; discriminate ..].
  assert (Hd : r_dealReached res = true).
  { pose proof (f_equal (fun x => match x.1 with
                                  | Returned r => r_dealReached r
                                  | _ => false
                                  end) Hrun) as Hp.
    vm_compute in Hp. symmetry. exact Hp. }
  exists res, w'. split; [reflexivity|].
  destruct (deal_takes_opponents_offer _ _ _ _ _ _ _ _ Hrun Hd)
    as (n & j & ef & ej & _ & _ & Hef & _ & _ & _ & Hj & Hej & _ & _ & Hr & _).
  exists n, j, ef, ej. auto.
Defined.

(** ** The directory of results *)

Lemma store_ok_save (r : match_result) (w w' : world) :
  store_ok w ->
  files w' = write_result (files w) r ->
  manifest w' = prepend_summary (manifest w) r ->
  store_ok w'.
Proof.
  intros [Hl Hh] Hf Hm. split.
  - intros e He. rewrite Hm in He. simpl in He. rewrite Hf. unfold write_result.
    apply elem_of_cons in He. destruct He as [-> | He].
    + simpl. rewrite lookup_insert_eq. eauto.
    + destruct (decide (r_id r = me_id e)) as [Heq|Hne].
      * rewrite Heq, lookup_insert_eq. eauto.
      * rewrite lookup_insert_ne by exact Hne. now apply Hl.
  - intros id res Hres. rewrite Hm. simpl. rewrite Hf in Hres. unfold write_result in Hres.
    rewrite filter_cons. simpl.
    destruct (decide (r_id r = id)) as [Heq|Hne].
    + subst id. rewrite lookup_insert_eq in Hres. inversion Hres; subst. reflexivity.
    + rewrite lookup_insert_ne in Hres by exact Hne. now apply Hh.
Qed.

Lemma store_ok_written (rs : list match_result) (w w' : world) :
  store_ok w ->
  files w' = foldl write_result (files w) rs ->
  manifest w' = foldl prepend_summary (manifest w) rs ->
  store_ok w'.
Proof.
  revert w w'. induction rs as [|r rs IH]; intros w w' Hok Hf Hm; simpl in *.
  - destruct Hok as [Hl Hh]. split.
    + intros e. rewrite Hm, Hf. apply Hl.
    + intros id res. rewrite Hm, Hf. apply Hh.
  - apply (IH {| calls := calls w; rng := rng w; clock := clock w; sink := sink w;
                 console := console w; files := write_result (files w) r;
                 manifest := prepend_summary (manifest w) r |} w'); auto.
    eapply (store_ok_save r w); eauto.
Qed.

(** A tournament keeps the directory of results consistent, however it ends:
    afterwards every entry of the manifest still has its run file, and the
    first entry listed for a run id is the summary of the file stored under
    that id. *)
Theorem tournament_keeps_store (E : env) (o : options) (w : world) :
  store_ok w -> store_ok (runTournament E o w).2.
Proof.
  intros Hok.
  destruct (runTournament_progress E o w) as (_ & st & rs & Hp & _).
  eapply store_ok_written; [exact Hok | |].
  - exact (pg_files _ _ _ _ _ Hp).
  - exact (pg_manifest _ _ _ _ _ Hp).
Qed.

Lemma store_ok_empty : store_ok empty_world.
Proof.
  split; simpl.
  - intros e He. now apply elem_of_nil in He.
  - intros id res Hres. now rewrite lookup_empty in Hres.
Qed.

Lemma tournament_keeps_store_witness :
  store_ok (runTournament (script [] None) two_models empty_world).2.
Proof.
  exact (tournament_keeps_store (script [] None) two_models empty_world store_ok_empty).
Defined.

(** ** The roster *)

Lemma obj_set_keys (o : js_object) (k v : string) :
  (obj_set o k v).*1
  = if decide (k = "__proto__") then o.*1
    else if decide (k ∈ o.*1) then o.*1 else o.*1 ++ [k].
Proof.
  unfold obj_set. destruct (String.eqb k "__proto__") eqn:He.
  - apply String.eqb_eq in He. now rewrite decide_True.
  - apply String.eqb_neq in He. rewrite decide_False by exact He. apply obj_put_keys.
Qed.

Lemma resolve_fold_keys (acc : js_object) (sel : list string) :
  (foldl (fun modelMap m =>
            match obj_get MODELS (strip_4_5 m) with
            | Some id => obj_set modelMap m id
            | None => obj_set modelMap m m
            end) acc sel).*1
  = foldl (fun acc x => if decide (x ∈ acc) then acc else acc ++ [x]) acc.*1
      (filter (fun m => m <> "__proto__") sel).
Proof.
  revert acc. induction sel as [|m ms IH]; intros acc; cbn [foldl]; [reflexivity|].
  rewrite IH. rewrite filter_cons.
  destruct (decide (m <> "__proto__")) as [Hp|Hp].
  - cbn [foldl].
    destruct (obj_get MODELS (strip_4_5 m)); rewrite obj_set_keys;
      rewrite decide_False by exact Hp; reflexivity.
  - assert (Hm : m = "__proto__") by (destruct (decide (m = "__proto__")); tauto).
    destruct (obj_get MODELS (strip_4_5 m)); rewrite obj_set_keys;
      rewrite decide_True by exact Hm; reflexivity.
Qed.

Lemma resolve_models_keys (sel : list string) :
  (resolve_models sel).*1
  = first_occurrences (filter (fun m => m <> "__proto__") sel).
Proof. apply (resolve_fold_keys [] sel). Qed.

Lemma first_occurrences_index_free (acc l : list string) :
  Forall (fun k => array_index_key k = None) acc ->
  Forall (fun k => array_index_key k = None) l ->
  Forall (fun k => array_index_key k = None)
    (foldl (fun acc x => if decide (x ∈ acc) then acc else acc ++ [x]) acc l).
Proof.
  revert acc. induction l as [|x l IH]; intros acc Ha Hl; cbn [foldl]; [exact Ha|].
  apply Forall_cons in Hl. destruct Hl as [Hx Hl].
  apply IH; [|exact Hl].
  destruct (decide (x ∈ acc)); [exact Ha|].
  apply Forall_app. split; [exact Ha|]. now constructor.
Qed.

Lemma Object_keys_index_free (o : js_object) :
  Forall (fun k => array_index_key k = None) o.*1 -> Object_keys o = o.*1.
Proof.
  intros H. unfold Object_keys.
  assert (Hi : index_keys o.*1 = []).
  { unfold index_keys. induction H as [|k ks Hk _ IH]; [reflexivity|].
    cbn [omap list_omap]. now rewrite Hk. }
  rewrite Hi. clear Hi. cbn [sort_by_index foldr fmap list_fmap app].
  induction H as [|k ks Hk _ IH]; [reflexivity|].
  rewrite filter_cons, decide_True by exact Hk. now rewrite IH.
Qed.

(** The order of play.  The roster is played in the order of [Object.keys]
    of the name-to-id map: the names that are array indices first, in
    ascending numeric order, then the other names in the order in which the
    selection first mentions them; a name selected twice is played once, and
    the name [__proto__] is dropped.  Without integer-like names this is the
    selection without its repetitions. *)
Theorem roster_order (o : options) :
  let names := first_occurrences (filter (fun m => m <> "__proto__") (selected o)) in
  modelKeys_of o
  = (sort_by_index (index_keys names)).*2
    ++ filter (fun k => array_index_key k = None) names /\
  (Forall (fun k => array_index_key k = None) (selected o) -> modelKeys_of o = names).
Proof.
  intros names. unfold modelKeys_of, modelMap_of. fold (selected o).
  split.
  - unfold Object_keys. now rewrite resolve_models_keys.
  - intros H. rewrite Object_keys_index_free; rewrite resolve_models_keys; [reflexivity|].
    apply first_occurrences_index_free; [constructor|].
    apply Forall_forall. intros x Hx. apply list_elem_of_filter in Hx.
    destruct Hx as [_ Hx]. exact (proj1 (Forall_forall _ _) H x Hx).
Qed.

(** A name selected twice is played once, in its first place. *)
Lemma roster_order_witness : modelKeys_of three_models = ["A"; "B"; "C"].
Proof.
  rewrite (proj2 (roster_order three_models)); [reflexivity|].
  repeat constructor.
Defined.

Lemma obj_get_put (o : js_object) (k v k' : string) :
  obj_get (obj_put o k v) k' = if String.eqb k k' then Some v else obj_get o k'.
Proof.
  induction o as [|[k0 v0] o IH]; cbn [obj_put obj_get].
  - reflexivity.
  - destruct (String.eqb k0 k) eqn:H0.
    + apply String.eqb_eq in H0. subst k0. cbn [obj_get].
      destruct (String.eqb k k'); reflexivity.
    + cbn [obj_get]. rewrite IH. destruct (String.eqb k0 k') eqn:H1; [|reflexivity].
      apply String.eqb_eq in H1. subst k0. now rewrite String.eqb_sym, H0.
Qed.

Lemma resolve_models_get (sel : list string) (m : string) :
  m ∈ sel -> m <> "__proto__" ->
  obj_get (resolve_models sel) m = Some (resolved_id m).
Proof.
  intros Hin Hp. unfold resolve_models.
  assert (H : forall acc : js_object,
            (m ∈ sel \/ obj_get acc m = Some (resolved_id m)) ->
            obj_get (foldl (fun modelMap m =>
                              match obj_get MODELS (strip_4_5 m) with
                              | Some id => obj_set modelMap m id
                              | None => obj_set modelMap m m
                              end) acc sel) m = Some (resolved_id m)).
  { clear Hin. induction sel as [|x xs IH]; intros acc Hc; cbn [foldl].
    - destruct Hc as [Hc|Hc]; [now apply elem_of_nil in Hc | exact Hc].
    - apply IH.
      assert (Hx : match obj_get MODELS (strip_4_5 x) with
                   | Some id => obj_set acc x id
                   | None => obj_set acc x x
                   end = obj_set acc x (resolved_id x)).
      { unfold resolved_id. now destruct (obj_get MODELS (strip_4_5 x)). }
      rewrite Hx. unfold obj_set.
      destruct (String.eqb x "__proto__") eqn:Hxp.
      + apply String.eqb_eq in Hxp. destruct Hc as [Hc|Hc]; [|now right].
        apply elem_of_cons in Hc. destruct Hc as [->|Hc]; [contradiction | now left].
      + rewrite obj_get_put. destruct (String.eqb x m) eqn:Hxm.
        * apply String.eqb_eq in Hxm. subst x. now right.
        * apply String.eqb_neq in Hxm. destruct Hc as [Hc|Hc]; [|now right].
          apply elem_of_cons in Hc. destruct Hc as [->|Hc]; [contradiction | now left]. }
  apply H. now left.
Qed.

Lemma elem_of_first_occurrences_fold (acc l : list string) (x : string) :
  x ∈ foldl (fun acc x => if decide (x ∈ acc) then acc else acc ++ [x]) acc l
  <-> x ∈ acc \/ x ∈ l.
Proof.
  revert acc. induction l as [|y l IH]; intros acc; cbn [foldl].
  - rewrite elem_of_nil. tauto.
  - rewrite IH, elem_of_cons. destruct (decide (y ∈ acc)) as [Hy|Hy].
    + split; [tauto|]. intros [H | [-> | H]]; auto.
    + rewrite elem_of_app, list_elem_of_singleton. tauto.
Qed.

Lemma elem_of_modelKeys (o : options) (m : string) :
  m ∈ modelKeys_of o <-> m ∈ selected o /\ m <> "__proto__".
Proof.
  unfold modelKeys_of, modelMap_of. fold (selected o).
  rewrite Object_keys_perm, resolve_models_keys.
  unfold first_occurrences. rewrite elem_of_first_occurrences_fold, elem_of_nil.
  rewrite list_elem_of_filter. tauto.
Qed.

(** Who plays, and under which id.  The roster consists of the selected
    names other than [__proto__].  A name whose clean key (the name without
    its first [" 4.5"]) is a key of [MODELS] is played under the id that the
    table gives; any other name is used as a raw model id (for a clean key
    that no object inherits from [Object.prototype]). *)
Theorem roster_ids (o : options) (m : string) :
  (m ∈ modelKeys_of o <-> m ∈ selected o /\ m <> "__proto__") /\
  (m ∈ modelKeys_of o ->
   (forall id, obj_get MODELS (strip_4_5 m) = Some id ->
      conf_of (modelMap_of o) m = {| conf_name := m; conf_modelId := id |}) /\
   (obj_get MODELS (strip_4_5 m) = None ->
    strip_4_5 m ∉ Object_prototype_names ->
      conf_of (modelMap_of o) m = {| conf_name := m; conf_modelId := m |})).
Proof.
  split; [apply elem_of_modelKeys|].
  intros Hin. apply elem_of_modelKeys in Hin. destruct Hin as [Hin Hp].
  unfold conf_of, modelMap_of. fold (selected o).
  rewrite (resolve_models_get (selected o) m Hin Hp). unfold resolved_id.
  split.
  - intros id ->. reflexivity.
  - intros -> _. reflexivity.
Qed.

Lemma roster_ids_witness :
  conf_of (modelMap_of two_models) "A" = {| conf_name := "A"; conf_modelId := "A" |}.
Proof.
  assert (Hin : "A" ∈ modelKeys_of two_models).
  { apply (proj1 (roster_ids two_models "A")). split; [|discriminate].
    apply list_elem_of_In. simpl. auto. }
  apply (proj2 (proj2 (roster_ids two_models "A") Hin)); [reflexivity|].
  intros H. apply list_elem_of_In in H. simpl in H.
  repeat (destruct H as [H|H]; [discriminate|]). destruct H.
Defined.

(** ** Replies inside prose *)







(** ** The controller of the running benchmark *)

Lemma server_ok_start : server_ok server_start.
Proof.
  split; simpl.
  - discriminate.
  - intros c H. now apply elem_of_nil in H.
Qed.

Lemma server_ok_handle (s : server) (r : request) :
  server_ok s -> server_ok (handle s r).
Proof.
  intros Hs.
  pose proof (sv_active s Hs) as Ha. pose proof (sv_aborted s Hs) as Hb.
  destruct r as [| |c]; simpl.
  - unfold install.
    assert (Hall : forall c, c ∈ match activeController s with
                                 | Some c' => c' :: abortedControllers s
                                 | None => abortedControllers s
                                 end -> c < created s).
    { intros c Hin. destruct (activeController s) as [c'|] eqn:Hact.
      - apply elem_of_cons in Hin. destruct Hin as [Heq|Hin].
        + subst c. now destruct (Ha _ eq_refl).
        + now apply Hb.
      - now apply Hb. }
    split; simpl.
    + intros c Hc. inversion Hc; subst. split; [lia|].
      intros Hin. apply Hall in Hin. lia.
    + intros c Hin. apply Hall in Hin. lia.
  - unfold stop. destruct (activeController s) as [c'|] eqn:Hact; simpl; [|exact Hs].
    split; simpl; [discriminate|].
    intros c Hin. apply elem_of_cons in Hin. destruct Hin as [Heq|Hin].
    + subst c. now destruct (Ha _ eq_refl).
    + now apply Hb.
  - unfold on_close. destruct (activeController s) as [c'|] eqn:Hact; [|exact Hs].
    destruct (Nat.eqb c' c); [|exact Hs].
    split; simpl; [discriminate | exact Hb].
Qed.

Lemma server_ok_serve (rs : list request) (s : server) :
  server_ok s -> server_ok (serve rs s).
Proof.
  revert s. induction rs as [|r rs IH]; intros s Hs; [exact Hs|].
  apply IH. now apply server_ok_handle.
Qed.

(** A controller that is neither active nor aborted stays so. *)
Lemma detached_stays (rs : list request) (s : server) (c : nat) :
  server_ok s -> c < created s ->
  activeController s <> Some c -> c ∉ abortedControllers s ->
  c ∉ abortedControllers (serve rs s).
Proof.
  revert s. induction rs as [|r rs IH]; intros s Hs Hc Hact Hab; [exact Hab|].
  unfold serve. cbn [foldl]. apply IH.
  - now apply server_ok_handle.
  - destruct r as [| |c']; simpl; [lia | |].
    + unfold stop. destruct (activeController s); simpl; exact Hc.
    + unfold on_close. destruct (activeController s) as [c0|]; [|exact Hc].
      destruct (Nat.eqb c0 c'); simpl; exact Hc.
  - destruct r as [| |c']; simpl.
    + intros H. inversion H. lia.
    + unfold stop. destruct (activeController s) eqn:H0; simpl; [discriminate|].
      now rewrite H0.
    + unfold on_close. destruct (activeController s) as [c0|] eqn:H0; [|now rewrite H0].
      destruct (Nat.eqb c0 c'); simpl; [discriminate | now rewrite H0].
  - destruct r as [| |c']; simpl.
    + destruct (activeController s) as [c0|] eqn:H0; [|exact Hab].
      intros Hin. apply elem_of_cons in Hin. destruct Hin as [Heq|Hin]; [|contradiction].
      subst c0. now apply Hact.
    + unfold stop. destruct (activeController s) as [c0|] eqn:H0; simpl; [|exact Hab].
      intros Hin. apply elem_of_cons in Hin. destruct Hin as [Heq|Hin]; [|contradiction].
      subst c0. now apply Hact.
    + unfold on_close. destruct (activeController s) as [c0|]; [|exact Hab].
      destruct (Nat.eqb c0 c'); simpl; exact Hab.
Qed.

(** A benchmark whose client has disconnected cannot be stopped any more.
    If the [close] listener of a start request runs while the controller of
    that request is the active one, then whatever requests follow (stop
    requests, new start requests, further disconnections), [abort()] is
    never called on that controller: its signal stays unset, and the first
    stop request that follows is answered with [no_active_benchmark] unless
    another benchmark has been started in between. *)
Theorem disconnected_run_cannot_be_stopped (before after : list request) (c : nat) :
  let s := serve before server_start in
  activeController s = Some c ->
  signal_aborted c (serve (before ++ ConnectionClosed c :: after) server_start) = false /\
  (stop (on_close c s)).1 = NoActiveBenchmark.
Proof.
  intros s Hact.
  pose proof (server_ok_serve before server_start server_ok_start) as Hok.
  fold s in Hok. destruct (sv_active _ Hok c Hact) as [Hlt Hnot].
  split.
  - unfold signal_aborted. apply bool_decide_eq_false.
    unfold serve. rewrite foldl_app. cbn [foldl]. fold (serve before server_start). fold s.
    apply (detached_stays after).
    + now apply (server_ok_handle s (ConnectionClosed c)).
    + simpl. unfold on_close. rewrite Hact, Nat.eqb_refl. exact Hlt.
    + simpl. unfold on_close. rewrite Hact, Nat.eqb_refl. discriminate.
    + simpl. unfold on_close. rewrite Hact, Nat.eqb_refl. exact Hnot.
  - unfold on_close. rewrite Hact, Nat.eqb_refl. reflexivity.
Qed.

(** A benchmark is started, its client disconnects, two stop requests
    follow: the signal of the benchmark is not set. *)
Lemma disconnected_run_cannot_be_stopped_witness :
  signal_aborted 0
    (serve [StartRequest; ConnectionClosed 0; StopRequest; StopRequest] server_start)
  = false.
Proof.
  exact (proj1 (disconnected_run_cannot_be_stopped [StartRequest]
                  [StopRequest; StopRequest] 0 eq_refl)).
Defined.

(** While its client is connected, a benchmark is stopped by a stop request
    and by the start of another benchmark: both call [abort()] on the
    controller that is active. *)
Lemma active_run_is_stopped (s : server) (c : nat) :
  activeController s = Some c ->
  signal_aborted c (stop s).2 = true /\ signal_aborted c (install s).2 = true.
Proof.
  intros Hact. unfold signal_aborted, stop, install. rewrite Hact. simpl.
  split; apply bool_decide_eq_true; now left.
Qed.

(** ** The event stream *)

Lemma option_map_app_nil {A} (x : option (list A)) : option_map (app []) x = x.
Proof. now destruct x. Qed.

Ltac lex_head :=
  match goal with
  | |- context [Json.lex ?st (?c :: ?r)] =>
      let x := eval vm_compute in (Json.lex_step st c) in
      change (Json.lex st (c :: r))
        with (match x with
              | Some (st', toks) => option_map (app toks) (Json.lex st' r)
              | None => None
              end);
      cbv beta iota
  end.

Lemma lex_escape_char (c : ascii) (acc rest : list ascii) :
  Json.lex (Json.LStr acc) (Sse.escape_char c ++ rest)
  = Json.lex (Json.LStr (c :: acc)) rest.
Proof.
  destruct c as [b0 b1 b2 b3 b4 b5 b6 b7].
  destruct b0, b1, b2, b3, b4, b5, b6, b7;
    match goal with
    | |- context [Sse.escape_char ?c] =>
        let e := eval vm_compute in (Sse.escape_char c) in
        change (Sse.escape_char c) with e
    end;
    cbn [app]; repeat lex_head; rewrite ?option_map_app_nil;
    first [reflexivity | destruct acc as [|? [|? [|? ?]]]; reflexivity].
Qed.

Lemma lex_escaped (s acc rest : list ascii) :
  Json.lex (Json.LStr acc) (flat_map Sse.escape_char s ++ Sse.quote_char :: rest)
  = option_map (cons (Json.TString (string_of_list_ascii (rev acc ++ s))))
      (Json.lex Json.LStart rest).
Proof.
  revert acc. induction s as [|c s IH]; intros acc.
  - cbn [flat_map app]. rewrite app_nil_r.
    change (Json.lex (Json.LStr acc) (Sse.quote_char :: rest))
      with (option_map (app [Json.TString (string_of_list_ascii (rev acc))])
              (Json.lex Json.LStart rest)).
    reflexivity.
  - cbn [flat_map]. rewrite <- app_assoc, lex_escape_char, IH.
    cbn [rev]. now rewrite <- app_assoc.
Qed.

Lemma lex_quoted (s rest : list ascii) :
  Json.lex Json.LStart (Sse.quote s ++ rest)
  = option_map (cons (Json.TString (string_of_list_ascii s)))
      (Json.lex Json.LStart rest).
Proof.
  unfold Sse.quote. cbn [app]. rewrite <- app_assoc. cbn [app].
  change (Json.lex Json.LStart
            (Sse.quote_char :: flat_map Sse.escape_char s ++ Sse.quote_char :: rest))
    with (option_map (app [])
            (Json.lex (Json.LStr []) (flat_map Sse.escape_char s ++ Sse.quote_char :: rest))).
  rewrite lex_escaped. cbn [rev app]. now destruct (Json.lex Json.LStart rest).
Qed.

Lemma chars_string (s : string) : string_of_list_ascii (Sse.chars s) = s.
Proof. apply string_of_list_ascii_of_string. Qed.

Lemma JSON_parse_payload (ev : sse_event) :
  JSON_parse (payload ev)
  = Returned (JObject (match ev with
                       | ELog text => [("type", JString "log"); ("text", JString text)]
                       | EError text => [("type", JString "error"); ("text", JString text)]
                       | EComplete => [("type", JString "complete")]
                       end)).
Proof.
  unfold JSON_parse, payload. rewrite list_ascii_of_string_of_list_ascii.
  destruct ev as [text|text|]; unfold Sse.stringify;
    change (Sse.chars "{") with ["{"%char];
    change (Sse.chars ":") with [":"%char];
    change (Sse.chars ",") with [","%char];
    change (Sse.chars "}") with ["}"%char];
    cbn [app];
    change (Json.lex Json.LStart ("{"%char :: ?x))
      with (option_map (app [Json.TLBrace]) (Json.lex Json.LStart x));
    repeat (rewrite lex_quoted; cbn [app];
            try change (Json.lex Json.LStart (":"%char :: ?x))
              with (option_map (app [Json.TColon]) (Json.lex Json.LStart x));
            try change (Json.lex Json.LStart (","%char :: ?x))
              with (option_map (app [Json.TComma]) (Json.lex Json.LStart x)));
    rewrite !chars_string; reflexivity.
Qed.

Lemma decode_payload (ev : sse_event) :
  decode (JObject (match ev with
                   | ELog text => [("type", JString "log"); ("text", JString text)]
                   | EError text => [("type", JString "error"); ("text", JString text)]
                   | EComplete => [("type", JString "complete")]
                   end)) = Some (Some ev).
Proof. now destruct ev. Qed.

Lemma onmessage_payload (ev : sse_event) (st : runner) :
  onmessage (payload ev) st = Some (on_event ev st).
Proof. unfold onmessage. now rewrite JSON_parse_payload, decode_payload. Qed.

Lemma lacks_string_of_list (c : ascii) (l : list ascii) :
  Forall (fun a => a <> c) l -> lacks c (string_of_list_ascii l).
Proof. induction 1; simpl; auto. Qed.

Lemma escape_char_one_line (c : ascii) :
  Forall (fun a => a <> ascii_of_N 10 /\ a <> ascii_of_N 13) (Sse.escape_char c).
Proof.
  destruct c as [b0 b1 b2 b3 b4 b5 b6 b7].
  destruct b0, b1, b2, b3, b4, b5, b6, b7;
    match goal with
    | |- context [Sse.escape_char ?c] =>
        let e := eval vm_compute in (Sse.escape_char c) in
        change (Sse.escape_char c) with e
    end;
    repeat constructor; discriminate.
Qed.

Lemma quote_one_line (s : list ascii) :
  Forall (fun a => a <> ascii_of_N 10 /\ a <> ascii_of_N 13) (Sse.quote s).
Proof.
  unfold Sse.quote. constructor; [split; discriminate|].
  apply Forall_app. split; [|repeat constructor; discriminate].
  induction s as [|c s IH]; cbn [flat_map]; [constructor|].
  apply Forall_app. split; [apply escape_char_one_line | exact IH].
Qed.

Lemma stringify_one_line (ev : sse_event) :
  Forall (fun a => a <> ascii_of_N 10 /\ a <> ascii_of_N 13) (Sse.stringify ev).
Proof.
  destruct ev; unfold Sse.stringify;
    repeat (apply Forall_app; split);
    try apply quote_one_line; repeat constructor; discriminate.
Qed.

Lemma closed_runner_stays (evs : list sse_event) (st : runner) :
  rn_open st = false ->
  foldl (fun s ev => if rn_open s then on_event ev s else s) st evs = st.
Proof.
  intros Hc. induction evs as [|ev evs IH]; [reflexivity|].
  cbn [foldl]. rewrite Hc. exact IH.
Qed.

Lemma deliver_events (evs : list sse_event) (st : runner) :
  deliver (map payload evs) st
  = Some (foldl (fun s ev => if rn_open s then on_event ev s else s) st evs).
Proof.
  revert st. induction evs as [|ev evs IH]; intros st; [reflexivity|].
  cbn [map deliver foldl]. destruct (rn_open st) eqn:Ho.
  - rewrite onmessage_payload. apply IH.
  - f_equal. symmetry. now apply closed_runner_stays.
Qed.

Lemma log_events_stored (texts : list string) (st : runner) :
  rn_open st = true ->
  foldl (fun s ev => if rn_open s then on_event ev s else s) st (map ELog texts)
  = {| rn_logs := rn_logs st ++ texts; rn_isRunning := rn_isRunning st;
       rn_open := true; rn_completed := rn_completed st |}.
Proof.
  revert st. induction texts as [|t texts IH]; intros st Ho.
  - cbn [map foldl]. rewrite app_nil_r. destruct st; simpl in *. now subst.
  - cbn [map foldl]. rewrite Ho. rewrite IH by exact Ho.
    cbn [on_event rn_logs rn_isRunning rn_open rn_completed].
    now rewrite <- app_assoc.
Qed.

(** What the server sends is what the page stores.  For every event, the
    payload that the server writes is parsed by the page into the very event:
    the text of a log event is appended to the [logs] state of the page
    unchanged, whatever characters it contains.  A payload holds no line
    feed and no carriage return, so that it always fits the single [data:]
    line of its frame.  A stream of events is handled one by one, in order,
    up to the first event that closes the event source.  After the stream of
    a completed run [logs] holds the texts of the run followed by the
    closing text, the page is not running any more, and [onComplete] was
    called once.  ([renderLog], which draws a text of [logs] in the console
    pane, is not modelled.) *)
Theorem events_arrive_verbatim (evs : list sse_event) (st : runner) :
  (forall ev st0, onmessage (payload ev) st0 = Some (on_event ev st0)) /\
  (forall ev, one_line (payload ev)) /\
  deliver (map payload evs) st
  = Some (foldl (fun s ev => if rn_open s then on_event ev s else s) st evs) /\
  (forall texts, rn_open st = true ->
     deliver (map payload (map ELog texts ++ [EComplete])) st
     = Some {| rn_logs := rn_logs st ++ texts
                          ++ [String (ascii_of_N 10) "Benchmark Run Complete."];
               rn_isRunning := false; rn_open := false;
               rn_completed := S (rn_completed st) |}).
Proof.
  split; [exact onmessage_payload|]. split; [|split].
  - intros ev. unfold one_line, payload.
    split; apply lacks_string_of_list;
      (eapply Forall_impl; [apply stringify_one_line|]); simpl; tauto.
  - apply deliver_events.
  - intros texts Ho. rewrite deliver_events, foldl_app, log_events_stored by exact Ho.
    cbn [foldl rn_open on_event rn_logs rn_completed]. now rewrite <- app_assoc.
Qed.

(** ** The query of a start request *)

Lemma pretty_N_char_digit (d : N) :
  (d < 10)%N ->
  Value.digit_in 10 (pretty_N_char d) = Some d /\
  Value.is_ws1 (N_of_ascii (pretty_N_char d)) = false /\
  (48 <= N_of_ascii (pretty_N_char d) <= 57)%N.
Proof.
  intros Hd.
  assert (H : (d = 0 \/ d = 1 \/ d = 2 \/ d = 3 \/ d = 4 \/ d = 5 \/ d = 6
               \/ d = 7 \/ d = 8 \/ d = 9)%N) by lia.
  repeat (destruct H as [-> | H]; [vm_compute; intuition discriminate|]).
  subst d. vm_compute. intuition discriminate.
Qed.

Lemma digit_in_10_range (c : ascii) (d : N) :
  Value.digit_in 10 c = Some d -> (48 <= N_of_ascii c <= 57)%N.
Proof.
  unfold Value.digit_in.
  destruct ((48 <=? N_of_ascii c) && (N_of_ascii c <=? 57))%N eqn:H1.
  - intros _. apply andb_true_iff in H1. destruct H1 as [H1 H2].
    apply N.leb_le in H1, H2. lia.
  - destruct ((97 <=? N_of_ascii c) && (N_of_ascii c <=? 122))%N eqn:H2.
    + apply andb_true_iff in H2. destruct H2 as [H2 H3]. apply N.leb_le in H2.
      destruct (N_of_ascii c - 87 <? 10)%N eqn:H4; [|discriminate].
      apply N.ltb_lt in H4. lia.
    + destruct ((65 <=? N_of_ascii c) && (N_of_ascii c <=? 90))%N eqn:H3; [|discriminate].
      apply andb_true_iff in H3. destruct H3 as [H3 H5]. apply N.leb_le in H3.
      destruct (N_of_ascii c - 55 <? 10)%N eqn:H4; [|discriminate].
      apply N.ltb_lt in H4. lia.
Qed.

Lemma pretty_N_go_digits (x : N) (s : string) :
  all_digits s -> all_digits (pretty_N_go x s).
Proof.
  revert s. induction x as [x IH] using (well_founded_induction N.lt_wf_0).
  intros s Hs. destruct (decide (x = 0)%N) as [->|Hx]; [now rewrite pretty_N_go_0|].
  rewrite pretty_N_go_step by lia. apply IH.
  - apply N.div_lt; lia.
  - split; [|exact Hs]. exists (x mod 10)%N.
    apply pretty_N_char_digit. apply N.mod_lt. lia.
Qed.

Lemma scan_pretty_N_go (x : N) :
  (0 < x)%N ->
  exists k, forall acc s,
    Query.scan 10 acc (pretty_N_go x s)
    = Query.scan 10 (Some (default 0 acc * 10 ^ k + x)%N) s.
Proof.
  induction x as [x IH] using (well_founded_induction N.lt_wf_0). intros Hx.
  destruct (pretty_N_char_digit (x mod 10)%N) as (Hd & _); [apply N.mod_lt; lia|].
  pose proof (N.div_mod x 10 ltac:(lia)) as Hdm.
  destruct (decide (x / 10 = 0)%N) as [Hq|Hq].
  - exists 1%N. intros acc s. rewrite pretty_N_go_step by exact Hx.
    rewrite Hq, pretty_N_go_0. cbn [Query.scan]. rewrite Hd. do 2 f_equal.
    rewrite Hq in Hdm. change (10 ^ 1)%N with 10%N. lia.
  - destruct (IH (x / 10)%N) as [k Hk];
      [apply N.div_lt; lia | now apply N.neq_0_lt_0 |].
    exists (N.succ k). intros acc s. rewrite pretty_N_go_step by exact Hx.
    rewrite Hk. cbn [Query.scan]. rewrite Hd. cbn [default]. unfold id. do 2 f_equal.
    rewrite N.pow_succ_r'.
    set (q := (x / 10)%N) in *. set (m := (x mod 10)%N) in *.
    set (t := (10 ^ k)%N). set (a := default 0%N acc). lia.
Qed.

Lemma trim_start_plain (a : ascii) (s : string) :
  (33 <= N_of_ascii a <= 127)%N ->
  Value.trim_start (String a s) = String a s.
Proof.
  intros Ha. cbn [Value.trim_start].
  assert (H1 : Value.is_ws1 (N_of_ascii a) = false).
  { unfold Value.is_ws1. apply orb_false_iff. split.
    - apply andb_false_iff. right. apply N.leb_gt. lia.
    - apply N.eqb_neq. lia. }
  rewrite H1. destruct s as [|b s2]; [reflexivity|].
  assert (H2 : Value.is_ws2 (N_of_ascii a) (N_of_ascii b) = false).
  { unfold Value.is_ws2. apply andb_false_iff. left. apply N.eqb_neq. lia. }
  rewrite H2. destruct s2 as [|c s3]; [reflexivity|].
  assert (H3 : Value.is_ws3 (N_of_ascii a) (N_of_ascii b) (N_of_ascii c) = false).
  { unfold Value.is_ws3.
    assert (E1 : (N_of_ascii a =? 225)%N = false) by (apply N.eqb_neq; lia).
    assert (E2 : (N_of_ascii a =? 226)%N = false) by (apply N.eqb_neq; lia).
    assert (E3 : (N_of_ascii a =? 227)%N = false) by (apply N.eqb_neq; lia).
    assert (E4 : (N_of_ascii a =? 239)%N = false) by (apply N.eqb_neq; lia).
    now rewrite E1, E2, E3, E4. }
  now rewrite H3.
Qed.

Lemma parseInt_digits (neg : bool) (c : ascii) (s : string) (v : N) :
  all_digits (String c s) ->
  Query.scan 10 None (String c s) = Some v ->
  parseInt (if neg then String "-" (String c s) else String c s)
  = Some (if neg then (- Z.of_N v)%Z else Z.of_N v).
Proof.
  intros [[d Hd] Hs] Hv.
  pose proof (digit_in_10_range c d Hd) as Hc.
  assert (Hsign : Ascii.eqb c "-" = false /\ Ascii.eqb c "+" = false).
  { split; apply Ascii.eqb_neq; intros ->; vm_compute in Hc; destruct Hc as [H1 H2];
      now apply H1. }
  assert (Hhex : match String c s with
                 | String z (String x s') =>
                     if Ascii.eqb z "0" && (Ascii.eqb x "x" || Ascii.eqb x "X")
                     then (16%N, s') else (10%N, String c s)
                 | _ => (10%N, String c s)
                 end = (10%N, String c s)).
  { destruct s as [|x s']; [reflexivity|].
    destruct Hs as [[d' Hd'] _]. pose proof (digit_in_10_range x d' Hd') as Hx.
    assert (Hxx : Ascii.eqb x "x" = false /\ Ascii.eqb x "X" = false).
    { split; apply Ascii.eqb_neq; intros ->; vm_compute in Hx; destruct Hx as [H1 H2];
        now apply H2. }
    destruct Hxx as [-> ->]. now rewrite andb_false_r. }
  unfold parseInt. destruct neg.
  - rewrite trim_start_plain by (vm_compute; split; discriminate).
    change (Ascii.eqb "-" "-") with true. cbv iota beta.
    rewrite Hhex, Hv. reflexivity.
  - rewrite trim_start_plain by lia.
    destruct Hsign as [-> ->]. rewrite Hhex, Hv. reflexivity.
Qed.

Lemma pretty_N_go_cons (x : N) :
  (0 < x)%N -> exists c s, pretty_N_go x EmptyString = String c s.
Proof.
  intros Hx. destruct (scan_pretty_N_go x Hx) as [k Hk].
  specialize (Hk None EmptyString).
  destruct (pretty_N_go x EmptyString) as [|c s]; [|eauto].
  cbn [Query.scan] in Hk. discriminate.
Qed.

(** Reading back a printed integer. *)
Lemma parseInt_pretty (z : Z) : parseInt (pretty z) = Some z.
Proof.
  destruct z as [|p|p]; [reflexivity| |].
  - unfold pretty, pretty_Z, pretty, pretty_positive, pretty, pretty_N.
    rewrite decide_False by discriminate.
    destruct (pretty_N_go_cons (N.pos p)) as (c & s & Hcs); [lia|].
    pose proof (pretty_N_go_digits (N.pos p) EmptyString I) as Hd.
    destruct (scan_pretty_N_go (N.pos p)) as [k Hk]; [lia|].
    specialize (Hk None EmptyString). cbn [Query.scan default] in Hk.
    rewrite N.mul_0_l, N.add_0_l in Hk.
    rewrite Hcs in *. now rewrite (parseInt_digits false c s (N.pos p) Hd Hk).
  - unfold pretty, pretty_Z, pretty, pretty_positive, pretty, pretty_N.
    rewrite decide_False by discriminate.
    destruct (pretty_N_go_cons (N.pos p)) as (c & s & Hcs); [lia|].
    pose proof (pretty_N_go_digits (N.pos p) EmptyString I) as Hd.
    destruct (scan_pretty_N_go (N.pos p)) as [k Hk]; [lia|].
    specialize (Hk None EmptyString). cbn [Query.scan default] in Hk.
    rewrite N.mul_0_l, N.add_0_l in Hk.
    rewrite Hcs in *.
    change ("-" +:+ String c s) with (String "-" (String c s)).
    now rewrite (parseInt_digits true c s (N.pos p) Hd Hk).
Qed.

Lemma split_on_lacks (c : ascii) (s : string) :
  lacks c s -> split_on c s = [s].
Proof.
  induction s as [|a s IH]; simpl; [reflexivity|].
  intros [Ha Hs]. apply Ascii.eqb_neq in Ha. rewrite Ha, (IH Hs). reflexivity.
Qed.

Lemma split_on_app (c : ascii) (s t : string) :
  lacks c s -> split_on c (s ++ String c t)%string = s :: split_on c t.
Proof.
  induction s as [|a s IH]; simpl.
  - intros _. now rewrite Ascii.eqb_refl.
  - intros [Ha Hs]. apply Ascii.eqb_neq in Ha. rewrite Ha, (IH Hs). reflexivity.
Qed.

(** Joining and splitting again gives the list back, unless the list is
    empty (the empty text splits into one empty name) or a name contains the
    separator. *)
Lemma split_join (c : ascii) (l : list string) :
  l <> [] -> Forall (lacks c) l ->
  split_on c (join (String c EmptyString) l) = l.
Proof.
  intros Hne Hl. induction Hl as [|x l Hx Hl IH]; [contradiction|].
  destruct l as [|y l].
  - simpl. now apply split_on_lacks.
  - change (join (String c EmptyString) (x :: y :: l))
      with (x ++ String c (join (String c EmptyString) (y :: l)))%string.
    rewrite (split_on_app c x _ Hx). f_equal. now apply IH.
Qed.

(** ** The form of the runner page *)

Lemma toggleModel_keys (m : string) (sel : list (string * bool)) :
  m ∈ sel.*1 -> (toggleModel m sel).*1 = sel.*1.
Proof.
  induction sel as [|[k b] sel IH]; simpl.
  - intros H. now apply elem_of_nil in H.
  - intros H. destruct (String.eqb k m) eqn:He; [reflexivity|].
    simpl. f_equal. apply IH. apply elem_of_cons in H. destruct H as [->|H]; [|exact H].
    now rewrite String.eqb_refl in He.
Qed.

Lemma toggles_keys (toggles : list string) (sel : list (string * bool)) :
  Forall (fun m => m ∈ sel.*1) toggles ->
  (foldl (fun s m => toggleModel m s) sel toggles).*1 = sel.*1.
Proof.
  revert sel. induction toggles as [|m ms IH]; intros sel H; [reflexivity|].
  apply Forall_cons in H. destruct H as [Hm Hms]. cbn [foldl].
  rewrite IH; rewrite (toggleModel_keys m sel Hm); [reflexivity | exact Hms].
Qed.

Lemma first_occurrences_NoDup_fold (acc l : list string) :
  NoDup (acc ++ l) ->
  foldl (fun acc x => if decide (x ∈ acc) then acc else acc ++ [x]) acc l = acc ++ l.
Proof.
  revert acc. induction l as [|x l IH]; intros acc Hnd; cbn [foldl].
  - now rewrite app_nil_r.
  - apply NoDup_app in Hnd as Hnd'. destruct Hnd' as (_ & Hdisj & _).
    rewrite decide_False by (intros Hin; apply (Hdisj x Hin); now left).
    rewrite IH; rewrite <- app_assoc; [reflexivity | exact Hnd].
Qed.

Lemma first_occurrences_NoDup (l : list string) :
  NoDup l -> first_occurrences l = l.
Proof. intros H. apply (first_occurrences_NoDup_fold [] l H). Qed.

Lemma filter_ext_elem {A} (P Q : A -> Prop) `{!forall x, Decision (P x)}
    `{!forall x, Decision (Q x)} (l : list A) :
  (forall x, x ∈ l -> (P x <-> Q x)) -> filter P l = filter Q l.
Proof.
  induction l as [|a l IH]; intros Hext; [reflexivity|].
  rewrite !filter_cons.
  rewrite IH by (intros x Hx; apply Hext; now right).
  assert (Ha : P a <-> Q a) by (apply Hext; now left).
  destruct (decide (P a)) as [Hp|Hp]; destruct (decide (Q a)) as [Hq|Hq];
    try reflexivity; tauto.
Qed.

Lemma checked_count (sel : list (string * bool)) :
  NoDup sel.*1 ->
  length (filter (fun k => checked sel k = true) sel.*1)
  = length (filter (fun v => v = true) sel.*2).
Proof.
  induction sel as [|[k b] sel IH]; [reflexivity|].
  cbn [fmap list_fmap fst snd]. intros Hnd. apply NoDup_cons in Hnd. destruct Hnd as [Hk Hnd].
  rewrite !filter_cons. cbn [checked]. rewrite String.eqb_refl.
  assert (Hrest : filter (fun k0 => (if String.eqb k k0 then b else checked sel k0) = true) sel.*1
                  = filter (fun k0 => checked sel k0 = true) sel.*1).
  { apply filter_ext_elem. intros k0 Hk0.
    destruct (String.eqb k k0) eqn:He; [|tauto].
    apply String.eqb_eq in He. subst k0. contradiction. }
  fold (@fmap list _ _ _ (@fst string bool) sel). fold (@fmap list _ _ _ (@snd string bool) sel).
  rewrite Hrest. destruct b.
  - rewrite !decide_True by reflexivity. simpl. now rewrite IH.
  - rewrite !decide_False by discriminate. now apply IH.
Qed.

Lemma ui_names_ok : Forall ui_name_ok ui_initial.*1.
Proof.
  repeat constructor; try discriminate; try reflexivity; eexists; reflexivity.
Qed.

Lemma ui_boxes_keys (m : string) : m ∈ ui_boxes -> m ∈ ui_initial.*1.
Proof.
  intros H. apply list_elem_of_In in H. apply list_elem_of_In.
  simpl in H. repeat (destruct H as [<-|H]; [simpl; auto 20|]). destruct H.
Qed.

Lemma ui_keys_NoDup : NoDup ui_initial.*1.
Proof.
  apply NoDup_ListNoDup. repeat constructor; simpl; intuition discriminate.
Qed.

Lemma round64_exact (z : Z) : (Z.abs z < 2 ^ 53)%Z -> round64 z = z.
Proof.
  intros Hz. unfold round64.
  destruct (Z.leb_spec (Z.log2 (Z.abs z) - 52) 0) as [_|He]; [reflexivity|].
  exfalso.
  assert (H0 : (0 < Z.abs z)%Z).
  { destruct (Z.eq_dec (Z.abs z) 0%Z) as [E|E]; [rewrite E in He; simpl in He|]; lia. }
  pose proof (proj1 (Z.log2_lt_pow2 (Z.abs z) 53 H0) Hz). lia.
Qed.

Lemma round64_sign (z : Z) :
  ((0 < z -> 0 < round64 z) /\ (z <= 0 -> round64 z <= 0))%Z.
Proof.
  unfold round64.
  destruct (Z.leb_spec (Z.log2 (Z.abs z) - 52) 0) as [_|He]; [lia|].
  set (m := Z.abs z) in *. set (e := (Z.log2 m - 52)%Z) in *.
  set (q := Z.shiftr m e).
  assert (Hm : (0 < m)%Z).
  { destruct (Z.eq_dec m 0%Z) as [E|E]; [unfold e in He; rewrite E in He; simpl in He|];
      unfold m in *; lia. }
  assert (Hq : (1 <= q)%Z).
  { unfold q. rewrite Z.shiftr_div_pow2 by lia.
    apply Z.div_le_lower_bound; [apply Z.pow_pos_nonneg; lia|].
    rewrite Z.mul_1_r. pose proof (Z.log2_spec m Hm) as [Hl _].
    etransitivity; [|exact Hl]. apply Z.pow_le_mono_r; lia. }
  match goal with |- context [if ?c then _ else _] => set (b := c) end.
  assert (Hq' : (1 <= (if b then q + 1 else q))%Z) by (destruct b; lia).
  set (q' := if b then (q + 1)%Z else q) in *.
  rewrite Z.shiftl_mul_pow2 by lia.
  assert (Hp : (0 < 2 ^ e)%Z) by (apply Z.pow_pos_nonneg; lia).
  split; intros Hz.
  - rewrite Z.sgn_pos by exact Hz. nia.
  - assert (Z.sgn z = (-1)%Z) by (apply Z.sgn_neg; unfold m in Hm; lia). nia.
Qed.

Lemma ui_total_pairings (n : nat) (rounds : Z) :
  n <= 10 ->
  (let N := Z.of_nat n in
   let total := mul64 (mul64 N (N - 1)) rounds in
   if (total >? 0)%Z then total else 0%Z)
  = round64 (Z.of_nat (n * (n - 1) * Z.to_nat rounds)).
Proof.
  intros Hn. cbv zeta.
  assert (Hp : (Z.of_nat (n * (n - 1)) = Z.of_nat n * (Z.of_nat n - 1))%Z).
  { destruct n as [|n]; [reflexivity|].
    rewrite Nat2Z.inj_mul. f_equal. lia. }
  rewrite Nat2Z.inj_mul, Hp.
  set (P := (Z.of_nat n * (Z.of_nat n - 1))%Z) in *.
  assert (HP : (0 <= P <= 90)%Z) by nia.
  unfold mul64. fold P. rewrite !(round64_exact P) by lia.
  destruct (round64_sign (P * rounds)) as [Hpos Hneg].
  destruct (Z_lt_le_dec 0 rounds) as [Hr|Hr].
  - rewrite Z2Nat.id by lia.
    destruct (Z.gtb_spec (round64 (P * rounds)) 0) as [H|H]; [reflexivity|].
    assert (HP0 : P = 0%Z) by (destruct (Z.eq_dec P 0%Z) as [E|E]; [exact E|]; exfalso; nia).
    rewrite HP0. reflexivity.
  - rewrite Z2Nat.nonpos by exact Hr. rewrite Z.mul_0_r.
    destruct (Z.gtb_spec (round64 (P * rounds)) 0) as [H|H]; [|reflexivity]. nia.
Qed.

Lemma ui_selected_bound (sel : list (string * bool)) :
  sel.*1 = ui_initial.*1 -> length (filter (fun v => v = true) sel.*2) <= 10.
Proof.
  intros Hk. etransitivity; [apply length_filter|].
  rewrite length_fmap, <- (length_fmap fst), Hk. reflexivity.
Qed.

(** What is selected on the page is what is played.  For every sequence of
    clicks on the check boxes, a number of rounds other than 0 (the page
    never holds 0) and a tournament name, the request that the page sends
    is understood by the server as it was meant: the roster consists of the
    ticked names in the order of the page, each is played under the model
    id that [MODELS] gives for it, and the rounds and the name are those of
    the page.  The total that the page displays is the number of matches of
    the schedule (none for a negative number of rounds) as binary64
    arithmetic gives it: the number itself when it is below [2 ^ 53], and
    the binary64 number nearest to it otherwise. *)
Theorem selection_is_played (toggles : list string) (rounds : Z) (name : string) :
  Forall (fun m => m ∈ ui_boxes) toggles ->
  rounds <> 0%Z -> (- 2 ^ 53 < rounds < 2 ^ 53)%Z ->
  let sel := foldl (fun s m => toggleModel m s) ui_initial toggles in
  let chosen := ui_models sel in
  chosen <> [] ->
  exists o,
    start_options (ui_query sel rounds name) = Returned o /\
    opt_rounds o = rounds /\ opt_tournamentName o = Some name /\
    modelKeys_of o = chosen /\
    (forall m, m ∈ chosen ->
       exists id, obj_get MODELS m = Some id /\
                  conf_of (modelMap_of o) m = {| conf_name := m; conf_modelId := id |}) /\
    let matches :=
      Z.of_nat (length (concat (replicate (Z.to_nat rounds) (pairings chosen)))) in
    ui_total sel rounds = round64 matches /\
    ((matches < 2 ^ 53)%Z -> ui_total sel rounds = matches).
Proof.
  intros Htog Hr _ sel chosen Hne.
  assert (Hkeys : sel.*1 = ui_initial.*1).
  { apply toggles_keys. eapply Forall_impl; [exact Htog|]. apply ui_boxes_keys. }
  assert (Hord : keys_in_order sel.*1 = sel.*1) by (rewrite Hkeys; reflexivity).
  assert (Hch : chosen = filter (fun k => checked sel k = true) sel.*1)
    by (unfold chosen, ui_models; now rewrite Hord).
  assert (Hok : Forall ui_name_ok chosen).
  { apply Forall_forall. intros m Hm. rewrite Hch, Hkeys in Hm.
    apply list_elem_of_filter in Hm. destruct Hm as [_ Hm].
    exact (proj1 (Forall_forall _ _) ui_names_ok m Hm). }
  assert (Hnd : NoDup chosen).
  { rewrite Hch, Hkeys. apply NoDup_filter, ui_keys_NoDup. }
  assert (Hsplit : split_on "," (join "," chosen) = chosen).
  { apply split_join; [exact Hne|]. eapply Forall_impl; [exact Hok|].
    intros m Hm. apply Hm. }
  assert (Hrounds : query_rounds (ui_query sel rounds name) = rounds).
  { unfold query_rounds, ui_query. cbn [q_rounds]. rewrite parseInt_pretty.
    destruct (Z.eqb_spec rounds 0); [contradiction | reflexivity]. }
  eexists. split; [reflexivity|].
  cbn [opt_rounds opt_tournamentName default]. fold chosen.
  split; [exact Hrounds|]. split; [reflexivity|].
  assert (Hproto : filter (fun m => m <> "__proto__") chosen = chosen).
  { clear -Hok. induction Hok as [|m l Hm _ IH]; [reflexivity|].
    rewrite filter_cons, decide_True by apply Hm. now rewrite IH. }
  assert (Hres : (resolve_models chosen).*1 = chosen).
  { rewrite resolve_models_keys, Hproto. now apply first_occurrences_NoDup. }
  split.
  { unfold modelKeys_of, modelMap_of. cbn [opt_models default]. unfold id.
    rewrite Hsplit.
    rewrite Object_keys_index_free; rewrite Hres; [reflexivity|].
    eapply Forall_impl; [exact Hok|]. intros m Hm. apply Hm. }
  split.
  { intros m Hm. pose proof (proj1 (Forall_forall _ _) Hok m Hm) as (_ & _ & Hp & Hs & id & Hid).
    exists id. split; [exact Hid|].
    unfold conf_of, modelMap_of. cbn [opt_models default]. unfold Datatypes.id.
    rewrite Hsplit.
    rewrite (resolve_models_get chosen m Hm Hp). unfold resolved_id.
    now rewrite Hs, Hid. }
  cbv zeta.
  assert (Htotal : ui_total sel rounds
                   = round64 (Z.of_nat (length (concat (replicate (Z.to_nat rounds)
                                                          (pairings chosen)))))).
  { rewrite length_rounds, length_pairings.
    pose proof (ui_selected_bound sel Hkeys) as Hb.
    unfold ui_total.
    rewrite <- checked_count in * by (rewrite Hkeys; apply ui_keys_NoDup).
    rewrite <- Hch in *. now apply ui_total_pairings. }
  split; [exact Htotal|].
  intros Hm. rewrite Htotal. apply round64_exact. lia.
Qed.

(** With seven boxes ticked and [2 ^ 53 - 1] rounds the schedule has
    378302368699121622 matches; the page shows the binary64 number next to
    it. *)
Example total_of_a_long_tournament :
  let sel := toggleModel "SONNET_4_5" ui_initial in
  length (ui_models sel) = 7 /\
  (7 * (7 - 1) * (2 ^ 53 - 1) = 378302368699121622)%Z /\
  ui_total sel (2 ^ 53 - 1) = 378302368699121600%Z.
Proof. vm_compute. repeat split. Qed.

(** [mul64] against the multiplication of the primitive floats. *)
Example mul64_agrees :
  (Js.of_Z false 42 * Js.of_Z false (2 ^ 53 - 1))%float
  = Js.of_Z false (mul64 42 (2 ^ 53 - 1)) /\
  (Js.of_Z false 90 * Js.of_Z false (2 ^ 52 + 1))%float
  = Js.of_Z false (mul64 90 (2 ^ 52 + 1)) /\
  (Js.of_Z false 6 * Js.of_Z false (2 ^ 52 + 3))%float
  = Js.of_Z false (mul64 6 (2 ^ 52 + 3)) /\
  (Js.of_Z false 6 * Js.of_Z false (- 50))%float = Js.of_Z false (mul64 6 (- 50)).
Proof. vm_compute. repeat split. Qed.

(** One more box is ticked, two rounds are asked for. *)
Lemma selection_is_played_witness :
  exists o,
    start_options (ui_query (toggleModel "SONNET_4_5" ui_initial) 2 "T") = Returned o /\
    opt_rounds o = 2%Z /\
    modelKeys_of o = ui_models (toggleModel "SONNET_4_5" ui_initial).
Proof.
  assert (H1 : Forall (fun m => m ∈ ui_boxes) ["SONNET_4_5"]).
  { repeat constructor. }
  assert (H2 : (2 <> 0)%Z) by discriminate.
  assert (H3 : (- 2 ^ 53 < 2 < 2 ^ 53)%Z) by (split; reflexivity).
  assert (H4 : ui_models (toggleModel "SONNET_4_5" ui_initial) <> []).
  { vm_compute. discriminate. }
  destruct (selection_is_played ["SONNET_4_5"] 2 "T" H1 H2 H3 H4)
    as (o & Ho & Hr & _ & Hk & _).
  exists o. split; [exact Ho|]. split; [exact Hr | exact Hk].
Defined.

(** ** The lines that announce the turns *)

Lemma announced_logger (ln : line) (w : world) :
  announced (logger ln w)
  = announced w ++ match ln with
                   | TurnLine sp msg shown => [(sp, msg, shown)]
                   | _ => []
                   end.
Proof.
  unfold announced. simpl. rewrite omap_app. f_equal.
  destruct ln; reflexivity.
Qed.

Lemma check_deal_announced (l : locals) (r : reply) (w : world)
    (c : locals * reply * world) :
  check_deal l r w = Some c -> announced c.2 = announced w.
Proof.
  unfold check_deal.
  destruct (Value.truthy (deal r)); [|intros H; now inversion H].
  destruct (negb (Value.is_null (lastOffer l)) && _);
    [|intros H; inversion H; simpl; rewrite announced_logger; apply app_nil_r].
  destruct (Value.strict_eq _ _); [intros H; now inversion H|].
  destruct (Value.to_string (offer r)); [|discriminate].
  destruct (Value.to_string (lastOffer l)); [|discriminate].
  intros H; inversion H; simpl; rewrite announced_logger; apply app_nil_r.
Qed.

Lemma process_offer_announced (l : locals) (r : reply) (w : world) :
  announced (process_offer l r w).2 = announced w.
Proof.
  unfold process_offer.
  destruct (negb (dealReached l)); [|reflexivity].
  destruct (negb (Value.is_null (offer r))); [reflexivity|].
  cbn [consecutiveNulls set_consecutiveNulls].
  destruct (2 <=? S (consecutiveNulls l))%nat; simpl;
    [rewrite announced_logger; apply app_nil_r | reflexivity].
Qed.

(** A pass through the loop body that gets a reply and raises no error
    announces the reply. *)
Lemma turn_body_announced (E : env) (l : locals) (w : world) (r : reply) :
  aborted E w = false -> generate E (calls w) = Replied r ->
  (forall err w', turn_body E l w <> Throw err w') ->
  announced (flow_world (turn_body E l w))
  = announced w ++ [(name (deref l (activeAgent l)), message r, shown_offer r)].
Proof.
  intros Ha Hg. rewrite (turn_body_replied E l w r Ha Hg). intros Hnt.
  assert (Hp : printable (message r) /\ printable (offer r)).
  { unfold printable.
    destruct (Value.to_string (message r)) eqn:Hm;
      [destruct (Value.to_string (offer r)) eqn:Ho; [split; discriminate|]|];
      exfalso; eapply Hnt; apply on_reply_unprintable; unfold printable;
      rewrite ?Hm, ?Ho; tauto. }
  destruct Hp as [Hm Ho]. rewrite (on_reply_unfold _ _ _ Hm Ho) in *.
  set (l1 := set_turns (S (turns l)) l) in *.
  destruct (check_deal l1 r _) as [c|] eqn:Hc; [|exfalso; eapply Hnt; reflexivity].
  cbv zeta.
  assert (H : announced (process_offer c.1.1 c.1.2 c.2).2
              = announced w ++ [(name (deref l (activeAgent l)), message r,
                                 shown_offer r)]).
  { rewrite process_offer_announced, (check_deal_announced _ _ _ _ Hc).
    rewrite announced_logger. reflexivity. }
  destruct (process_offer _ _ _).1.1; exact H.
Qed.

Lemma announcements_S (E : env) (c0 : nat) (sc bc : conf) (n : nat) (r : reply) :
  reply_at E c0 n = Some r ->
  announcements E c0 sc bc (S n)
  = announcements E c0 sc bc n ++ [announcement sc bc n r].
Proof.
  intros Hr. unfold announcements. rewrite seq_S, omap_app.
  cbn [omap list_omap Nat.add]. now rewrite Hr.
Qed.

Lemma length_announcements_S (E : env) (c0 : nat) (sc bc : conf) (n : nat) (r : reply) :
  reply_at E c0 n = Some r ->
  length (announcements E c0 sc bc n) = n ->
  length (announcements E c0 sc bc (S n)) = S n.
Proof.
  intros Hr Hn. rewrite (announcements_S E c0 sc bc n r Hr), length_app, Hn.
  simpl. lia.
Qed.

Lemma speaker_name (E : env) (sc bc : conf) (c0 : nat) (l : locals) (w : world) :
  loop_inv E (seller_agent sc) (buyer_agent bc) c0 l w ->
  name (deref l (activeAgent l))
  = match speaker_ref (turns l) with
    | Seller => conf_name sc
    | Buyer => conf_name bc
    end.
Proof.
  intros Hi.
  destruct (deref_role l (seller_agent sc) (buyer_agent bc) (activeAgent l)
              eq_refl eq_refl (li_seller _ _ _ _ _ _ Hi) (li_buyer _ _ _ _ _ _ Hi))
    as [_ (Hn & _)].
  rewrite Hn, (li_active _ _ _ _ _ _ Hi). now destruct (speaker_ref (turns l)).
Qed.

Lemma visits_announced (E : env) (sc bc : conf) (w0 : world) (l : locals) (w : world) :
  visits E (initial_locals (seller_agent sc) (buyer_agent bc)) w0 l w ->
  announced w = announced w0 ++ announcements E (calls w0) sc bc (turns l) /\
  length (announcements E (calls w0) sc bc (turns l)) = turns l.
Proof.
  intros Hv. induction Hv as [|l w l' w' Hv [IH IHn] Ht Hn].
  - split; [now rewrite app_nil_r | reflexivity].
  - destruct (loop_inv_visits E (seller_agent sc) (buyer_agent bc) w0 l w
                eq_refl eq_refl Hv) as [Hinv _].
    pose proof Ht as Ht'. apply loop_test_true in Ht'. destruct Ht' as [_ Hdr].
    destruct (turn_body_Next E l w l' w' Hdr Hn) as [r Hr].
    pose proof (reply_at_calls E _ _ _ l w r Hinv (ne_reply _ _ _ _ _ _ Hr)) as Hat.
    assert (Ha : announced (flow_world (turn_body E l w))
                 = announced w ++ [(name (deref l (activeAgent l)), message r,
                                    shown_offer r)]).
    { apply turn_body_announced;
        [exact (ne_not_aborted _ _ _ _ _ _ Hr) | exact (ne_reply _ _ _ _ _ _ Hr)|].
      intros err w1. rewrite Hn. discriminate. }
    rewrite Hn in Ha. simpl in Ha.
    rewrite (ne_turns _ _ _ _ _ _ Hr).
    split; [|now apply (length_announcements_S E _ sc bc _ r)].
    rewrite Ha, IH, (announcements_S E _ sc bc _ r Hat), <- app_assoc.
    unfold announcement. now rewrite (speaker_name E sc bc _ l w Hinv).
Qed.

Lemma announced_tick_rng (w : world) : announced (tick_rng w) = announced w.
Proof. reflexivity. Qed.

Lemma setup_announced (E : env) (runId : string) (bc sc : conf) (w : world) :
  announced (setup E runId bc sc w).2 = announced w.
Proof.
  unfold setup. destruct (pick_scenario _); cbn [snd];
    repeat (rewrite ?announced_logger, ?announced_tick_rng; cbn [app];
            rewrite ?app_nil_r);
    reflexivity.
Qed.

Lemma finish_announced (E : env) (runId : string) (tid : option string)
    (scn : scenario_t) (se be : float) (sb : float * float) (l : locals) (w : world) :
  announced (finish E runId tid scn se be sb l w).2 = announced w.
Proof.
  unfold finish. destruct sb. cbn [snd].
  change (announced (logger (outcome_line l) w) = announced w).
  rewrite announced_logger. unfold outcome_line.
  destruct (dealReached l && Value.truthy (dealPrice l)); apply app_nil_r.
Qed.

(** Every turn is announced.  While a match runs, the logger receives one
    line per turn taken, in order, with the speaker's name, the message and
    the offer of the reply; this includes the turn that the silence rule
    cuts out of the log of the result.  An offer that is falsy, such as 0,
    is announced as ['None']. *)
Theorem every_turn_is_announced (E : env) (runId : string)
    (buyerConf sellerConf : conf) (tid : option string) (w : world)
    (res : match_result) (w' : world) :
  runMatch E runId buyerConf sellerConf tid w = (Returned res, w') ->
  announced w'
  = announced w ++ announcements E (calls w) sellerConf buyerConf (r_turns res) /\
  length (announcements E (calls w) sellerConf buyerConf (r_turns res)) = r_turns res.
Proof.
  intros Hrun.
  unfold runMatch in Hrun.
  destruct (setup E runId buyerConf sellerConf w) as [[[[scn se] be]|] w0] eqn:Hsetup;
    [|discriminate].
  destruct (aborted E w0) eqn:Ha; [discriminate|].
  destruct (match_loop E (S maxTurns) _ w0) as [lf wf|err wf|] eqn:Hloop;
    try discriminate.
  destruct (scores lf se be) as [sb|] eqn:Hsc; [|discriminate].
  destruct (finish E runId tid scn se be sb lf wf) as [result w''] eqn:Hfin.
  inversion Hrun; subst; clear Hrun.
  destruct (setup_Some _ _ _ _ _ _ _ Hsetup) as [Hc _].
  pose proof (setup_announced E runId buyerConf sellerConf w) as Hs0.
  rewrite Hsetup in Hs0. cbn [snd] in Hs0.
  pose proof (finish_announced E runId tid scn se be sb lf wf) as Hf.
  rewrite Hfin in Hf. cbn [snd] in Hf.
  destruct (finish_spec _ _ _ _ _ _ _ _ _ _ _ Hfin) as (_ & _ & _ & Ht & _).
  destruct (match_loop_Exited _ _ _ _ _ _ Hloop) as (l & wl & Hv & He).
  destruct (visits_announced E sellerConf buyerConf w0 l wl Hv) as [Hvl Hvn].
  rewrite Hf, Ht, <- Hs0, <- Hc.
  destruct He as [(_ & -> & ->) | (Hlt & Hbr)]; [auto|].
  destruct (loop_inv_visits E (seller_agent sellerConf) (buyer_agent buyerConf) w0 l wl
              eq_refl eq_refl Hv) as [Hinv _].
  pose proof Hlt as Ht'. apply loop_test_true in Ht'. destruct Ht' as [_ Hdr].
  destruct (turn_body_Break E l wl lf wf Hdr Hbr) as [r Hr].
  pose proof (reply_at_calls E _ _ _ l wl r Hinv (be_reply _ _ _ _ _ _ Hr)) as Hat.
  assert (Hb : announced (flow_world (turn_body E l wl))
               = announced wl ++ [(name (deref l (activeAgent l)), message r,
                                   shown_offer r)]).
  { apply turn_body_announced;
      [exact (be_not_aborted _ _ _ _ _ _ Hr) | exact (be_reply _ _ _ _ _ _ Hr)|].
    intros err w1. rewrite Hbr. discriminate. }
  rewrite Hbr in Hb. simpl in Hb. rewrite (be_turns _ _ _ _ _ _ Hr).
  split; [|now apply (length_announcements_S E _ sellerConf buyerConf _ r)].
  rewrite Hb, Hvl, (announcements_S E _ sellerConf buyerConf _ r Hat), <- app_assoc.
  unfold announcement. now rewrite (speaker_name E sellerConf buyerConf _ l wl Hinv).
Qed.

Lemma every_turn_is_announced_witness :
  exists res w',
    runMatch (script [say (Some 50000%float) false] None)
      "1_1" conf_B conf_A None empty_world = (Returned res, w') /\
    length (announced w') = r_turns res.
Proof.
  destruct (runMatch (script [say (Some 50000%float) false] None)
              "1_1" conf_B conf_A None empty_world)
    as [[res| |] w'] eqn:Hrun;
    [| exfalso; vm_compute in Hrun; discriminate ..].
  exists res, w'. split; [reflexivity|].
  destruct (every_turn_is_announced _ _ _ _ _ _ _ _ Hrun) as [Ha Hn].
  rewrite Ha, length_app, Hn. reflexivity.
Defined.

(** ** The default roster *)

(** The roster that is used when no models are given does not go through
    [MODELS].  None of its five names, with [" 4.5"] removed, is a key of
    the table, so that each name is handed to its agent as the model id
    itself; and as no name starts with [gpt] or [gemini], every agent calls
    the Anthropic client with that name, at the temperature of the models
    that are not GPT-5. *)
Theorem default_roster_unresolved (rounds : Z) (tournamentName : option string) :
  let o := {| opt_rounds := rounds; opt_models := None;
              opt_tournamentName := tournamentName |} in
  modelKeys_of o = default_models /\
  Forall (fun m => obj_get MODELS (strip_4_5 m) = None /\
                   conf_of (modelMap_of o) m = {| conf_name := m; conf_modelId := m |} /\
                   provider_of m = Anthropic /\ isGPT5 m = false)
    default_models.
Proof.
  intros o. split; [reflexivity|].
  repeat constructor.
Qed.

(** ** The standalone runner *)

Lemma to_primitive_printable (v : value) :
  printable v ->
  exists p, Value.to_primitive v = Some p /\ Value.is_object p = false.
Proof.
  unfold printable, Value.to_primitive. intros Hp.
  destruct (Value.is_object v) eqn:Ho; [|eauto].
  destruct (Value.to_string v) as [s|]; [|congruence].
  exists (Value.text s). split; reflexivity.
Qed.

(** [==] raises no error on values that have a text. *)
Lemma loose_eq_printable (a b : value) :
  printable a -> printable b -> Value.loose_eq a b <> None.
Proof.
  intros Ha Hb. unfold Value.loose_eq.
  destruct (Value.is_nullish a || Value.is_nullish b); [discriminate|].
  destruct (Value.is_object a && Value.is_object b); [discriminate|].
  destruct (to_primitive_printable a Ha) as (p & -> & Hp).
  destruct (to_primitive_printable b Hb) as (q & -> & Hq).
  pose proof (primitive_to_number p Hp) as Hx.
  pose proof (primitive_to_number q Hq) as Hy.
  destruct (Value.to_number p); [|congruence].
  destruct (Value.to_number q); [|congruence].
  destruct p as [[]|], q as [[]|]; discriminate.
Qed.

(** A pass through the body of the loop logs the turn, or raises a
    [TypeError] after the turn was counted. *)
Lemma cli_turn_body_cases (l : Cli.locals) (response : json) :
  cli_ready l ->
  match Cli.turn_body l response with
  | Cli.Next l' =>
      ~ cli_unreadable response /\ cli_ready l' /\
      Cli.turns l' = S (Cli.turns l) /\
      map Cli.e_turn (Cli.logs l') = map Cli.e_turn (Cli.logs l) ++ [S (Cli.turns l)]
  | Cli.Throw err l' =>
      err = "TypeError" /\ l' = Cli.tick l /\ cli_unreadable response
  end.
Proof.
  intros Hl. unfold Cli.turn_body, cli_unreadable.
  destruct (Cli.prop response "message") as [msg|] eqn:Hm; [|auto].
  destruct (Cli.prop response "offer") as [off|] eqn:Ho; [|auto].
  assert (Hd : exists dl, Cli.prop response "deal" = Some dl).
  { destruct response; simpl in *; try discriminate; eauto. }
  destruct Hd as [dl ->].
  destruct (Value.to_string msg) as [sm|] eqn:Hsm;
    [|repeat split; auto; unfold printable; intros [H _]; now apply H].
  destruct (Value.to_string off) as [so|] eqn:Hso;
    [|repeat split; auto; unfold printable; intros [_ H]; now apply H].
  assert (Hpm : printable msg) by (unfold printable; congruence).
  assert (Hpo : printable off) by (unfold printable; congruence).
  assert (Hok : ~ ~ (printable msg /\ printable off)) by tauto.
  destruct (Value.truthy dl).
  - destruct (Value.to_string (Cli.lastOffer l)) as [sl|] eqn:Hsl;
      [|exfalso; now apply Hl].
    destruct (Value.is_null (Cli.lastOffer l)).
    + simpl. rewrite map_app. repeat split; auto.
    + pose proof (loose_eq_printable off (Cli.lastOffer l) Hpo Hl) as Hle.
      destruct (Value.loose_eq off (Cli.lastOffer l)) as [[|]|]; [| |congruence];
        simpl; rewrite map_app; repeat split; auto.
  - simpl. rewrite map_app. repeat split; auto.
    unfold cli_ready. simpl. now destruct (Value.is_null off).
Qed.

Lemma cli_loop_inv (fuel : nat) (generate : nat -> Cli.outcome) (l : Cli.locals) :
  cli_ready l ->
  map Cli.e_turn (Cli.logs l) = seq 1 (Cli.turns l) ->
  Cli.turns l <= maxTurns ->
  maxTurns - Cli.turns l < fuel ->
  (forall k, k < Cli.turns l ->
     exists d, generate k = Cli.Data d /\ ~ cli_unreadable d) ->
  match Cli.match_loop fuel generate l with
  | Cli.Exited lf =>
      map Cli.e_turn (Cli.logs lf) = seq 1 (Cli.turns lf) /\
      Cli.turns lf <= maxTurns /\
      (Cli.dealReached lf = true \/ Cli.turns lf = maxTurns) /\
      (forall k, k < Cli.turns lf ->
         exists d, generate k = Cli.Data d /\ ~ cli_unreadable d)
  | Cli.Raised err lr =>
      1 <= Cli.turns lr <= maxTurns /\
      map Cli.e_turn (Cli.logs lr) = seq 1 (Cli.turns lr - 1) /\
      Cli.dealReached lr = false /\
      (forall k, k < Cli.turns lr - 1 ->
         exists d, generate k = Cli.Data d /\ ~ cli_unreadable d) /\
      (generate (Cli.turns lr - 1) = Cli.Rejected err \/
       (err = "TypeError" /\
        exists d, generate (Cli.turns lr - 1) = Cli.Data d /\ cli_unreadable d))
  | Cli.OutOfFuel => False
  end.
Proof.
  revert l. induction fuel as [|fuel IH]; intros l Hr Hlog Hle Hf Hgen; [lia|].
  cbn [Cli.match_loop].
  destruct ((Cli.turns l <? maxTurns)%nat && negb (Cli.dealReached l)) eqn:Ht.
  - apply andb_true_iff in Ht. destruct Ht as [Hlt Hnd]. apply Nat.ltb_lt in Hlt.
    apply negb_true_iff in Hnd.
    assert (Hpred : S (Cli.turns l) - 1 = Cli.turns l) by lia.
    destruct (generate (Cli.turns l)) as [d|err] eqn:Hg.
    + pose proof (cli_turn_body_cases l d Hr) as Hc.
      destruct (Cli.turn_body l d) as [l'|err l'].
      * destruct Hc as (Hread & Hr' & Ht' & Hl').
        apply IH; [exact Hr' | | lia | lia |].
        -- rewrite Hl', Hlog, Ht', seq_S. reflexivity.
        -- intros k Hk. rewrite Ht' in Hk.
           destruct (decide (k = Cli.turns l)) as [->|]; [eauto|]. apply Hgen. lia.
      * destruct Hc as (-> & -> & Hun). cbn [Cli.tick Cli.turns Cli.logs Cli.dealReached].
        rewrite Hpred. split; [lia|]. split; [exact Hlog|]. split; [exact Hnd|].
        split; [exact Hgen|]. right. split; [reflexivity|]. eauto.
    + cbn [Cli.tick Cli.turns Cli.logs Cli.dealReached].
      rewrite Hpred. split; [lia|]. split; [exact Hlog|]. split; [exact Hnd|].
      split; [exact Hgen|]. now left.
  - split; [exact Hlog|]. split; [exact Hle|]. split; [|exact Hgen].
    apply andb_false_iff in Ht. destruct Ht as [Ht|Ht].
    + apply Nat.ltb_ge in Ht. right. lia.
    + left. now destruct (Cli.dealReached l).
Qed.

(** The standalone runner has no silence rule and no handler for errors.
    Its loop always ends, in one of two ways.  Either every reply could be
    read: then the log has one entry for each turn from 1 to the turn
    count, and the match has reached a deal or has taken all 12 turns
    (agents that make no offers talk until the turn cap).  Or an error
    leaves [runMatch] on some turn, which is counted but not logged: the
    error that the agent rethrew from its failed request, or the
    [TypeError] of a reply that is [null] or whose message or offer has no
    text; the turns before it are logged, and no deal was reached. *)
Theorem cli_logs_every_turn (generate : nat -> Cli.outcome) (s b : agent) :
  match Cli.match_loop (S maxTurns) generate (Cli.initial_locals s b) with
  | Cli.Exited lf =>
      map Cli.e_turn (Cli.logs lf) = seq 1 (Cli.turns lf) /\
      Cli.turns lf <= 12 /\
      (Cli.dealReached lf = true \/ Cli.turns lf = 12) /\
      (forall k, k < Cli.turns lf ->
         exists d, generate k = Cli.Data d /\ ~ cli_unreadable d)
  | Cli.Raised err lr =>
      1 <= Cli.turns lr <= 12 /\
      map Cli.e_turn (Cli.logs lr) = seq 1 (Cli.turns lr - 1) /\
      Cli.dealReached lr = false /\
      (forall k, k < Cli.turns lr - 1 ->
         exists d, generate k = Cli.Data d /\ ~ cli_unreadable d) /\
      (generate (Cli.turns lr - 1) = Cli.Rejected err \/
       (err = "TypeError" /\
        exists d, generate (Cli.turns lr - 1) = Cli.Data d /\ cli_unreadable d))
  | Cli.OutOfFuel => False
  end.
Proof.
  apply cli_loop_inv.
  - unfold cli_ready, printable. simpl. discriminate.
  - reflexivity.
  - simpl. unfold maxTurns. lia.
  - simpl. unfold maxTurns. lia.
  - simpl. intros k Hk. lia.
Qed.

(** A request that fails on the second turn ends the run with the error of
    the request; the first turn is in the log. *)
Example cli_failed_request :
  let generate k :=
    match k with
    | 0 => Cli.Data (JObject (fields (schema_reply (Some 50000%float) false)))
    | _ => Cli.Rejected "APIError"
    end in
  match Cli.match_loop 13 generate
          (Cli.initial_locals (new_Agent "Opus 4.5" EmptyString Seller)
                              (new_Agent "Haiku 4.5" EmptyString Buyer)) with
  | Cli.Raised err lr => Some (err, Cli.turns lr, map Cli.e_turn (Cli.logs lr))
  | _ => None
  end
  = Some ("APIError", 2, [1]).
Proof. vm_compute. reflexivity. Qed.

(** The answer [null] is valid JSON, and reading its message raises a
    [TypeError]. *)
Example cli_null_reply :
  JSON_parse "null" = Returned JNull /\
  match Cli.match_loop 13 (fun _ => Cli.Data JNull)
          (Cli.initial_locals (new_Agent "Opus 4.5" EmptyString Seller)
                              (new_Agent "Haiku 4.5" EmptyString Buyer)) with
  | Cli.Raised err lr => Some (err, Cli.turns lr, Cli.logs lr)
  | _ => None
  end
  = Some ("TypeError", 1, []).
Proof. vm_compute. split; reflexivity. Qed.

